(** * Minesweeper knowledge base: a shallow embedding of [minesweeper.py]

    The development models the three classes of the program
    ([Minesweeper], [Sentence], [MinesweeperAI]) as records with
    explicit state passing, and proves properties of the inference
    engine: fact marking, propagation ([update]), subset-difference
    inference ([inference]) and observation ingestion ([add_knowledge]).

    Python integers are unbounded, so they are modelled by [Z]; Python
    sets of cells are modelled by [gset (Z * Z)]; the knowledge base,
    a Python list of mutable [Sentence] objects, is a [list] that is
    rewritten position by position (no object occurs twice in the list,
    and every sentence owns a private copy of its cell set, so there is
    no aliasing between slots). *)

From Stdlib Require Import ZArith Lia.
From stdpp Require Import gmap sets list.

Local Open Scope Z_scope.
Set Warnings "-clear-no-such-hyp".

(** A board coordinate [(row, column)]. *)
Definition cell : Type := Z * Z.

(** Python does not specify the order in which a [set] is iterated.
    The model is parametric in that order: any enumeration of the
    elements without repetition is allowed. *)
Class SetOrder := {
  iter : gset cell → list cell;
  iter_perm : ∀ s, iter s ≡ₚ elements s
}.

(** The order used to evaluate the model on concrete inputs. *)
Definition elements_order : SetOrder :=
  {| iter := elements; iter_perm := λ s, reflexivity (elements s) |}.

(** [range(a, b)] on Python integers. *)
Definition range (a b : Z) : list Z :=
  map (λ k : nat, a + Z.of_nat k) (seq 0 (Z.to_nat (b - a))).

(** ** class Sentence *)
Module Sentence.

Record t := mk { cells : gset cell; count : Z }.

#[global] Instance eq_dec : EqDecision t.
Proof. solve_decision. Defined.

(** [__eq__] *)
Definition eqb (s other : t) : bool :=
  bool_decide (cells s = cells other) && bool_decide (count s = count other).

(** [!=], which Python derives from [__eq__] *)
Definition neqb (s other : t) : bool := negb (eqb s other).

(** [x in l] for a list of sentences: identity or [__eq__]; an
    object is always [__eq__] to itself, so [__eq__] alone decides. *)
Definition inb (s : t) (l : list t) : bool := existsb (eqb s) l.

Definition known_mines (s : t) : gset cell :=
  if decide (Z.of_nat (size (cells s)) = count s) then cells s else ∅.

Definition known_safes (s : t) : gset cell :=
  if decide (count s = 0) then cells s else ∅.

Definition mark_mine (s : t) (c : cell) : t * Z :=
  if decide (c ∈ cells s)
  then (mk (cells s ∖ {[c]}) (count s - 1), 1)
  else (s, 0).

Definition mark_safe (s : t) (c : cell) : t * Z :=
  if decide (c ∈ cells s)
  then (mk (cells s ∖ {[c]}) (count s), 1)
  else (s, 0).

End Sentence.

(** ** class MinesweeperAI *)
Module MinesweeperAI.

Record t := mk {
  height : Z;
  width : Z;
  moves_made : gset cell;
  mines : gset cell;
  safes : gset cell;
  knowledge : list Sentence.t
}.

Definition set_moves_made (f : gset cell → gset cell) (ai : t) : t :=
  mk (height ai) (width ai) (f (moves_made ai)) (mines ai) (safes ai) (knowledge ai).
Definition set_mines (f : gset cell → gset cell) (ai : t) : t :=
  mk (height ai) (width ai) (moves_made ai) (f (mines ai)) (safes ai) (knowledge ai).
Definition set_safes (f : gset cell → gset cell) (ai : t) : t :=
  mk (height ai) (width ai) (moves_made ai) (mines ai) (f (safes ai)) (knowledge ai).
Definition set_knowledge (f : list Sentence.t → list Sentence.t) (ai : t) : t :=
  mk (height ai) (width ai) (moves_made ai) (mines ai) (safes ai) (f (knowledge ai)).

(** [__init__] *)
Definition init (height width : Z) : t := mk height width ∅ ∅ ∅ [].

(** The loop [for sentence in self.knowledge: count += sentence.mark_mine(cell)]:
    every sentence is updated in place and the results are summed. *)
Fixpoint mark_mine_each (c : cell) (ks : list Sentence.t) (count : Z)
  : list Sentence.t * Z :=
  match ks with
  | [] => ([], count)
  | s :: ks' =>
      let '(s', r) := Sentence.mark_mine s c in
      let '(ks'', count') := mark_mine_each c ks' (count + r) in
      (s' :: ks'', count')
  end.

Fixpoint mark_safe_each (c : cell) (ks : list Sentence.t) (count : Z)
  : list Sentence.t * Z :=
  match ks with
  | [] => ([], count)
  | s :: ks' =>
      let '(s', r) := Sentence.mark_safe s c in
      let '(ks'', count') := mark_safe_each c ks' (count + r) in
      (s' :: ks'', count')
  end.

Definition mark_mine (ai : t) (c : cell) : t * Z :=
  let ai1 := set_mines (λ m, m ∪ {[c]}) ai in
  let '(ks, count) := mark_mine_each c (knowledge ai1) 0 in
  (set_knowledge (λ _, ks) ai1, count).

Definition mark_safe (ai : t) (c : cell) : t * Z :=
  let ai1 := set_safes (λ m, m ∪ {[c]}) ai in
  let '(ks, count) := mark_safe_each c (knowledge ai1) 0 in
  (set_knowledge (λ _, ks) ai1, count).

(** [counter += self.mark_safe(cell)] on the pair of the object state
    and the local variable [counter]. *)
Definition count_mark_safe (st : t * Z) (c : cell) : t * Z :=
  let '(ai', r) := mark_safe st.1 c in (ai', st.2 + r).

Definition count_mark_mine (st : t * Z) (c : cell) : t * Z :=
  let '(ai', r) := mark_mine st.1 c in (ai', st.2 + r).

(** [for cell in cs: counter += self.mark_safe(cell)] *)
Definition mark_safe_all (cs : list cell) (st : t * Z) : t * Z :=
  fold_left count_mark_safe cs st.

Definition mark_mine_all (cs : list cell) (st : t * Z) : t * Z :=
  fold_left count_mark_mine cs st.

Section WithOrder.
Context {order : SetOrder}.

(** The body of [for x in self.knowledge] in [update], at position
    [i] of the list.  [x] is the object stored at that position: the
    second inner loop reads it after the first one has reduced it. *)
Definition update_visit (st : t * Z) (i : nat) : t * Z :=
  match knowledge st.1 !! i with
  | None => st
  | Some x =>
      let st1 := mark_safe_all (iter (Sentence.known_safes x)) st in
      match knowledge st1.1 !! i with
      | None => st1
      | Some x' => mark_mine_all (iter (Sentence.known_mines x')) st1
      end
  end.

(** One iteration of [while counter] in [update]; returns the new
    state and the value of [counter] at the end of the iteration. *)
Definition update_pass (ai : t) : t * Z :=
  let st1 := fold_left update_visit (seq 0 (length (knowledge ai))) (ai, 0) in
  let st2 := mark_safe_all (iter (safes st1.1)) st1 in
  mark_mine_all (iter (mines st2.1)) st2.

(** [while counter: ...] with a bound on the number of iterations. *)
Fixpoint update_loop (fuel : nat) (ai : t) : option t :=
  match fuel with
  | O => None
  | S fuel' =>
      let '(ai', counter) := update_pass ai in
      if decide (counter = 0) then Some ai' else update_loop fuel' ai'
  end.

(** Total number of cell memberships over all sentences. *)
Definition memberships (ks : list Sentence.t) : nat :=
  sum_list (map (λ s, size (Sentence.cells s)) ks).

(** [update]: the loop is run with a bound that is shown below to be
    always sufficient. *)
Definition update (ai : t) : t :=
  default ai (update_loop (S (memberships (knowledge ai))) ai).

(** The body of the inner loop [for s2 in self.knowledge] of
    [inference]; [ks] is [self.knowledge], which the loops do not
    modify, and the accumulator is [(new_data, trash)]. *)
Definition inference_inner (ks : list Sentence.t) (s1 : Sentence.t)
    (acc : list Sentence.t * list Sentence.t) (s2 : Sentence.t)
  : list Sentence.t * list Sentence.t :=
  let '(new_data, trash) := acc in
  if decide (Sentence.cells s2 = ∅) then (new_data, trash ++ [s2])
  else if Sentence.neqb s1 s2 then
    if decide (Sentence.cells s2 ⊆ Sentence.cells s1) then
      let diff_cells := Sentence.cells s1 ∖ Sentence.cells s2 in
      let diff_count := Sentence.count s1 - Sentence.count s2 in
      let diff := Sentence.mk diff_cells diff_count in
      if negb (Sentence.inb diff ks) then (new_data ++ [diff], trash)
      else (new_data, trash)
    else (new_data, trash)
  else (new_data, trash).

(** The body of the outer loop [for s1 in self.knowledge]. *)
Definition inference_outer (ks : list Sentence.t)
    (acc : list Sentence.t * list Sentence.t) (s1 : Sentence.t)
  : list Sentence.t * list Sentence.t :=
  if decide (Sentence.cells s1 = ∅) then (acc.1, acc.2 ++ [s1])
  else fold_left (inference_inner ks s1) ks acc.

(** [inference] returns [new_data] and leaves the knowledge list
    without the sentences found in [trash]. *)
Definition inference (ai : t) : list Sentence.t * t :=
  let '(new_data, trash) :=
    fold_left (inference_outer (knowledge ai)) (knowledge ai) ([], []) in
  (new_data,
   set_knowledge (filter (λ x, Sentence.inb x trash = false)) ai).

(** The set [friends] built by the two loops of [add_knowledge]. *)
Definition friends (ai : t) (c : cell) : gset cell :=
  let '(x, y) := c in
  fold_left (λ acc i,
      fold_left (λ acc j,
          if decide ((i, j) ≠ (x, y)) then acc ∪ {[(i, j)]} else acc)
        (range (Z.max 0 (y - 1)) (Z.min (y + 2) (width ai))) acc)
    (range (Z.max 0 (x - 1)) (Z.min (x + 2) (height ai))) ∅.

(** The first four statements of [add_knowledge]: record the move,
    mark the cell safe, build [friends] and append the sentence. *)
Definition ingest (ai : t) (c : cell) (count : Z) : t :=
  let ai1 := set_moves_made (λ m, m ∪ {[c]}) ai in
  let ai2 := (mark_safe ai1 c).1 in
  set_knowledge (λ ks, ks ++ [Sentence.mk (friends ai2 c) count]) ai2.

(** [while new_data: ...], entered with the result of the first
    call of [inference]; [None] when the bound on the number of
    iterations is reached. *)
Fixpoint add_knowledge_loop (fuel : nat) (new_data : list Sentence.t)
    (ai : t) : option t :=
  match new_data with
  | [] => Some ai
  | _ :: _ =>
      match fuel with
      | O => None
      | S fuel' =>
          let ai1 := set_knowledge (λ ks, ks ++ new_data) ai in
          let ai2 := update ai1 in
          let '(new_data', ai3) := inference ai2 in
          add_knowledge_loop fuel' new_data' ai3
      end
  end.

Definition add_knowledge (fuel : nat) (ai : t) (c : cell) (count : Z)
  : option t :=
  let ai1 := update (ingest ai c count) in
  let '(new_data, ai2) := inference ai1 in
  add_knowledge_loop fuel new_data ai2.

(** [for x in self.safes: if x not in self.moves_made: return x] *)
Definition make_safe_move (ai : t) : option cell :=
  find (λ x, bool_decide (x ∉ moves_made ai)) (iter (safes ai)).

End WithOrder.

(** A loop whose body may [return]: the first result wins. *)
Fixpoint first_return {A B : Type} (body : A → option B) (l : list A)
  : option B :=
  match l with
  | [] => None
  | a :: l' =>
      match body a with
      | Some b => Some b
      | None => first_return body l'
      end
  end.

Definition make_random_move (ai : t) : option cell :=
  first_return (λ x,
      first_return (λ y,
          let temp := (x, y) in
          if decide ((temp ∉ mines ai) ∧ (temp ∉ moves_made ai))
          then Some temp else None)
        (range 0 (width ai)))
    (range 0 (height ai)).

End MinesweeperAI.

(** ** class Minesweeper *)
Module Minesweeper.

Record t := mk {
  height : Z;
  width : Z;
  mines : gset cell;
  board : list (list bool);
  mines_found : gset cell
}.

(** [self.board[i][j]] for indices that passed the bounds test of
    [nearby_mines]; on a board built by [__init__] (see [wf]) the
    position exists.  On a list that is too short Python raises
    [IndexError], which [board_at] does not tell apart from [False]:
    the theorems about [nearby_mines] assume [wf]. *)
Definition board_at (g : t) (i j : Z) : bool :=
  default false (row ← board g !! Z.to_nat i; row !! Z.to_nat j).

(** The positions of the board, row by row. *)
Definition grid (g : t) : list cell :=
  i ← range 0 (height g); j ← range 0 (width g); [(i, j)].

(** The positions of the board that hold [True]. *)
Definition board_mines (g : t) : gset cell :=
  list_to_set (filter (λ p : cell, board_at g p.1 p.2 = true) (grid g)).

(** What [__init__] establishes, whatever the random choices are:
    [height] rows of [width] entries, and [mines] holds exactly the
    positions set to [True]. *)
Definition wf (g : t) : Prop :=
  length (board g) = Z.to_nat (height g) ∧
  Forall (λ row, length row = Z.to_nat (width g)) (board g) ∧
  mines g = board_mines g.

#[global] Instance wf_dec (g : t) : Decision (wf g).
Proof. unfold wf. apply _. Defined.

Definition nearby_mines (g : t) (c : cell) : Z :=
  fold_left (λ count i,
      fold_left (λ count j,
          if decide ((i, j) = c) then count
          else if decide (0 ≤ i < height g ∧ 0 ≤ j < width g) then
            if board_at g i j then count + 1 else count
          else count)
        (range (c.2 - 1) (c.2 + 2)) count)
    (range (c.1 - 1) (c.1 + 2)) 0.

Definition won (g : t) : bool := bool_decide (mines_found g = mines g).

(** Python's [l[i]]: a negative index counts from the end of the list;
    [None] stands for [IndexError]. *)
Definition index {A : Type} (l : list A) (i : Z) : option A :=
  if decide (0 ≤ i) then l !! Z.to_nat i
  else if decide (- Z.of_nat (length l) ≤ i)
       then l !! Z.to_nat (Z.of_nat (length l) + i)
       else None.

Definition is_mine (g : t) (c : cell) : option bool :=
  let '(i, j) := c in
  row ← index (board g) i; index row j.

(** The field built by the first loops of [__init__]. *)
Definition empty_board (height width : Z) : list (list bool) :=
  map (λ _ : Z, map (λ _ : Z, false) (range 0 width)) (range 0 height).

(** [self.board[i][j] = True], for indices produced by [randrange]. *)
Definition set_true (board : list (list bool)) (i j : Z) : list (list bool) :=
  match board !! Z.to_nat i with
  | Some row => <[Z.to_nat i := <[Z.to_nat j := true]> row]> board
  | None => board
  end.

(** The loop [while len(self.mines) != mines] of [__init__].  The calls
    of [random.randrange] are answered by the list [draws], one pair
    [(i, j)] per iteration; [None] when the list is used up before the
    loop exits. *)
Fixpoint place (wanted : Z) (draws : list cell) (g : t) : option t :=
  if decide (Z.of_nat (size (mines g)) = wanted) then Some g
  else match draws with
       | [] => None
       | (i, j) :: draws' =>
           if board_at g i j then place wanted draws' g
           else place wanted draws'
                  (mk (height g) (width g) (mines g ∪ {[(i, j)]})
                      (set_true (board g) i j) (mines_found g))
       end.

(** [__init__] *)
Definition init (height width mines : Z) (draws : list cell) : option t :=
  place mines draws (mk height width ∅ (empty_board height width) ∅).

End Minesweeper.

(** * Specification vocabulary *)

(** The in-place effect of the two marking methods on one sentence. *)
Definition without_safe (c : cell) (s : Sentence.t) : Sentence.t :=
  (Sentence.mark_safe s c).1.

Definition without_mine (c : cell) (s : Sentence.t) : Sentence.t :=
  (Sentence.mark_mine s c).1.

(** Number of sentences of a list that contain a cell. *)
Definition hits (c : cell) (ks : list Sentence.t) : nat :=
  length (filter (λ s, c ∈ Sentence.cells s) ks).

(** A sentence is saturated when one of the two extraction rules
    applies to it. *)
Definition saturated (s : Sentence.t) : Prop :=
  Sentence.count s = 0 ∨ Z.of_nat (size (Sentence.cells s)) = Sentence.count s.

(** No sentence with cells left is saturated. *)
Definition settled (ai : MinesweeperAI.t) : Prop :=
  ∀ s, s ∈ MinesweeperAI.knowledge ai → saturated s → Sentence.cells s = ∅.

(** No sentence mentions a cell that is known to be safe or a mine. *)
Definition clean (ai : MinesweeperAI.t) : Prop :=
  ∀ s c, s ∈ MinesweeperAI.knowledge ai →
    c ∈ MinesweeperAI.safes ai ∪ MinesweeperAI.mines ai →
    c ∉ Sentence.cells s.

(** The sentence that subset-difference elimination derives from the
    ordered pair [(A, B)]. *)
Definition derived (A B : Sentence.t) : Sentence.t :=
  Sentence.mk (Sentence.cells A ∖ Sentence.cells B)
              (Sentence.count A - Sentence.count B).

(** The ordered pairs of a knowledge list that qualify for it. *)
Definition eligible (ks : list Sentence.t) (A B : Sentence.t) : Prop :=
  A ∈ ks ∧ B ∈ ks ∧ A ≠ B ∧
  Sentence.cells A ≠ ∅ ∧ Sentence.cells B ≠ ∅ ∧
  Sentence.cells B ⊆ Sentence.cells A.

(** What one iteration of the inner loop of [inference] adds to
    [new_data], written as a function of the pair. *)
Definition emit (ks : list Sentence.t) (A B : Sentence.t) : list Sentence.t :=
  if decide (Sentence.cells B ≠ ∅ ∧ A ≠ B ∧
             Sentence.cells B ⊆ Sentence.cells A ∧ derived A B ∉ ks)
  then [derived A B] else [].

(** The value of [new_data] after the loops over the knowledge list. *)
Definition emitted (ks : list Sentence.t) : list Sentence.t :=
  flat_map (λ A, if decide (Sentence.cells A = ∅) then []
                 else flat_map (emit ks A) ks) ks.

(** [ai] results from [ai0] by marking cells: the bookkeeping fields are
    kept, the two sets of known cells grow, and every sentence, position
    by position, only loses cells, all of which are now known. *)
Definition shrinks (ai0 ai : MinesweeperAI.t) : Prop :=
  MinesweeperAI.height ai = MinesweeperAI.height ai0 ∧
  MinesweeperAI.width ai = MinesweeperAI.width ai0 ∧
  MinesweeperAI.moves_made ai = MinesweeperAI.moves_made ai0 ∧
  MinesweeperAI.safes ai0 ⊆ MinesweeperAI.safes ai ∧
  MinesweeperAI.mines ai0 ⊆ MinesweeperAI.mines ai ∧
  Forall2 (λ s0 s,
      Sentence.cells s ⊆ Sentence.cells s0 ∧
      Sentence.cells s0 ∖ Sentence.cells s
        ⊆ MinesweeperAI.safes ai ∪ MinesweeperAI.mines ai)
    (MinesweeperAI.knowledge ai0) (MinesweeperAI.knowledge ai).

(** [p] is a neighbour of [c] on a board of [h] rows and [w] columns:
    inside the board, at most one row and one column away, and different
    from [c]. *)
Definition neighbour (h w : Z) (c p : cell) : Prop :=
  0 ≤ p.1 < h ∧ 0 ≤ p.2 < w ∧
  c.1 - 1 ≤ p.1 ≤ c.1 + 1 ∧ c.2 - 1 ≤ p.2 ≤ c.2 + 1 ∧ p ≠ c.

(** A sentence agrees with a set [M] of mines when its count is the
    number of its cells that are in [M]. *)
Definition sound (M : gset cell) (s : Sentence.t) : Prop :=
  Sentence.count s = Z.of_nat (size (Sentence.cells s ∩ M)).

(** The knowledge base agrees with [M]: every sentence does, no cell
    known to be safe is in [M], and every cell known to be a mine is. *)
Definition consistent (M : gset cell) (ai : MinesweeperAI.t) : Prop :=
  (∀ s, s ∈ MinesweeperAI.knowledge ai → sound M s) ∧
  MinesweeperAI.safes ai ## M ∧
  MinesweeperAI.mines ai ⊆ M.

(** The three-by-three window that [nearby_mines] scans around a cell,
    in scanning order. *)
Definition window (c : cell) : list cell :=
  i ← range (c.1 - 1) (c.1 + 2); j ← range (c.2 - 1) (c.2 + 2); [(i, j)].

(** [b] keeps the bookkeeping of [a] and knows at least as much. *)
Definition extends (a b : MinesweeperAI.t) : Prop :=
  MinesweeperAI.height b = MinesweeperAI.height a ∧
  MinesweeperAI.width b = MinesweeperAI.width a ∧
  MinesweeperAI.moves_made b = MinesweeperAI.moves_made a ∧
  MinesweeperAI.safes a ⊆ MinesweeperAI.safes b ∧
  MinesweeperAI.mines a ⊆ MinesweeperAI.mines b.

(** The states that a caller can observe: a fresh object, and the state
    left by a call of [add_knowledge], [mark_safe] or [mark_mine] that
    has returned, with arbitrary arguments.  ([make_safe_move] and
    [make_random_move] assign nothing.) *)
Inductive observable {order : SetOrder} : MinesweeperAI.t → Prop :=
| observable_init h w : observable (MinesweeperAI.init h w)
| observable_add_knowledge ai fuel c n ai' :
    observable ai →
    MinesweeperAI.add_knowledge fuel ai c n = Some ai' →
    observable ai'
| observable_mark_safe ai c :
    observable ai → observable (MinesweeperAI.mark_safe ai c).1
| observable_mark_mine ai c :
    observable ai → observable (MinesweeperAI.mark_mine ai c).1.

(** The states reached when the caller is truthful about the board [g]:
    [add_knowledge] is given a cell not yet played that holds no mine,
    with the count that the board reports for it; [mark_safe] is given
    cells without a mine and [mark_mine] cells with one. *)
Inductive truthful {order : SetOrder} (g : Minesweeper.t)
  : MinesweeperAI.t → Prop :=
| truthful_init :
    truthful g (MinesweeperAI.init (Minesweeper.height g) (Minesweeper.width g))
| truthful_add_knowledge ai fuel c ai' :
    truthful g ai →
    c ∉ Minesweeper.mines g →
    c ∉ MinesweeperAI.moves_made ai →
    MinesweeperAI.add_knowledge fuel ai c (Minesweeper.nearby_mines g c)
      = Some ai' →
    truthful g ai'
| truthful_mark_safe ai c :
    truthful g ai → c ∉ Minesweeper.mines g →
    truthful g (MinesweeperAI.mark_safe ai c).1
| truthful_mark_mine ai c :
    truthful g ai → c ∈ Minesweeper.mines g →
    truthful g (MinesweeperAI.mark_mine ai c).1.

(** The cells mentioned by the sentences of a list. *)
Definition cover (ks : list Sentence.t) : gset cell :=
  ⋃ (Sentence.cells <$> ks).

(** The distinct cell sets of the sentences of a list. *)
Definition shapes (ks : list Sentence.t) : gset (gset cell) :=
  list_to_set (Sentence.cells <$> ks).

(** All the sets that can be formed with the cells of a list. *)
Fixpoint subsets (l : list cell) : gset (gset cell) :=
  match l with
  | [] => {[ ∅ ]}
  | c :: l' => subsets l' ∪ set_map (λ X : gset cell, {[c]} ∪ X) (subsets l')
  end.

(** The situation at the head of the loop of [add_knowledge] when the
    knowledge agrees with the set [M] of mines: the state is clean and
    settled, holds no sentence without cells, and every sentence waiting
    in [new_data] agrees with [M], has cells, all of them mentioned in
    the knowledge list, and is not in that list. *)
Definition pending (M : gset cell) (nd : list Sentence.t)
    (a : MinesweeperAI.t) : Prop :=
  consistent M a ∧ clean a ∧ settled a ∧
  (∀ s, s ∈ MinesweeperAI.knowledge a → Sentence.cells s ≠ ∅) ∧
  ∀ D, D ∈ nd →
    sound M D ∧ Sentence.cells D ≠ ∅ ∧ (D ∉ MinesweeperAI.knowledge a) ∧
    Sentence.cells D ⊆ cover (MinesweeperAI.knowledge a).

(** ** A small game used to evaluate the model

    Two rows of three cells with a single mine at [(0, 1)]; the player
    reveals [(0, 0)] and then [(1, 0)], and the board reports one
    neighbouring mine each time. *)
Definition example_game : Minesweeper.t :=
  Minesweeper.mk 2 3 {[ (0, 1) ]}
    [[false; true; false]; [false; false; false]] ∅.

Definition example_state1 : MinesweeperAI.t :=
  MinesweeperAI.mk 2 3 {[ (0, 0) ]} ∅ {[ (0, 0) ]}
    [Sentence.mk {[ (0, 1); (1, 0); (1, 1) ]} 1].

Definition example_state2 : MinesweeperAI.t :=
  MinesweeperAI.mk 2 3 {[ (0, 0); (1, 0) ]} ∅ {[ (0, 0); (1, 0) ]}
    [Sentence.mk {[ (0, 1); (1, 1) ]} 1; Sentence.mk {[ (0, 1); (1, 1) ]} 1].

(** A position of a board of [h] rows and [w] columns. *)
Definition in_grid (h w : Z) (c : cell) : Prop :=
  0 ≤ c.1 < h ∧ 0 ≤ c.2 < w.

(** [p] comes before [c] in the row-by-row scan of the board. *)
Definition scanned_before (p c : cell) : Prop :=
  p.1 < c.1 ∨ (p.1 = c.1 ∧ p.2 < c.2).

(** A second small game: one row of three cells with a mine at
    [(0, 2)]; the player reveals [(0, 0)] and the board reports no
    neighbouring mine. *)
Definition example_row_game : Minesweeper.t :=
  Minesweeper.mk 1 3 {[ (0, 2) ]} [[false; false; true]] ∅.

Definition example_row_state : MinesweeperAI.t :=
  MinesweeperAI.mk 1 3 {[ (0, 0) ]} ∅ {[ (0, 0); (0, 1) ]} [].

(** ** A run with contradictory counts

    One row of four cells.  The caller reports 5 mines around [(0, 3)],
    then 1 mine around [(0, 1)], then 4 mines around [(0, 1)] again. *)
Definition contradicted_state1 : MinesweeperAI.t :=
  MinesweeperAI.mk 1 4 {[ (0, 3) ]} ∅ {[ (0, 3) ]}
    [Sentence.mk {[ (0, 2) ]} 5].

Definition contradicted_state2 : MinesweeperAI.t :=
  MinesweeperAI.mk 1 4 {[ (0, 3); (0, 1) ]} ∅ {[ (0, 3); (0, 1) ]}
    [Sentence.mk {[ (0, 2) ]} 5; Sentence.mk {[ (0, 0); (0, 2) ]} 1;
     Sentence.mk {[ (0, 0) ]} (-4)].

(** The sentences that occur in the third call: the two contradictory
    observations about [(0, 1)], sentences about one of its neighbours
    whose count is 2 modulo 3, and sentences without cells. *)
Definition restless_shape (s : Sentence.t) : Prop :=
  s = Sentence.mk {[ (0, 0); (0, 2) ]} 1 ∨
  s = Sentence.mk {[ (0, 0); (0, 2) ]} 4 ∨
  ((Sentence.cells s = {[ (0, 0) ]} ∨ Sentence.cells s = {[ (0, 2) ]}) ∧
   ∃ k, Sentence.count s = 3 * k + 2) ∨
  Sentence.cells s = ∅.

(** The states of the third call. *)
Definition restless (a : MinesweeperAI.t) : Prop :=
  MinesweeperAI.safes a = {[ (0, 3); (0, 1) ]} ∧
  MinesweeperAI.mines a = ∅ ∧
  Sentence.mk {[ (0, 0); (0, 2) ]} 1 ∈ MinesweeperAI.knowledge a ∧
  Sentence.mk {[ (0, 0); (0, 2) ]} 4 ∈ MinesweeperAI.knowledge a ∧
  (∃ b, Sentence.mk {[ (0, 2) ]} b ∈ MinesweeperAI.knowledge a) ∧
  ∀ s, s ∈ MinesweeperAI.knowledge a → restless_shape s.

(** ** A wider game

    Two rows of four cells with mines at [(0, 1)] and [(1, 3)]; the
    player reveals [(0, 0)], [(1, 0)] and then [(0, 2)], and the board
    reports 1, 1 and 2 neighbouring mines. *)
Definition example_wide_game : Minesweeper.t :=
  Minesweeper.mk 2 4 {[ (0, 1); (1, 3) ]}
    [[false; true; false; false]; [false; false; false; true]] ∅.

Definition example_wide_state1 : MinesweeperAI.t :=
  MinesweeperAI.mk 2 4 {[ (0, 0) ]} ∅ {[ (0, 0) ]}
    [Sentence.mk {[ (0, 1); (1, 0); (1, 1) ]} 1].

Definition example_wide_state2 : MinesweeperAI.t :=
  MinesweeperAI.mk 2 4 {[ (0, 0); (1, 0) ]} ∅ {[ (0, 0); (1, 0) ]}
    [Sentence.mk {[ (0, 1); (1, 1) ]} 1; Sentence.mk {[ (0, 1); (1, 1) ]} 1].

(** The state on which the third call of [add_knowledge] calls
    [inference] for the first time. *)
Definition example_wide_state3 : MinesweeperAI.t :=
  MinesweeperAI.mk 2 4 {[ (0, 0); (1, 0); (0, 2) ]} ∅
    {[ (0, 0); (1, 0); (0, 2) ]}
    [Sentence.mk {[ (0, 1); (1, 1) ]} 1; Sentence.mk {[ (0, 1); (1, 1) ]} 1;
     Sentence.mk {[ (0, 1); (0, 3); (1, 1); (1, 2); (1, 3) ]} 2].

(** The state in which the third call returns. *)
Definition example_wide_state4 : MinesweeperAI.t :=
  MinesweeperAI.mk 2 4 {[ (0, 0); (1, 0); (0, 2) ]} ∅
    {[ (0, 0); (1, 0); (0, 2) ]}
    [Sentence.mk {[ (0, 1); (1, 1) ]} 1; Sentence.mk {[ (0, 1); (1, 1) ]} 1;
     Sentence.mk {[ (0, 1); (0, 3); (1, 1); (1, 2); (1, 3) ]} 2;
     Sentence.mk {[ (0, 3); (1, 2); (1, 3) ]} 1;
     Sentence.mk {[ (0, 3); (1, 2); (1, 3) ]} 1].

(** ** The loop of [add_knowledge] as an iteration *)

(** The value of [new_data] and the state with which [add_knowledge]
    reaches its loop: the observation has been ingested, [update] and
    [inference] have run once. *)
Definition loop_entry {order : SetOrder} (ai : MinesweeperAI.t) (c : cell)
    (count : Z) : list Sentence.t * MinesweeperAI.t :=
  MinesweeperAI.inference
    (MinesweeperAI.update (MinesweeperAI.ingest ai c count)).

(** One iteration of the loop on the pair of [new_data] and the state:
    the sentences of [new_data] are appended, then [update] and
    [inference] run. *)
Definition loop_round {order : SetOrder}
    (p : list Sentence.t * MinesweeperAI.t)
  : list Sentence.t * MinesweeperAI.t :=
  MinesweeperAI.inference
    (MinesweeperAI.update
       (MinesweeperAI.set_knowledge (λ ks, ks ++ p.1) p.2)).

(** [k] iterations. *)
Fixpoint loop_rounds {order : SetOrder} (k : nat)
    (p : list Sentence.t * MinesweeperAI.t)
  : list Sentence.t * MinesweeperAI.t :=
  match k with
  | O => p
  | S k' => loop_rounds k' (loop_round p)
  end.

(** What marking can make of the sentence [s0] when [Sf] holds the cells
    marked safe and [Mn] the cells marked as mines: [s] has lost cells of
    [Sf ∪ Mn] only, and its count has dropped by one for each cell that
    [mark_mine] removed, that is by at most the number of removed cells
    that are in [Mn] and by at least the number of those that are not in
    [Sf] as well. *)
Definition lowered (Sf Mn : gset cell) (s0 s : Sentence.t) : Prop :=
  Sentence.cells s ⊆ Sentence.cells s0 ∧
  Sentence.cells s0 ∖ Sentence.cells s ⊆ Sf ∪ Mn ∧
  Z.of_nat (size ((Sentence.cells s0 ∖ Sentence.cells s) ∩ (Mn ∖ Sf)))
    ≤ Sentence.count s0 - Sentence.count s ∧
  Sentence.count s0 - Sentence.count s
    ≤ Z.of_nat (size ((Sentence.cells s0 ∖ Sentence.cells s) ∩ Mn)).

(** [s] is what is left of [s0] in the state [ai]: its cells are exactly
    the cells of [s0] that are neither known safe nor known mines, and
    its count is the count of [s0] lowered as above. *)
Definition residue (ai : MinesweeperAI.t) (s0 s : Sentence.t) : Prop :=
  Sentence.cells s
  = Sentence.cells s0 ∖ (MinesweeperAI.safes ai ∪ MinesweeperAI.mines ai) ∧
  lowered (MinesweeperAI.safes ai) (MinesweeperAI.mines ai) s0 s.

(** No sentence of [ks0] has been lost: each one is resolved (all its
    cells are known) or its residue is in the knowledge list. *)
Definition retains (ks0 : list Sentence.t) (ai : MinesweeperAI.t) : Prop :=
  ∀ s0, s0 ∈ ks0 →
    Sentence.cells s0 ⊆ MinesweeperAI.safes ai ∪ MinesweeperAI.mines ai ∨
    ∃ s, s ∈ MinesweeperAI.knowledge ai ∧ residue ai s0 s.

(** * Properties *)

Import MinesweeperAI.

(** ** Sentences *)

Lemma Sentence_eqb_eq (a b : Sentence.t) : Sentence.eqb a b = true ↔ a = b.
Proof.
  unfold Sentence.eqb. rewrite andb_true_iff, !bool_decide_eq_true.
  destruct a, b; simpl. split; [intros [-> ->]; done | intros [= -> ->]; done].
Qed.

Lemma Sentence_neqb_true (a b : Sentence.t) : Sentence.neqb a b = true ↔ a ≠ b.
Proof.
  unfold Sentence.neqb. rewrite negb_true_iff, <- not_true_iff_false.
  by rewrite Sentence_eqb_eq.
Qed.

Lemma Sentence_inb_true (s : Sentence.t) (l : list Sentence.t) :
  Sentence.inb s l = true ↔ s ∈ l.
Proof.
  unfold Sentence.inb. rewrite existsb_exists. split.
  - intros (x & Hx & Heq). apply Sentence_eqb_eq in Heq as ->.
    by apply list_elem_of_In.
  - intros Hin. exists s. split; [by apply list_elem_of_In|].
    by apply Sentence_eqb_eq.
Qed.

Lemma Sentence_inb_false (s : Sentence.t) (l : list Sentence.t) :
  Sentence.inb s l = false ↔ s ∉ l.
Proof. by rewrite <- not_true_iff_false, Sentence_inb_true. Qed.

(** ** Fact marking *)

Lemma mark_safe_each_spec c ks n :
  mark_safe_each c ks n =
    (map (without_safe c) ks, n + Z.of_nat (hits c ks)).
Proof.
  revert n. induction ks as [|s ks IH]; intros n; simpl.
  - f_equal. unfold hits. simpl. lia.
  - unfold without_safe at 1, hits, Sentence.mark_safe.
    rewrite filter_cons.
    destruct (decide (c ∈ Sentence.cells s)); simpl; rewrite IH;
      unfold hits; f_equal; lia.
Qed.

Lemma mark_mine_each_spec c ks n :
  mark_mine_each c ks n =
    (map (without_mine c) ks, n + Z.of_nat (hits c ks)).
Proof.
  revert n. induction ks as [|s ks IH]; intros n; simpl.
  - f_equal. unfold hits. simpl. lia.
  - unfold without_mine at 1, hits, Sentence.mark_mine.
    rewrite filter_cons.
    destruct (decide (c ∈ Sentence.cells s)); simpl; rewrite IH;
      unfold hits; f_equal; lia.
Qed.

Lemma mark_safe_spec ai c :
  mark_safe ai c =
    (mk (height ai) (width ai) (moves_made ai) (mines ai) (safes ai ∪ {[c]})
        (map (without_safe c) (knowledge ai)),
     Z.of_nat (hits c (knowledge ai))).
Proof. unfold mark_safe. simpl. by rewrite mark_safe_each_spec. Qed.

Lemma mark_mine_spec ai c :
  mark_mine ai c =
    (mk (height ai) (width ai) (moves_made ai) (mines ai ∪ {[c]}) (safes ai)
        (map (without_mine c) (knowledge ai)),
     Z.of_nat (hits c (knowledge ai))).
Proof. unfold mark_mine. simpl. by rewrite mark_mine_each_spec. Qed.

Lemma memberships_without_safe c ks :
  (memberships (map (without_safe c) ks) + hits c ks = memberships ks)%nat.
Proof.
  unfold memberships, hits. induction ks as [|s ks IH]; simpl; [done|].
  rewrite filter_cons. unfold without_safe at 1, Sentence.mark_safe.
  destruct (decide (c ∈ Sentence.cells s)) as [Hin|Hin]; simpl; [|lia].
  assert (size (Sentence.cells s) =
          S (size (Sentence.cells s ∖ {[c]}))) as ->; [|lia].
  rewrite (union_difference_L {[c]} (Sentence.cells s)) at 1 by set_solver.
  rewrite size_union by set_solver. by rewrite size_singleton.
Qed.

Lemma memberships_without_mine c ks :
  (memberships (map (without_mine c) ks) + hits c ks = memberships ks)%nat.
Proof.
  unfold memberships, hits. induction ks as [|s ks IH]; simpl; [done|].
  rewrite filter_cons. unfold without_mine at 1, Sentence.mark_mine.
  destruct (decide (c ∈ Sentence.cells s)) as [Hin|Hin]; simpl; [|lia].
  assert (size (Sentence.cells s) =
          S (size (Sentence.cells s ∖ {[c]}))) as ->; [|lia].
  rewrite (union_difference_L {[c]} (Sentence.cells s)) at 1 by set_solver.
  rewrite size_union by set_solver. by rewrite size_singleton.
Qed.

Lemma count_mark_safe_spec st c :
  count_mark_safe st c =
    (mk (height st.1) (width st.1) (moves_made st.1) (mines st.1)
        (safes st.1 ∪ {[c]}) (map (without_safe c) (knowledge st.1)),
     st.2 + Z.of_nat (hits c (knowledge st.1))).
Proof. unfold count_mark_safe. by rewrite mark_safe_spec. Qed.

Lemma count_mark_mine_spec st c :
  count_mark_mine st c =
    (mk (height st.1) (width st.1) (moves_made st.1) (mines st.1 ∪ {[c]})
        (safes st.1) (map (without_mine c) (knowledge st.1)),
     st.2 + Z.of_nat (hits c (knowledge st.1))).
Proof. unfold count_mark_mine. by rewrite mark_mine_spec. Qed.

(** ** An induction principle for one pass of [update]

    [P] is a property of the pair (state, counter); [Qs] and [Qm]
    describe the cells that the pass may mark safe and mark as mines. *)
Section PassInduction.
Context {order : SetOrder}.
Variable P : t * Z → Prop.
Variables Qs Qm : cell → Prop.
Hypothesis safe_step : ∀ st c, P st → Qs c → P (count_mark_safe st c).
Hypothesis mine_step : ∀ st c, P st → Qm c → P (count_mark_mine st c).
Hypothesis known_safes_ok : ∀ st x c,
    P st → x ∈ knowledge st.1 → c ∈ Sentence.known_safes x → Qs c.
Hypothesis known_mines_ok : ∀ st x c,
    P st → x ∈ knowledge st.1 → c ∈ Sentence.known_mines x → Qm c.
Hypothesis safes_ok : ∀ st c, P st → c ∈ safes st.1 → Qs c.
Hypothesis mines_ok : ∀ st c, P st → c ∈ mines st.1 → Qm c.

Lemma mark_safe_all_ind cs st :
  (∀ c, c ∈ cs → Qs c) → P st → P (mark_safe_all cs st).
Proof.
  unfold mark_safe_all. revert st.
  induction cs as [|c cs IH]; intros st Hcs Hst; simpl; [done|].
  apply IH; [intros; apply Hcs; set_solver|].
  apply safe_step; [done|]. apply Hcs. set_solver.
Qed.

Lemma mark_mine_all_ind cs st :
  (∀ c, c ∈ cs → Qm c) → P st → P (mark_mine_all cs st).
Proof.
  unfold mark_mine_all. revert st.
  induction cs as [|c cs IH]; intros st Hcs Hst; simpl; [done|].
  apply IH; [intros; apply Hcs; set_solver|].
  apply mine_step; [done|]. apply Hcs. set_solver.
Qed.

Lemma elem_of_iter (s : gset cell) c : c ∈ iter s ↔ c ∈ s.
Proof. by rewrite (iter_perm s), elem_of_elements. Qed.

Lemma update_visit_ind st i : P st → P (update_visit st i).
Proof.
  intros Hst. unfold update_visit.
  destruct (knowledge st.1 !! i) as [x|] eqn:Hx; [|done].
  assert (P (mark_safe_all (iter (Sentence.known_safes x)) st)) as Hst1.
  { apply mark_safe_all_ind; [|done]. intros c Hc%elem_of_iter.
    eapply known_safes_ok; [done| |done]. by eapply list_elem_of_lookup_2. }
  set (st1 := mark_safe_all _ st) in *.
  destruct (knowledge st1.1 !! i) as [x'|] eqn:Hx'; [|done].
  apply mark_mine_all_ind; [|done]. intros c Hc%elem_of_iter.
  eapply known_mines_ok; [done| |done]. by eapply list_elem_of_lookup_2.
Qed.

Lemma update_pass_ind ai : P (ai, 0) → P (update_pass ai).
Proof.
  intros Hai. unfold update_pass.
  assert (∀ l st, P st → P (fold_left update_visit l st)) as Hfold.
  { induction l as [|i l IH]; intros st Hst; simpl; [done|].
    apply IH. by apply update_visit_ind. }
  specialize (Hfold (seq 0 (length (knowledge ai))) _ Hai).
  set (st1 := fold_left _ _ _) in *.
  assert (P (mark_safe_all (iter (safes st1.1)) st1)) as Hst2.
  { apply mark_safe_all_ind; [|done]. intros c Hc%elem_of_iter.
    by eapply safes_ok. }
  apply mark_mine_all_ind; [|done]. intros c Hc%elem_of_iter.
  by eapply mines_ok.
Qed.
End PassInduction.

(** ** The counter of a pass and the number of memberships *)

Section Counting.
Context {order : SetOrder}.

Lemma update_pass_count ai :
  0 ≤ (update_pass ai).2 ∧
  Z.of_nat (memberships (knowledge (update_pass ai).1)) + (update_pass ai).2
    = Z.of_nat (memberships (knowledge ai)).
Proof.
  apply (update_pass_ind
           (λ st, 0 ≤ st.2 ∧
                  Z.of_nat (memberships (knowledge st.1)) + st.2
                  = Z.of_nat (memberships (knowledge ai)))
           (λ _, True) (λ _, True)); try done.
  - intros st c [Hpos Heq] _. rewrite count_mark_safe_spec. simpl.
    pose proof (memberships_without_safe c (knowledge st.1)). lia.
  - intros st c [Hpos Heq] _. rewrite count_mark_mine_spec. simpl.
    pose proof (memberships_without_mine c (knowledge st.1)). lia.
  - simpl. lia.
Qed.

Lemma update_loop_total fuel ai :
  (memberships (knowledge ai) < fuel)%nat → is_Some (update_loop fuel ai).
Proof.
  revert ai. induction fuel as [|fuel IH]; intros ai Hlt; [lia|].
  simpl. pose proof (update_pass_count ai) as [Hpos Heq].
  destruct (update_pass ai) as [ai' counter]; simpl in *.
  destruct (decide (counter = 0)); [by eexists|].
  apply IH. lia.
Qed.

Lemma update_loop_agree n m ai a b :
  update_loop n ai = Some a → update_loop m ai = Some b → a = b.
Proof.
  revert m ai. induction n as [|n IH]; intros [|m] ai; simpl; try done.
  destruct (update_pass ai) as [ai' counter].
  destruct (decide (counter = 0)); [congruence|]. apply IH.
Qed.

Lemma update_loop_update fuel ai ai' :
  update_loop fuel ai = Some ai' → update ai = ai'.
Proof.
  intros Hloop. unfold update.
  destruct (update_loop_total (S (memberships (knowledge ai))) ai) as [r Hr];
    [lia|].
  rewrite Hr. simpl. eapply update_loop_agree; done.
Qed.

Lemma update_returns ai :
  update_loop (S (memberships (knowledge ai))) ai = Some (update ai).
Proof.
  destruct (update_loop_total (S (memberships (knowledge ai))) ai) as [r Hr];
    [lia|].
  rewrite Hr. f_equal. symmetry. by eapply update_loop_update.
Qed.

Lemma update_unfold ai :
  update ai =
    if decide ((update_pass ai).2 = 0) then (update_pass ai).1
    else update (update_pass ai).1.
Proof.
  pose proof (update_pass_count ai) as [Hpos Heq].
  destruct (update_pass ai) as [ai' counter] eqn:Hpass; simpl in *.
  destruct (decide (counter = 0)) as [Hz|Hnz].
  - apply (update_loop_update 1). simpl. rewrite Hpass.
    by rewrite decide_True.
  - apply (update_loop_update (S (S (memberships (knowledge ai'))))).
    cbn [update_loop]. rewrite Hpass. rewrite decide_False by done.
    apply update_returns.
Qed.

(** Induction over the passes that [update] performs. *)
Lemma update_ind (I : t → Prop) :
  (∀ ai, I ai → I (update_pass ai).1) → ∀ ai, I ai → I (update ai).
Proof.
  intros Hpass ai Hai.
  assert (∀ fuel a r, I a → update_loop fuel a = Some r → I r) as Hloop.
  { induction fuel as [|fuel IH]; intros a r Ha; simpl; [done|].
    specialize (Hpass a Ha). destruct (update_pass a) as [a' counter].
    destruct (decide (counter = 0)); [by intros [= <-]|]. by apply IH. }
  eapply Hloop; [done|]. apply update_returns.
Qed.

End Counting.

(** ** A pass that counts no mutation changes nothing *)

Lemma hits_zero c ks :
  hits c ks = 0%nat ↔ ∀ s, s ∈ ks → c ∉ Sentence.cells s.
Proof.
  unfold hits. rewrite length_zero_iff_nil. split.
  - intros Hnil s Hs Hc.
    assert (s ∈ filter (λ s, c ∈ Sentence.cells s) ks) as Hin
      by (by apply list_elem_of_filter).
    rewrite Hnil in Hin. by apply not_elem_of_nil in Hin.
  - intros Hall. induction ks as [|s ks IH]; [done|].
    rewrite filter_cons, decide_False by (apply Hall; left).
    apply IH. intros s' Hs'. apply Hall. by right.
Qed.

Lemma without_safe_absent c ks :
  (∀ s, s ∈ ks → c ∉ Sentence.cells s) → map (without_safe c) ks = ks.
Proof.
  intros Hall. induction ks as [|s ks IH]; simpl; [done|].
  rewrite IH by (intros s' Hs'; apply Hall; by right).
  unfold without_safe, Sentence.mark_safe.
  by rewrite decide_False by (apply Hall; left).
Qed.

Lemma without_mine_absent c ks :
  (∀ s, s ∈ ks → c ∉ Sentence.cells s) → map (without_mine c) ks = ks.
Proof.
  intros Hall. induction ks as [|s ks IH]; simpl; [done|].
  rewrite IH by (intros s' Hs'; apply Hall; by right).
  unfold without_mine, Sentence.mark_mine.
  by rewrite decide_False by (apply Hall; left).
Qed.

Lemma mark_safe_all_mono cs st : st.2 ≤ (mark_safe_all cs st).2.
Proof.
  unfold mark_safe_all. revert st. induction cs as [|c cs IH]; intros st;
    simpl; [done|].
  etrans; [|apply IH]. rewrite count_mark_safe_spec. simpl. lia.
Qed.

Lemma mark_mine_all_mono cs st : st.2 ≤ (mark_mine_all cs st).2.
Proof.
  unfold mark_mine_all. revert st. induction cs as [|c cs IH]; intros st;
    simpl; [done|].
  etrans; [|apply IH]. rewrite count_mark_mine_spec. simpl. lia.
Qed.

Lemma mark_safe_all_zero cs st :
  (mark_safe_all cs st).2 ≤ st.2 →
  (∀ c s, c ∈ cs → s ∈ knowledge st.1 → c ∉ Sentence.cells s) ∧
  mark_safe_all cs st = (set_safes (λ m, m ∪ list_to_set cs) st.1, st.2).
Proof.
  revert st. induction cs as [|c cs IH]; intros st Hle.
  - split; [intros c s Hc; by apply not_elem_of_nil in Hc|].
    destruct st as [[] n]; unfold set_safes; simpl. do 2 f_equal. set_solver.
  - unfold mark_safe_all in *. simpl in *.
    pose proof (mark_safe_all_mono cs (count_mark_safe st c)) as Hmono.
    unfold mark_safe_all in Hmono.
    rewrite count_mark_safe_spec in *. simpl in *.
    assert (hits c (knowledge st.1) = 0%nat) as Hz by lia.
    rewrite Hz in *. rewrite hits_zero in Hz.
    rewrite without_safe_absent in * by done.
    match goal with
    | |- context [fold_left count_mark_safe cs ?x] =>
        destruct (IH x) as [Habs Heq]; [simpl in *; lia|]
    end. simpl in *.
    split.
    + intros c' s [->|Hc']%elem_of_cons Hs; [by apply Hz|by eapply Habs].
    + unfold mark_safe_all in Heq. rewrite Heq. unfold set_safes. simpl.
      f_equal; [f_equal; set_solver|lia].
Qed.

Lemma mark_mine_all_zero cs st :
  (mark_mine_all cs st).2 ≤ st.2 →
  (∀ c s, c ∈ cs → s ∈ knowledge st.1 → c ∉ Sentence.cells s) ∧
  mark_mine_all cs st = (set_mines (λ m, m ∪ list_to_set cs) st.1, st.2).
Proof.
  revert st. induction cs as [|c cs IH]; intros st Hle.
  - split; [intros c s Hc; by apply not_elem_of_nil in Hc|].
    destruct st as [[] n]; unfold set_mines; simpl. do 2 f_equal. set_solver.
  - unfold mark_mine_all in *. simpl in *.
    pose proof (mark_mine_all_mono cs (count_mark_mine st c)) as Hmono.
    unfold mark_mine_all in Hmono.
    rewrite count_mark_mine_spec in *. simpl in *.
    assert (hits c (knowledge st.1) = 0%nat) as Hz by lia.
    rewrite Hz in *. rewrite hits_zero in Hz.
    rewrite without_mine_absent in * by done.
    match goal with
    | |- context [fold_left count_mark_mine cs ?x] =>
        destruct (IH x) as [Habs Heq]; [simpl in *; lia|]
    end. simpl in *.
    split.
    + intros c' s [->|Hc']%elem_of_cons Hs; [by apply Hz|by eapply Habs].
    + unfold mark_mine_all in Heq. rewrite Heq. unfold set_mines. simpl.
      f_equal; [f_equal; set_solver|lia].
Qed.

Section Quiescence.
Context {order : SetOrder}.

Lemma iter_empty : iter ∅ = [].
Proof.
  apply Permutation_nil_r. rewrite (iter_perm ∅). by rewrite elements_empty.
Qed.

Lemma iter_nil_inv (s : gset cell) : iter s = [] → s = ∅.
Proof.
  intros Hnil. apply set_eq. intros c.
  rewrite <- elem_of_iter, Hnil. set_solver.
Qed.

Lemma update_visit_mono st i : st.2 ≤ (update_visit st i).2.
Proof.
  apply (update_visit_ind (λ st', st.2 ≤ st'.2) (λ _, True) (λ _, True));
    try done.
  - intros st' c Hle _. rewrite count_mark_safe_spec. simpl. lia.
  - intros st' c Hle _. rewrite count_mark_mine_spec. simpl. lia.
Qed.

Lemma update_visits_mono l st : st.2 ≤ (fold_left update_visit l st).2.
Proof.
  revert st. induction l as [|i l IH]; intros st; simpl; [done|].
  etrans; [apply (update_visit_mono st i)|apply IH].
Qed.

(** A visit that leaves the counter alone found nothing to extract. *)
Lemma update_visit_zero st i :
  (update_visit st i).2 ≤ st.2 →
  update_visit st i = st ∧
  ∀ x, knowledge st.1 !! i = Some x → saturated x → Sentence.cells x = ∅.
Proof.
  unfold update_visit. destruct (knowledge st.1 !! i) as [x|] eqn:Hx;
    [|done].
  set (st1 := mark_safe_all (iter (Sentence.known_safes x)) st).
  intros Hle.
  assert (x ∈ knowledge st.1) as Hin by (by eapply list_elem_of_lookup_2).
  assert (st1.2 ≤ st.2) as Hle1.
  { destruct (knowledge st1.1 !! i); [|done].
    etrans; [apply mark_mine_all_mono|done]. }
  destruct (mark_safe_all_zero _ _ Hle1) as [Habs1 _].
  assert (Sentence.known_safes x = ∅) as Hsafes.
  { apply set_eq. intros c. split; [|set_solver]. intros Hc. exfalso.
    apply (Habs1 c x); [by apply elem_of_iter|done|].
    unfold Sentence.known_safes in Hc. case_decide; set_solver. }
  assert (st1 = st) as Hst1.
  { unfold st1. by rewrite Hsafes, iter_empty. }
  rewrite Hst1 in *. rewrite Hx in *.
  destruct (mark_mine_all_zero _ _ Hle) as [Habs2 _].
  assert (Sentence.known_mines x = ∅) as Hmines.
  { apply set_eq. intros c. split; [|set_solver]. intros Hc. exfalso.
    apply (Habs2 c x); [by apply elem_of_iter|done|].
    unfold Sentence.known_mines in Hc. case_decide; set_solver. }
  split; [by rewrite Hmines, iter_empty|].
  intros ? [= <-] [Hzero|Hfull].
  - unfold Sentence.known_safes in Hsafes. by rewrite decide_True in Hsafes.
  - unfold Sentence.known_mines in Hmines. by rewrite decide_True in Hmines.
Qed.

Lemma update_visits_zero l st :
  (fold_left update_visit l st).2 ≤ st.2 →
  fold_left update_visit l st = st ∧
  ∀ i x, i ∈ l → knowledge st.1 !! i = Some x → saturated x →
         Sentence.cells x = ∅.
Proof.
  revert st. induction l as [|i l IH]; intros st Hle; simpl in *.
  - split; [done|]. intros i x Hi. by apply not_elem_of_nil in Hi.
  - pose proof (update_visits_mono l (update_visit st i)) as Hmono.
    destruct (update_visit_zero st i) as [Heq Hset]; [lia|].
    rewrite Heq in *. destruct (IH st Hle) as [Heq' Hset'].
    split; [done|].
    intros j x [->|Hj]%elem_of_cons; [apply Hset|by apply Hset'].
Qed.

Lemma update_pass_zero ai :
  (update_pass ai).2 = 0 →
  (update_pass ai).1 = ai ∧ settled ai ∧ clean ai.
Proof.
  unfold update_pass.
  set (st1 := fold_left update_visit _ (ai, 0)).
  set (st2 := mark_safe_all _ st1).
  intros Hz.
  pose proof (update_visits_mono (seq 0 (length (knowledge ai))) (ai, 0))
    as Hm1.
  pose proof (mark_safe_all_mono (iter (safes st1.1)) st1) as Hm2.
  pose proof (mark_mine_all_mono (iter (mines st2.1)) st2) as Hm3.
  fold st1 in Hm1. fold st2 in Hm2. simpl in Hm1.
  destruct (update_visits_zero (seq 0 (length (knowledge ai))) (ai, 0))
    as [Heq1 Hset]; [fold st1; simpl; lia|].
  fold st1 in Heq1. simpl in Hset.
  destruct (mark_safe_all_zero (iter (safes st1.1)) st1) as [Habs2 Heq2];
    [fold st2; lia|].
  fold st2 in Heq2.
  destruct (mark_mine_all_zero (iter (mines st2.1)) st2) as [Habs3 Heq3];
    [lia|].
  rewrite Heq3, Heq2, Heq1 in *. simpl in *.
  split; [|split].
  - destruct ai. unfold set_mines, set_safes. simpl. f_equal.
    + apply set_eq. intros c. rewrite elem_of_union, elem_of_list_to_set.
      rewrite elem_of_iter. simpl. tauto.
    + apply set_eq. intros c. rewrite elem_of_union, elem_of_list_to_set.
      rewrite elem_of_iter. tauto.
  - intros s [i Hi]%list_elem_of_lookup Hsat.
    eapply (Hset i); [|done..].
    apply elem_of_seq. apply lookup_lt_Some in Hi. lia.
  - intros s c Hs [Hc|Hc]%elem_of_union.
    + apply (Habs2 c s); [|done]. by apply elem_of_iter.
    + apply (Habs3 c s); [|done]. apply elem_of_iter.
      unfold set_safes. simpl. done.
Qed.

(** [update] stops at a state on which a pass does nothing. *)
Lemma update_fixpoint ai :
  update_pass (update ai) = (update ai, 0).
Proof.
  assert (∀ fuel a r, update_loop fuel a = Some r → update_pass r = (r, 0))
    as Hloop.
  { induction fuel as [|fuel IH]; intros a r; simpl; [done|].
    destruct (update_pass a) as [a' counter] eqn:Hpass.
    destruct (decide (counter = 0)) as [->|]; [|by apply IH].
    intros [= <-]. destruct (update_pass_zero a) as (Heq & _ & _);
      [by rewrite Hpass|].
    rewrite Hpass in Heq. simpl in Heq. by rewrite Heq in *. }
  eapply Hloop, update_returns.
Qed.

Lemma update_settled ai : settled (update ai).
Proof.
  destruct (update_pass_zero (update ai)) as (_ & H & _); [|done].
  by rewrite update_fixpoint.
Qed.

Lemma update_clean ai : clean (update ai).
Proof.
  destruct (update_pass_zero (update ai)) as (_ & _ & H); [|done].
  by rewrite update_fixpoint.
Qed.
End Quiescence.

(** ** Pairwise inference *)

Lemma emit_keep ks A B :
  Sentence.cells B ≠ ∅ → A ≠ B → Sentence.cells B ⊆ Sentence.cells A →
  derived A B ∉ ks → emit ks A B = [derived A B].
Proof. intros. unfold emit. by rewrite decide_True. Qed.

Lemma emit_skip ks A B :
  ¬ (Sentence.cells B ≠ ∅ ∧ A ≠ B ∧
     Sentence.cells B ⊆ Sentence.cells A ∧ derived A B ∉ ks) →
  emit ks A B = [].
Proof. intros. unfold emit. by rewrite decide_False. Qed.

Lemma inference_inner_spec ks s1 l nd tr :
  fold_left (inference_inner ks s1) l (nd, tr) =
    (nd ++ flat_map (emit ks s1) l,
     tr ++ filter (λ x, Sentence.cells x = ∅) l).
Proof.
  revert nd tr. induction l as [|s2 l IH]; intros nd tr; simpl.
  - by rewrite !app_nil_r.
  - rewrite filter_cons.
    destruct (decide (Sentence.cells s2 = ∅)) as [He|He]; simpl.
    + rewrite IH, emit_skip by tauto. simpl. by rewrite <- app_assoc.
    + destruct (Sentence.neqb s1 s2) eqn:Hne.
      * apply Sentence_neqb_true in Hne.
        destruct (decide (Sentence.cells s2 ⊆ Sentence.cells s1)) as [Hs|Hs].
        -- fold (derived s1 s2).
           destruct (Sentence.inb (derived s1 s2) ks) eqn:Hin; simpl.
           ++ apply Sentence_inb_true in Hin.
              rewrite IH, emit_skip by tauto. done.
           ++ apply Sentence_inb_false in Hin.
              rewrite IH, emit_keep by tauto. simpl.
              by rewrite <- app_assoc.
        -- rewrite IH, emit_skip by tauto. done.
      * apply not_true_iff_false in Hne. rewrite Sentence_neqb_true in Hne.
        rewrite IH, emit_skip by tauto. done.
Qed.

Lemma inference_outer_spec ks l nd tr :
  fold_left (inference_outer ks) l (nd, tr) =
    (nd ++ flat_map (λ A, if decide (Sentence.cells A = ∅) then []
                          else flat_map (emit ks A) ks) l,
     tr ++ flat_map (λ A, if decide (Sentence.cells A = ∅) then [A]
                          else filter (λ x, Sentence.cells x = ∅) ks) l).
Proof.
  revert nd tr. induction l as [|s1 l IH]; intros nd tr; simpl.
  - by rewrite !app_nil_r.
  - unfold inference_outer at 2.
    destruct (decide (Sentence.cells s1 = ∅)) as [He|He]; simpl.
    + rewrite IH. by rewrite <- app_assoc.
    + rewrite inference_inner_spec, IH. by rewrite <- !app_assoc.
Qed.

Lemma filter_agree {A : Type} (P Q : A → Prop)
    `{!∀ x, Decision (P x)} `{!∀ x, Decision (Q x)} (l : list A) :
  (∀ x, x ∈ l → P x ↔ Q x) → filter P l = filter Q l.
Proof.
  induction l as [|a l IH]; intros Hall; [done|].
  rewrite !filter_cons.
  rewrite IH by (intros x Hx; apply Hall; by right).
  destruct (decide (P a)) as [Hp|Hp], (decide (Q a)) as [Hq|Hq]; try done.
  - exfalso. apply Hq, (Hall a); [left|done].
  - exfalso. apply Hp, (Hall a); [left|done].
Qed.

(** The result of [inference], as a function of the knowledge list. *)
Lemma inference_spec ai :
  inference ai =
    (emitted (knowledge ai),
     set_knowledge (filter (λ x, Sentence.cells x ≠ ∅)) ai).
Proof.
  unfold inference. rewrite inference_outer_spec. simpl.
  f_equal. unfold set_knowledge. f_equal.
  apply filter_agree. intros x Hx.
  rewrite Sentence_inb_false. split.
  - intros Hnot He. apply Hnot. apply list_elem_of_In, in_flat_map.
    exists x. split; [by apply list_elem_of_In|].
    rewrite decide_True by done. by left.
  - intros Hne [A [HA Hin]]%list_elem_of_In%in_flat_map.
    destruct (decide (Sentence.cells A = ∅)).
    + destruct Hin as [<-|[]]. done.
    + apply list_elem_of_In, list_elem_of_filter in Hin. tauto.
Qed.

Lemma elem_of_emitted ks D :
  D ∈ emitted ks ↔ ∃ A B, eligible ks A B ∧ D = derived A B ∧ D ∉ ks.
Proof.
  unfold emitted, eligible. rewrite list_elem_of_In, in_flat_map. split.
  - intros (A & HA & Hin). destruct (decide (Sentence.cells A = ∅)); [done|].
    apply in_flat_map in Hin as (B & HB & Hin). unfold emit in Hin.
    case_decide as Hc; [|done]. destruct Hin as [<-|[]].
    apply list_elem_of_In in HA, HB. exists A, B. tauto.
  - intros (A & B & (HA & HB & Hne & HAe & HBe & Hsub) & -> & Hnot).
    exists A. split; [by apply list_elem_of_In|].
    rewrite decide_False by done. apply in_flat_map.
    exists B. split; [by apply list_elem_of_In|].
    unfold emit. rewrite decide_True by tauto. by left.
Qed.

(** ** What a run of [update] may change *)

Lemma cells_without_safe c s :
  Sentence.cells (without_safe c s) = Sentence.cells s ∖ {[c]}.
Proof.
  unfold without_safe, Sentence.mark_safe. case_decide; simpl; set_solver.
Qed.

Lemma cells_without_mine c s :
  Sentence.cells (without_mine c s) = Sentence.cells s ∖ {[c]}.
Proof.
  unfold without_mine, Sentence.mark_mine. case_decide; simpl; set_solver.
Qed.

Lemma count_without_safe c s :
  Sentence.count (without_safe c s) = Sentence.count s.
Proof. unfold without_safe, Sentence.mark_safe. by case_decide. Qed.

Lemma count_without_mine c s :
  Sentence.count (without_mine c s) =
    if decide (c ∈ Sentence.cells s) then Sentence.count s - 1
    else Sentence.count s.
Proof. unfold without_mine, Sentence.mark_mine. by case_decide. Qed.

Lemma shrinks_refl ai : shrinks ai ai.
Proof.
  repeat split; try done. apply Forall2_same_length_lookup_2; [done|].
  intros i s0 s H0 H1. assert (s0 = s) as -> by congruence. set_solver.
Qed.

Lemma shrinks_mark_safe ai0 ai c :
  shrinks ai0 ai → shrinks ai0 (mark_safe ai c).1.
Proof.
  intros (Hh & Hw & Hm & Hs & Hmi & Hks). rewrite mark_safe_spec. simpl.
  repeat split; simpl; try done; [set_solver|].
  apply Forall2_fmap_r. eapply Forall2_impl; [done|].
  intros s0 s [Hsub Hgone]. simpl. rewrite cells_without_safe. split.
  - set_solver.
  - intros x [Hx0 Hx]%elem_of_difference.
    destruct (decide (x = c)) as [->|Hne]; [set_solver|].
    assert (x ∉ Sentence.cells s) by set_solver. set_solver.
Qed.

Lemma shrinks_mark_mine ai0 ai c :
  shrinks ai0 ai → shrinks ai0 (mark_mine ai c).1.
Proof.
  intros (Hh & Hw & Hm & Hs & Hmi & Hks). rewrite mark_mine_spec. simpl.
  repeat split; simpl; try done; [set_solver|].
  apply Forall2_fmap_r. eapply Forall2_impl; [done|].
  intros s0 s [Hsub Hgone]. simpl. rewrite cells_without_mine. split.
  - set_solver.
  - intros x [Hx0 Hx]%elem_of_difference.
    destruct (decide (x = c)) as [->|Hne]; [set_solver|].
    assert (x ∉ Sentence.cells s) by set_solver. set_solver.
Qed.

Section Shrinking.
Context {order : SetOrder}.

Lemma update_pass_shrinks ai0 ai :
  shrinks ai0 ai → shrinks ai0 (update_pass ai).1.
Proof.
  intros Hai.
  apply (update_pass_ind (λ st, shrinks ai0 st.1) (λ _, True) (λ _, True));
    try done.
  - intros st c Hst _. unfold count_mark_safe.
    pose proof (shrinks_mark_safe ai0 st.1 c Hst).
    by destruct (mark_safe st.1 c).
  - intros st c Hst _. unfold count_mark_mine.
    pose proof (shrinks_mark_mine ai0 st.1 c Hst).
    by destruct (mark_mine st.1 c).
Qed.

Lemma update_shrinks ai : shrinks ai (update ai).
Proof.
  apply (update_ind (shrinks ai)); [|apply shrinks_refl].
  apply update_pass_shrinks.
Qed.
End Shrinking.

(** * Results on fact marking, propagation and inference *)

(** C10: [MinesweeperAI.mark_safe] leaves [mines] and [moves_made] (and
    the board size) unchanged, adds the cell to [safes], keeps the length
    of the knowledge list, and changes the sentence at each position only
    by removing the cell from its cell set, with the count unchanged;
    symmetrically [MinesweeperAI.mark_mine] leaves [safes] and
    [moves_made] unchanged, adds the cell to [mines], and changes each
    sentence only by removing the cell and decrementing the count by one,
    which happens exactly for the sentences that contained the cell. *)
Theorem marking_frame (ai : MinesweeperAI.t) (c : cell) :
  (mines (mark_safe ai c).1 = mines ai ∧
   moves_made (mark_safe ai c).1 = moves_made ai ∧
   height (mark_safe ai c).1 = height ai ∧
   width (mark_safe ai c).1 = width ai ∧
   safes (mark_safe ai c).1 = safes ai ∪ {[c]} ∧
   length (knowledge (mark_safe ai c).1) = length (knowledge ai) ∧
   ∀ i s, knowledge ai !! i = Some s →
     knowledge (mark_safe ai c).1 !! i =
       Some (if decide (c ∈ Sentence.cells s)
             then Sentence.mk (Sentence.cells s ∖ {[c]}) (Sentence.count s)
             else s)) ∧
  (safes (mark_mine ai c).1 = safes ai ∧
   moves_made (mark_mine ai c).1 = moves_made ai ∧
   height (mark_mine ai c).1 = height ai ∧
   width (mark_mine ai c).1 = width ai ∧
   mines (mark_mine ai c).1 = mines ai ∪ {[c]} ∧
   length (knowledge (mark_mine ai c).1) = length (knowledge ai) ∧
   ∀ i s, knowledge ai !! i = Some s →
     knowledge (mark_mine ai c).1 !! i =
       Some (if decide (c ∈ Sentence.cells s)
             then Sentence.mk (Sentence.cells s ∖ {[c]}) (Sentence.count s - 1)
             else s)).
Proof.
  rewrite mark_safe_spec, mark_mine_spec. simpl.
  repeat split; try done; try (by rewrite length_map).
  - intros i s Hi. rewrite list_lookup_fmap, Hi. simpl. f_equal.
    unfold without_safe, Sentence.mark_safe. by case_decide.
  - intros i s Hi. rewrite list_lookup_fmap, Hi. simpl. f_equal.
    unfold without_mine, Sentence.mark_mine. by case_decide.
Qed.

(** C9: [make_safe_move] returns only cells that are in [safes] and not
    in [moves_made]; it returns such a cell whenever one exists; and it
    returns [None] exactly when [safes - moves_made] is empty.  This holds
    for every iteration order of the set. *)
Theorem make_safe_move_spec `{SetOrder} (ai : MinesweeperAI.t) :
  (∀ c, make_safe_move ai = Some c → c ∈ safes ai ∧ c ∉ moves_made ai) ∧
  ((∃ c, c ∈ safes ai ∧ c ∉ moves_made ai) →
   ∃ c, make_safe_move ai = Some c) ∧
  (make_safe_move ai = None ↔ safes ai ∖ moves_made ai = ∅).
Proof.
  unfold make_safe_move.
  assert (∀ c, find (λ x, bool_decide (x ∉ moves_made ai)) (iter (safes ai))
               = Some c → c ∈ safes ai ∧ c ∉ moves_made ai) as Hsome.
  { intros c [Hin Hdec]%find_some. apply bool_decide_eq_true in Hdec.
    apply list_elem_of_In, elem_of_iter in Hin. done. }
  assert (find (λ x, bool_decide (x ∉ moves_made ai)) (iter (safes ai))
          = None ↔ safes ai ∖ moves_made ai = ∅) as Hnone.
  { split.
    - intros Hnone. apply set_eq. intros c. split; [|set_solver].
      intros [Hc Hm]%elem_of_difference. exfalso.
      pose proof (find_none _ _ Hnone c) as Hf. simpl in Hf.
      rewrite bool_decide_eq_false in Hf. apply Hf; [|done].
      by apply list_elem_of_In, elem_of_iter.
    - intros Hempty.
      destruct (find _ _) as [c|] eqn:Hf; [|done].
      destruct (Hsome c eq_refl). set_solver. }
  split; [done|]. split; [|done].
  intros (c & Hc & Hm).
  destruct (find _ _) as [c'|] eqn:Hf; [by eexists|].
  destruct Hnone as [Hnone _]. specialize (Hnone eq_refl). set_solver.
Qed.

(** C8: [update] terminates.  The counter of a pass is the number of
    removals it performed: it is non-negative and the total number of cell
    memberships over all sentences drops by exactly that amount, so a pass
    with at least one mutation strictly decreases it.  The loop stops at
    the first pass whose counter is zero, and a number of passes bounded
    by the initial number of memberships plus one always suffices. *)
Theorem update_terminates `{SetOrder} (ai : MinesweeperAI.t) :
  (∀ a, 0 ≤ (update_pass a).2 ∧
        Z.of_nat (memberships (knowledge (update_pass a).1))
          + (update_pass a).2 = Z.of_nat (memberships (knowledge a)) ∧
        ((update_pass a).2 ≠ 0 →
         (memberships (knowledge (update_pass a).1)
          < memberships (knowledge a))%nat)) ∧
  (∀ fuel a, update_loop (S fuel) a =
     if decide ((update_pass a).2 = 0) then Some (update_pass a).1
     else update_loop fuel (update_pass a).1) ∧
  update_loop (S (memberships (knowledge ai))) ai = Some (update ai) ∧
  update_pass (update ai) = (update ai, 0).
Proof.
  split; [|split; [|split]].
  - intros a. pose proof (update_pass_count a) as [Hpos Heq].
    repeat split; [done..|]. lia.
  - intros fuel a. simpl. by destruct (update_pass a).
  - apply update_returns.
  - apply update_fixpoint.
Qed.

(** C2: [update] returns, and after it no sentence that still has
    cells satisfies [count == 0] or [count == |cells|].  The cells that [update] removed
    from a sentence are all recorded in [safes] or [mines], and [update]
    removes cells only: position by position the new cell set is a subset
    of the old one. *)
Theorem update_extracts_saturated `{SetOrder} (ai : MinesweeperAI.t) :
  (∃ fuel, update_loop fuel ai = Some (update ai)) ∧
  (∀ s, s ∈ knowledge (update ai) → Sentence.cells s ≠ ∅ →
        Sentence.count s ≠ 0 ∧
        Z.of_nat (size (Sentence.cells s)) ≠ Sentence.count s) ∧
  Forall2 (λ s0 s,
      Sentence.cells s ⊆ Sentence.cells s0 ∧
      Sentence.cells s0 ∖ Sentence.cells s
        ⊆ safes (update ai) ∪ mines (update ai))
    (knowledge ai) (knowledge (update ai)).
Proof.
  split; [eexists; apply update_returns|]. split.
  - intros s Hs Hne. pose proof (update_settled ai s Hs) as Hset.
    unfold saturated in Hset. split; intros Heq; apply Hne, Hset; tauto.
  - apply update_shrinks.
Qed.

(** C1, as the code has it: for every ordered pair [(A, B)] of
    sentences of the knowledge list that differ by [__eq__], both with
    cells, with the cells of [B] included in those of [A], the returned
    list contains the derived sentence
    [(A.cells - B.cells, A.count - B.count)] if and only if it is not
    equal to a sentence of the knowledge list.  A candidate is not
    compared with the candidates already produced in the same pass: the
    returned list is [emitted], which has one entry, in the order of the
    two nested loops, for each pair of positions of the list that
    produces a sentence not in the knowledge list, so the same sentence
    can be returned more than once.  The returned list contains nothing
    but such derivations; and [inference] inserts none of them: it only
    drops the sentences without cells from the knowledge list and leaves
    every other field alone. *)
Theorem inference_derives_subset_differences (ai : MinesweeperAI.t) :
  (inference ai).1 = emitted (knowledge ai) ∧
  (∀ A B, eligible (knowledge ai) A B →
     (derived A B ∉ knowledge ai → derived A B ∈ (inference ai).1) ∧
     (derived A B ∈ knowledge ai → derived A B ∉ (inference ai).1)) ∧
  (∀ D, D ∈ (inference ai).1 →
     ∃ A B, eligible (knowledge ai) A B ∧ D = derived A B ∧
            D ∉ knowledge ai) ∧
  knowledge (inference ai).2 =
    filter (λ x, Sentence.cells x ≠ ∅) (knowledge ai) ∧
  (∀ D, D ∈ (inference ai).1 → D ∉ knowledge (inference ai).2) ∧
  (height (inference ai).2, width (inference ai).2,
   moves_made (inference ai).2, mines (inference ai).2,
   safes (inference ai).2)
  = (height ai, width ai, moves_made ai, mines ai, safes ai).
Proof.
  rewrite inference_spec. simpl. split; [done|].
  split; [|split; [|split; [|split]]]; try done.
  - intros A B Hel. split.
    + intros Hnot. apply elem_of_emitted. by exists A, B.
    + intros Hin (A' & B' & _ & _ & Hnot)%elem_of_emitted. done.
  - intros D HD. by apply elem_of_emitted.
  - intros D (A & B & _ & _ & Hnot)%elem_of_emitted Hin.
    apply list_elem_of_filter in Hin. tauto.
Qed.

(** The list returned by [inference] can hold the same derivation more
    than once: a candidate is compared with the knowledge list only. *)
Example inference_repeats_a_derivation :
  let a : cell := (0, 0) in let b : cell := (0, 1) in
  let c : cell := (0, 2) in let d : cell := (0, 3) in
  let e : cell := (0, 4) in let f : cell := (0, 5) in
  (inference
     (mk 1 6 ∅ ∅ ∅
         [Sentence.mk {[a; b; c; d]} 2; Sentence.mk {[a; b]} 1;
          Sentence.mk {[c; d; e; f]} 2; Sentence.mk {[e; f]} 1])).1
  = [Sentence.mk {[c; d]} 1; Sentence.mk {[c; d]} 1].
Proof. vm_compute. reflexivity. Qed.

(** * Observation ingestion *)

Lemma elem_of_range a b k : k ∈ range a b ↔ a ≤ k < b.
Proof.
  unfold range. rewrite list_elem_of_In, in_map_iff. split.
  - intros (n & <- & Hn). apply in_seq in Hn. lia.
  - intros Hk. exists (Z.to_nat (k - a)). split; [lia|].
    apply in_seq. lia.
Qed.

Lemma friends_row_spec (x y i : Z) (l : list Z) (acc : gset cell) (p : cell) :
  p ∈ fold_left (λ (acc : gset cell) j,
        if decide ((i, j) ≠ (x, y)) then acc ∪ {[(i, j)]} else acc) l acc
  ↔ p ∈ acc ∨ ∃ j, j ∈ l ∧ p = (i, j) ∧ p ≠ (x, y).
Proof.
  revert acc. induction l as [|j l IH]; intros acc; simpl.
  - split; [by left|]. intros [?|(j & Hj & _)]; [done|].
    by apply not_elem_of_nil in Hj.
  - rewrite IH. split.
    + intros [Hacc|(j' & Hj' & Hp)].
      * case_decide as Hne.
        -- apply elem_of_union in Hacc as [?|Hp%elem_of_singleton];
             [by left|]. subst p. right. exists j. split; [left|done].
        -- by left.
      * right. exists j'. split; [by right|done].
    + intros [Hacc|(j' & [->|Hj']%elem_of_cons & -> & Hne)].
      * left. case_decide; set_solver.
      * left. rewrite decide_True by done. set_solver.
      * right. by exists j'.
Qed.

Lemma elem_of_friends ai c p :
  p ∈ friends ai c ↔ neighbour (height ai) (width ai) c p.
Proof.
  unfold friends, neighbour. destruct c as [x y].
  set (rows := range (Z.max 0 (x - 1)) (Z.min (x + 2) (height ai))).
  set (cols := range (Z.max 0 (y - 1)) (Z.min (y + 2) (width ai))).
  assert (∀ (l : list Z) (acc : gset cell),
    p ∈ fold_left (λ (acc : gset cell) i,
          fold_left (λ (acc : gset cell) j,
              if decide ((i, j) ≠ (x, y)) then acc ∪ {[(i, j)]} else acc)
            cols acc) l acc
    ↔ p ∈ acc ∨ ∃ i j, i ∈ l ∧ j ∈ cols ∧ p = (i, j) ∧ p ≠ (x, y)) as Hrows.
  { induction l as [|i l IH]; intros acc; simpl.
    - split; [by left|]. intros [?|(i & j & Hi & _)]; [done|].
      by apply not_elem_of_nil in Hi.
    - rewrite IH, friends_row_spec. split.
      + intros [[?|(j & Hj & Hp)]|(i' & j & Hi' & Hj & Hp)].
        * by left.
        * right. exists i, j. split; [left|done].
        * right. exists i', j. split; [by right|done].
      + intros [?|(i' & j & [->|Hi']%elem_of_cons & Hj & Hp)].
        * left. by left.
        * left. right. by exists j.
        * right. by exists i', j. }
  rewrite Hrows. simpl. split.
  - intros [Hp|(i & j & Hi & Hj & -> & Hne)]; [set_solver|].
    apply elem_of_range in Hi, Hj. simpl. repeat split; try lia. done.
  - intros (H1 & H2 & H3 & H4 & Hne). right. destruct p as [i j].
    simpl in *. exists i, j. unfold rows, cols.
    rewrite !elem_of_range. repeat split; try lia. done.
Qed.

Lemma ingest_spec ai c count :
  ingest ai c count =
    mk (height ai) (width ai) (moves_made ai ∪ {[c]}) (mines ai)
       (safes ai ∪ {[c]})
       (map (without_safe c) (knowledge ai)
          ++ [Sentence.mk (friends ai c) count]).
Proof.
  unfold ingest. rewrite mark_safe_spec. simpl.
  unfold set_knowledge. simpl. done.
Qed.


(** * Agreement with a set of mines *)

Lemma sound_bounds M s :
  sound M s → 0 ≤ Sentence.count s ≤ Z.of_nat (size (Sentence.cells s)).
Proof.
  unfold sound. intros ->.
  assert (size (Sentence.cells s ∩ M) ≤ size (Sentence.cells s))%nat
    by (apply subseteq_size; set_solver).
  lia.
Qed.

Lemma sound_without_safe M c s :
  c ∉ M → sound M s → sound M (without_safe c s).
Proof.
  unfold sound. intros Hc Hs.
  rewrite count_without_safe, cells_without_safe, Hs. do 2 f_equal.
  set_solver.
Qed.

Lemma sound_without_mine M c s :
  c ∈ M → sound M s → sound M (without_mine c s).
Proof.
  unfold sound. intros Hc Hs.
  rewrite count_without_mine, cells_without_mine, Hs.
  destruct (decide (c ∈ Sentence.cells s)) as [Hin|Hin].
  - assert (Sentence.cells s ∩ M
            = {[c]} ∪ (Sentence.cells s ∖ {[c]}) ∩ M) as ->.
    { apply set_eq. intros p. destruct (decide (p = c)); set_solver. }
    rewrite size_union by set_solver. rewrite size_singleton. lia.
  - do 2 f_equal. set_solver.
Qed.

Lemma sound_known_safes M x c :
  sound M x → c ∈ Sentence.known_safes x → c ∉ M.
Proof.
  unfold sound, Sentence.known_safes. intros Hs Hc HM.
  case_decide as Hz; [|set_solver].
  assert (size (Sentence.cells x ∩ M) = 0%nat) as Hsize by lia.
  apply size_empty_iff in Hsize. set_solver.
Qed.

Lemma sound_known_mines M x c :
  sound M x → c ∈ Sentence.known_mines x → c ∈ M.
Proof.
  unfold sound, Sentence.known_mines. intros Hs Hc.
  case_decide as Hz; [|set_solver].
  assert (Sentence.cells x ∩ M = Sentence.cells x) as Heq.
  { apply set_subseteq_size_eq; [set_solver|lia]. }
  set_solver.
Qed.

Lemma sound_derived M A B :
  sound M A → sound M B → Sentence.cells B ⊆ Sentence.cells A →
  sound M (derived A B).
Proof.
  unfold sound, derived. simpl. intros -> -> Hsub.
  assert (Sentence.cells A ∩ M
          = Sentence.cells B ∩ M ∪ (Sentence.cells A ∖ Sentence.cells B) ∩ M)
    as ->.
  { apply set_eq. intros p.
    destruct (decide (p ∈ Sentence.cells B)); set_solver. }
  rewrite size_union by set_solver. lia.
Qed.

Lemma consistent_mark_safe M ai c :
  c ∉ M → consistent M ai → consistent M (mark_safe ai c).1.
Proof.
  intros Hc (Hks & Hsafe & Hmine). rewrite mark_safe_spec.
  split; [|split]; simpl; [|set_solver|done].
  intros s (s0 & -> & Hs0)%list_elem_of_fmap.
  by apply sound_without_safe, Hks.
Qed.

Lemma consistent_mark_mine M ai c :
  c ∈ M → consistent M ai → consistent M (mark_mine ai c).1.
Proof.
  intros Hc (Hks & Hsafe & Hmine). rewrite mark_mine_spec.
  split; [|split]; simpl; [|done|set_solver].
  intros s (s0 & -> & Hs0)%list_elem_of_fmap.
  by apply sound_without_mine, Hks.
Qed.

Lemma consistent_inference M ai :
  consistent M ai →
  consistent M (inference ai).2 ∧ ∀ D, D ∈ (inference ai).1 → sound M D.
Proof.
  intros (Hks & Hsafe & Hmine). rewrite inference_spec. simpl. split.
  - split; [|done]. simpl. intros s [_ Hs]%list_elem_of_filter.
    by apply Hks.
  - intros D (A & B & (HA & HB & _ & _ & _ & Hsub) & -> & _)%elem_of_emitted.
    apply sound_derived; auto.
Qed.

Lemma consistent_append M ai nd :
  consistent M ai → (∀ D, D ∈ nd → sound M D) →
  consistent M (set_knowledge (λ ks, ks ++ nd) ai).
Proof.
  intros (Hks & Hsafe & Hmine) Hnd. split; [|done]. simpl.
  intros s [?|?]%elem_of_app; auto.
Qed.

Section Agreement.
Context {order : SetOrder}.

Lemma consistent_update_pass M ai :
  consistent M ai → consistent M (update_pass ai).1.
Proof.
  intros Hai.
  apply (update_pass_ind (λ st, consistent M st.1) (λ c, c ∉ M) (λ c, c ∈ M));
    try done.
  - intros st c Hst Hc. unfold count_mark_safe.
    pose proof (consistent_mark_safe M st.1 c Hc Hst).
    by destruct (mark_safe st.1 c).
  - intros st c Hst Hc. unfold count_mark_mine.
    pose proof (consistent_mark_mine M st.1 c Hc Hst).
    by destruct (mark_mine st.1 c).
  - intros st x c (Hks & _) Hx Hc. eapply sound_known_safes; eauto.
  - intros st x c (Hks & _) Hx Hc. eapply sound_known_mines; eauto.
  - intros st c (_ & Hsafe & _) Hc. set_solver.
  - intros st c (_ & _ & Hmine) Hc. set_solver.
Qed.

Lemma consistent_update M ai : consistent M ai → consistent M (update ai).
Proof. apply (update_ind (consistent M)), consistent_update_pass. Qed.

Lemma consistent_add_knowledge_loop M fuel nd ai ai' :
  consistent M ai → (∀ D, D ∈ nd → sound M D) →
  add_knowledge_loop fuel nd ai = Some ai' → consistent M ai'.
Proof.
  revert nd ai. induction fuel as [|fuel IH]; intros nd ai Hai Hnd.
  - destruct nd; simpl; [by intros [= <-]|done].
  - destruct nd as [|D nd]; simpl; [by intros [= <-]|].
    set (ai2 := update _).
    assert (consistent M ai2) as H2.
    { apply consistent_update. by apply (consistent_append M ai (D :: nd)). }
    destruct (consistent_inference M ai2 H2) as [H3 Hnd'].
    destruct (inference ai2) as [nd' ai3]. by apply IH.
Qed.

Lemma consistent_ingest M ai c n :
  c ∉ M → n = Z.of_nat (size (friends ai c ∩ M)) →
  consistent M ai → consistent M (ingest ai c n).
Proof.
  intros Hc Hn (Hks & Hsafe & Hmine). rewrite ingest_spec.
  split; [|split]; simpl; [|set_solver|done].
  intros s [(s0 & -> & Hs0)%list_elem_of_fmap|Hs%list_elem_of_singleton]
    %elem_of_app.
  - by apply sound_without_safe, Hks.
  - subst s. done.
Qed.

Lemma consistent_add_knowledge M fuel ai c n ai' :
  c ∉ M → n = Z.of_nat (size (friends ai c ∩ M)) →
  consistent M ai → add_knowledge fuel ai c n = Some ai' →
  consistent M ai'.
Proof.
  intros Hc Hn Hai. unfold add_knowledge.
  set (ai1 := update _).
  assert (consistent M ai1) as H1
    by (by apply consistent_update, consistent_ingest).
  destruct (consistent_inference M ai1 H1) as [H2 Hnd].
  destruct (inference ai1) as [nd ai2].
  by apply consistent_add_knowledge_loop.
Qed.

End Agreement.


(** * The board and the counts it reports *)

Lemma NoDup_range a b : NoDup (range a b).
Proof.
  unfold range. apply NoDup_fmap_2_strong; [|apply NoDup_seq].
  intros n m _ _ Heq. lia.
Qed.

Lemma elem_of_pairs (rows cols : list Z) (p : cell) :
  p ∈ (i ← rows; j ← cols; [(i, j)]) ↔ p.1 ∈ rows ∧ p.2 ∈ cols.
Proof.
  rewrite list_elem_of_bind. split.
  - intros (i & (j & ->%list_elem_of_singleton & Hj)%list_elem_of_bind & Hi).
    done.
  - intros [Hi Hj]. exists p.1. split; [|done].
    apply list_elem_of_bind. exists p.2. split; [|done].
    destruct p. simpl. by apply list_elem_of_singleton.
Qed.

Lemma NoDup_pairs (rows cols : list Z) :
  NoDup rows → NoDup cols → NoDup (i ← rows; j ← cols; [(i, j)]).
Proof.
  intros Hrows Hcols. apply NoDup_bind; [| |done].
  - intros i1 i2 p _ _
      (j1 & ->%list_elem_of_singleton & _)%list_elem_of_bind
      (j2 & [= -> _]%list_elem_of_singleton & _)%list_elem_of_bind.
    done.
  - intros i _. apply NoDup_bind; [| |done].
    + intros j1 j2 p _ _ ->%list_elem_of_singleton
        [= ->]%list_elem_of_singleton. done.
    + intros j _. apply NoDup_singleton.
Qed.

Lemma elem_of_board_mines g p :
  p ∈ Minesweeper.board_mines g ↔
  0 ≤ p.1 < Minesweeper.height g ∧ 0 ≤ p.2 < Minesweeper.width g ∧
  Minesweeper.board_at g p.1 p.2 = true.
Proof.
  unfold Minesweeper.board_mines, Minesweeper.grid.
  rewrite elem_of_list_to_set, list_elem_of_filter, elem_of_pairs.
  rewrite !elem_of_range. tauto.
Qed.

Lemma elem_of_window c p :
  p ∈ window c ↔ c.1 - 1 ≤ p.1 ≤ c.1 + 1 ∧ c.2 - 1 ≤ p.2 ≤ c.2 + 1.
Proof.
  unfold window. rewrite elem_of_pairs, !elem_of_range. lia.
Qed.

Lemma fold_left_bind {A B C : Type} (f : C → B → C) (g : A → list B)
    (l : list A) (acc : C) :
  fold_left f (l ≫= g) acc = fold_left (λ acc a, fold_left f (g a) acc) l acc.
Proof.
  revert acc. induction l as [|a l IH]; intros acc; simpl; [done|].
  by rewrite fold_left_app, IH.
Qed.

Lemma fold_left_agree {A B : Type} (f g : A → B → A) (l : list B) (acc : A) :
  (∀ a b, f a b = g a b) → fold_left f l acc = fold_left g l acc.
Proof.
  intros Hfg. revert acc. induction l as [|b l IH]; intros acc; simpl;
    [done|]. by rewrite Hfg, IH.
Qed.

Lemma fold_left_count {A : Type} (P : A → Prop) `{!∀ x, Decision (P x)}
    (l : list A) (n : Z) :
  fold_left (λ count a, if decide (P a) then count + 1 else count) l n
  = n + Z.of_nat (length (filter P l)).
Proof.
  revert n. induction l as [|a l IH]; intros n; simpl; [lia|].
  rewrite IH, filter_cons. case_decide; simpl; lia.
Qed.

(** [nearby_mines] counts the positions of the window that are on the
    board, differ from the cell, and hold a mine. *)
Lemma nearby_mines_count g c :
  Minesweeper.nearby_mines g c =
    Z.of_nat (length (filter (λ p : cell,
        p ≠ c ∧ (0 ≤ p.1 < Minesweeper.height g ∧
                 0 ≤ p.2 < Minesweeper.width g) ∧
        Minesweeper.board_at g p.1 p.2 = true) (window c))).
Proof.
  rewrite <- (Z.add_0_l (Z.of_nat _)), <- fold_left_count.
  unfold window. rewrite fold_left_bind. unfold Minesweeper.nearby_mines.
  apply fold_left_agree. intros count i.
  rewrite fold_left_bind. apply fold_left_agree. intros count' j. simpl.
  destruct (decide ((i, j) = c)) as [Heq|Hne].
  - rewrite decide_False by tauto. done.
  - destruct (decide (0 ≤ i < Minesweeper.height g ∧
                      0 ≤ j < Minesweeper.width g)) as [Hin|Hout].
    + destruct (Minesweeper.board_at g i j) eqn:Hb.
      * rewrite decide_True by tauto. done.
      * rewrite decide_False by (intros (_ & _ & ?); done). done.
    + rewrite decide_False by tauto. done.
Qed.

(** The count reported by the board for a cell is the number of mines
    among the cells that [add_knowledge] puts in the new sentence. *)
Lemma nearby_mines_friends g ai c :
  Minesweeper.wf g →
  height ai = Minesweeper.height g → width ai = Minesweeper.width g →
  Minesweeper.nearby_mines g c
  = Z.of_nat (size (friends ai c ∩ Minesweeper.mines g)).
Proof.
  intros (_ & _ & Hmines) Hh Hw. rewrite nearby_mines_count. f_equal.
  rewrite <- (size_list_to_set (C:=gset cell)).
  - f_equal. apply set_eq. intros p.
    rewrite elem_of_list_to_set, list_elem_of_filter, elem_of_window.
    rewrite elem_of_intersection, elem_of_friends, Hmines.
    rewrite elem_of_board_mines. unfold neighbour. rewrite Hh, Hw. tauto.
  - apply NoDup_filter. unfold window.
    apply NoDup_pairs; apply NoDup_range.
Qed.


(** * The iteration order of sets does not matter to [update] *)

Lemma hits_without_safe a b ks :
  a ≠ b → hits b (map (without_safe a) ks) = hits b ks.
Proof.
  intros Hne. unfold hits. induction ks as [|s ks IH]; simpl; [done|].
  rewrite !filter_cons, cells_without_safe.
  destruct (decide (b ∈ Sentence.cells s ∖ {[a]})) as [H1|H1],
           (decide (b ∈ Sentence.cells s)) as [H2|H2];
    simpl; try (by rewrite IH); set_solver.
Qed.

Lemma hits_without_mine a b ks :
  a ≠ b → hits b (map (without_mine a) ks) = hits b ks.
Proof.
  intros Hne. unfold hits. induction ks as [|s ks IH]; simpl; [done|].
  rewrite !filter_cons, cells_without_mine.
  destruct (decide (b ∈ Sentence.cells s ∖ {[a]})) as [H1|H1],
           (decide (b ∈ Sentence.cells s)) as [H2|H2];
    simpl; try (by rewrite IH); set_solver.
Qed.

Lemma Sentence_eq (s1 s2 : Sentence.t) :
  Sentence.cells s1 = Sentence.cells s2 →
  Sentence.count s1 = Sentence.count s2 → s1 = s2.
Proof. destruct s1, s2. simpl. by intros -> ->. Qed.

Lemma without_safe_comm a b s :
  without_safe b (without_safe a s) = without_safe a (without_safe b s).
Proof.
  apply Sentence_eq.
  - rewrite !cells_without_safe. set_solver.
  - by rewrite !count_without_safe.
Qed.

Lemma without_mine_comm a b s :
  a ≠ b →
  without_mine b (without_mine a s) = without_mine a (without_mine b s).
Proof.
  intros Hne. apply Sentence_eq.
  - rewrite !cells_without_mine. set_solver.
  - rewrite !count_without_mine, !cells_without_mine.
    repeat case_decide; try lia; set_solver.
Qed.

Lemma count_mark_safe_comm st a b :
  count_mark_safe (count_mark_safe st a) b
  = count_mark_safe (count_mark_safe st b) a.
Proof.
  destruct (decide (a = b)) as [->|Hne]; [done|].
  rewrite !count_mark_safe_spec. simpl.
  rewrite !hits_without_safe by done. f_equal; [|lia].
  f_equal; [set_solver|].
  rewrite !map_map. apply map_ext. intros s. apply without_safe_comm.
Qed.

Lemma count_mark_mine_comm st a b :
  count_mark_mine (count_mark_mine st a) b
  = count_mark_mine (count_mark_mine st b) a.
Proof.
  destruct (decide (a = b)) as [->|Hne]; [done|].
  rewrite !count_mark_mine_spec. simpl.
  rewrite !hits_without_mine by done. f_equal; [|lia].
  f_equal; [set_solver|].
  rewrite !map_map. apply map_ext. intros s. by apply without_mine_comm.
Qed.

Lemma mark_safe_all_perm cs cs' st :
  cs ≡ₚ cs' → mark_safe_all cs st = mark_safe_all cs' st.
Proof.
  unfold mark_safe_all. intros Hperm. revert st.
  induction Hperm as [|c l l' _ IH|a b l|l1 l2 l3 _ IH1 _ IH2]; intros st;
    simpl; [done|apply IH| |by rewrite IH1].
  by rewrite count_mark_safe_comm.
Qed.

Lemma mark_mine_all_perm cs cs' st :
  cs ≡ₚ cs' → mark_mine_all cs st = mark_mine_all cs' st.
Proof.
  unfold mark_mine_all. intros Hperm. revert st.
  induction Hperm as [|c l l' _ IH|a b l|l1 l2 l3 _ IH1 _ IH2]; intros st;
    simpl; [done|apply IH| |by rewrite IH1].
  by rewrite count_mark_mine_comm.
Qed.

Lemma iter_orders (o1 o2 : SetOrder) (s : gset cell) :
  @iter o1 s ≡ₚ @iter o2 s.
Proof. by rewrite !iter_perm. Qed.

Lemma update_pass_order (o1 o2 : SetOrder) ai :
  @update_pass o1 ai = @update_pass o2 ai.
Proof.
  unfold update_pass.
  assert (∀ st i, @update_visit o1 st i = @update_visit o2 st i) as Hvisit.
  { intros st i. unfold update_visit.
    destruct (knowledge st.1 !! i) as [x|]; [|done].
    rewrite (mark_safe_all_perm _ _ st
               (iter_orders o1 o2 (Sentence.known_safes x))).
    destruct (knowledge _ !! i) as [x'|]; [|done].
    apply mark_mine_all_perm, iter_orders. }
  rewrite (fold_left_agree _ _ _ _ Hvisit).
  set (st1 := fold_left _ _ _).
  rewrite (mark_safe_all_perm _ _ st1 (iter_orders o1 o2 (safes st1.1))).
  apply mark_mine_all_perm, iter_orders.
Qed.

Lemma update_order (o1 o2 : SetOrder) ai : @update o1 ai = @update o2 ai.
Proof.
  unfold update. f_equal. generalize (S (memberships (knowledge ai))).
  intros fuel. revert ai. induction fuel as [|fuel IH]; intros ai; simpl;
    [done|].
  rewrite (update_pass_order o1 o2). destruct (update_pass ai) as [ai' n].
  by rewrite IH.
Qed.

(** [add_knowledge] computes the same result whatever the order in
    which Python happens to enumerate the sets. *)
Lemma add_knowledge_order (o1 o2 : SetOrder) fuel ai c n :
  @add_knowledge o1 fuel ai c n = @add_knowledge o2 fuel ai c n.
Proof.
  unfold add_knowledge. rewrite (update_order o1 o2).
  destruct (inference _) as [nd a]. revert nd a.
  induction fuel as [|fuel IH]; intros nd a; destruct nd; simpl; try done.
  rewrite (update_order o1 o2). destruct (inference _). apply IH.
Qed.


(** * The loop of [add_knowledge] *)

Lemma extends_refl a : extends a a.
Proof. by repeat split. Qed.

Lemma extends_trans a b c : extends a b → extends b c → extends a c.
Proof.
  intros (?&?&?&?&?) (?&?&?&?&?). repeat split; try congruence; set_solver.
Qed.

Lemma shrinks_extends a b : shrinks a b → extends a b.
Proof. intros (?&?&?&?&?&?). by repeat split. Qed.

Lemma extends_inference a : extends a (inference a).2.
Proof. rewrite inference_spec. by repeat split. Qed.

Lemma clean_inference a : clean a → clean (inference a).2.
Proof.
  rewrite inference_spec. intros Hclean s c [_ Hs]%list_elem_of_filter.
  by apply Hclean.
Qed.

Lemma settled_inference a : settled a → settled (inference a).2.
Proof.
  rewrite inference_spec. intros Hset s [_ Hs]%list_elem_of_filter.
  by apply Hset.
Qed.

Lemma mark_safe_known ai c :
  c ∈ safes ai → (∀ s, s ∈ knowledge ai → c ∉ Sentence.cells s) →
  mark_safe ai c = (ai, 0).
Proof.
  intros Hc Habs. rewrite mark_safe_spec.
  rewrite without_safe_absent by done.
  apply hits_zero in Habs. rewrite Habs. destruct ai. simpl in *.
  f_equal. f_equal. set_solver.
Qed.

Lemma mark_mine_known ai c :
  c ∈ mines ai → (∀ s, s ∈ knowledge ai → c ∉ Sentence.cells s) →
  mark_mine ai c = (ai, 0).
Proof.
  intros Hc Habs. rewrite mark_mine_spec.
  rewrite without_mine_absent by done.
  apply hits_zero in Habs. rewrite Habs. destruct ai. simpl in *.
  f_equal. f_equal. set_solver.
Qed.

Section Loop.
Context {order : SetOrder}.

(** On a clean and settled state a pass of [update] does nothing. *)
Lemma update_pass_quiescent ai :
  clean ai → settled ai → update_pass ai = (ai, 0).
Proof.
  intros Hclean Hset. unfold update_pass.
  assert (∀ l, fold_left update_visit l (ai, 0) = (ai, 0)) as ->.
  { induction l as [|i l IH]; simpl; [done|].
    assert (update_visit (ai, 0) i = (ai, 0)) as ->; [|done].
    unfold update_visit. simpl.
    destruct (knowledge ai !! i) as [x|] eqn:Hx; [|done].
    apply list_elem_of_lookup_2 in Hx.
    assert (Sentence.known_safes x = ∅) as ->.
    { unfold Sentence.known_safes. case_decide; [|done].
      apply Hset; [done|by left]. }
    rewrite iter_empty. simpl.
    destruct (knowledge ai !! i) as [x'|] eqn:Hx'; [|done].
    apply list_elem_of_lookup_2 in Hx'.
    assert (Sentence.known_mines x' = ∅) as ->.
    { unfold Sentence.known_mines. case_decide; [|done].
      apply Hset; [done|by right]. }
    by rewrite iter_empty. }
  simpl.
  assert (∀ cs, (∀ c, c ∈ cs → c ∈ safes ai) →
                mark_safe_all cs (ai, 0) = (ai, 0)) as ->.
  { unfold mark_safe_all. induction cs as [|c cs IH]; intros Hcs; simpl;
      [done|].
    unfold count_mark_safe at 2. simpl. rewrite mark_safe_known.
    - simpl. apply IH. intros c' Hc'. apply Hcs. by right.
    - apply Hcs. left.
    - intros s Hs. apply Hclean; [done|]. apply elem_of_union_l, Hcs. left. }
  2: { intros c. by rewrite elem_of_iter. }
  simpl. unfold mark_mine_all.
  assert (∀ cs, (∀ c, c ∈ cs → c ∈ mines ai) →
                fold_left count_mark_mine cs (ai, 0) = (ai, 0)) as ->;
    [|done|intros c; by rewrite elem_of_iter].
  induction cs as [|c cs IH]; intros Hcs; simpl; [done|].
  unfold count_mark_mine at 2. simpl. rewrite mark_mine_known.
  - simpl. apply IH. intros c' Hc'. apply Hcs. by right.
  - apply Hcs. left.
  - intros s Hs. apply Hclean; [done|]. apply elem_of_union_r, Hcs. left.
Qed.

Lemma update_quiescent ai : clean ai → settled ai → update ai = ai.
Proof.
  intros Hclean Hset. rewrite update_unfold.
  by rewrite update_pass_quiescent.
Qed.

(** What holds of every state produced by [update] followed by
    [inference] holds when the loop exits. *)
Lemma add_knowledge_loop_exit (I : t → Prop) fuel nd a ai' :
  (∀ X, I (inference (update X)).2) → I a →
  add_knowledge_loop fuel nd a = Some ai' → I ai'.
Proof.
  intros Hstep. revert nd a.
  induction fuel as [|fuel IH]; intros nd a Ha; destruct nd as [|D nd];
    simpl; try done; try (by intros [= <-]).
  set (X := set_knowledge _ a). specialize (Hstep X).
  destruct (inference (update X)) as [nd' a']. by apply IH.
Qed.

Lemma add_knowledge_exit (I : t → Prop) fuel ai c n ai' :
  (∀ X, I (inference (update X)).2) →
  add_knowledge fuel ai c n = Some ai' → I ai'.
Proof.
  intros Hstep. unfold add_knowledge.
  pose proof (Hstep (ingest ai c n)) as H0.
  destruct (inference (update (ingest ai c n))) as [nd a].
  by apply add_knowledge_loop_exit.
Qed.

(** The loop exits right after a call of [inference] that returned an
    empty list. *)
Lemma add_knowledge_last_round fuel ai c n ai' :
  add_knowledge fuel ai c n = Some ai' →
  ∃ X, inference (update X) = ([], ai').
Proof.
  unfold add_knowledge.
  assert (∀ fuel nd a, (∃ X, inference (update X) = (nd, a)) →
            add_knowledge_loop fuel nd a = Some ai' →
            ∃ X, inference (update X) = ([], ai')) as Hloop.
  { clear. induction fuel as [|fuel IH]; intros nd a HX;
      destruct nd as [|D nd]; simpl; try done;
      try (by intros [= <-]).
    set (X := set_knowledge _ a).
    destruct (inference (update X)) as [nd' a'] eqn:Hinf.
    apply IH. by exists X. }
  destruct (inference (update (ingest ai c n))) as [nd a] eqn:Hinf.
  apply Hloop. by eexists.
Qed.

Lemma add_knowledge_loop_more_fuel fuel fuel' nd a ai' :
  (fuel ≤ fuel')%nat →
  add_knowledge_loop fuel nd a = Some ai' →
  add_knowledge_loop fuel' nd a = Some ai'.
Proof.
  revert fuel' nd a. induction fuel as [|fuel IH]; intros fuel' nd a Hle;
    destruct nd as [|D nd]; simpl; try done.
  - intros [= <-]. by destruct fuel'.
  - intros [= <-]. by destruct fuel'.
  - destruct fuel' as [|fuel']; [lia|]. simpl.
    destruct (inference _) as [nd' a']. apply IH. lia.
Qed.

Lemma extends_update a : extends a (update a).
Proof. apply shrinks_extends, update_shrinks. Qed.

Lemma extends_add_knowledge_loop fuel nd a ai' :
  add_knowledge_loop fuel nd a = Some ai' → extends a ai'.
Proof.
  revert nd a. induction fuel as [|fuel IH]; intros nd a;
    destruct nd as [|D nd]; simpl; try done;
    try (intros [= <-]; apply extends_refl).
  set (X := set_knowledge _ a).
  pose proof (extends_update X) as H1.
  pose proof (extends_inference (update X)) as H2.
  destruct (inference (update X)) as [nd' a']. intros Hloop.
  apply IH in Hloop.
  assert (extends a X) as H0 by (by repeat split).
  eapply extends_trans; [apply H0|]. eapply extends_trans; [apply H1|].
  eapply extends_trans; [apply H2|]. done.
Qed.

Lemma extends_add_knowledge fuel ai c n ai' :
  add_knowledge fuel ai c n = Some ai' → extends (ingest ai c n) ai'.
Proof.
  unfold add_knowledge.
  pose proof (extends_update (ingest ai c n)) as H1.
  pose proof (extends_inference (update (ingest ai c n))) as H2.
  destruct (inference (update (ingest ai c n))) as [nd a]. intros Hloop.
  apply extends_add_knowledge_loop in Hloop.
  eapply extends_trans; [|done]. by eapply extends_trans.
Qed.

End Loop.


(** * Termination of [add_knowledge] on consistent knowledge *)

Lemma elem_of_cover c ks :
  c ∈ cover ks ↔ ∃ s, s ∈ ks ∧ c ∈ Sentence.cells s.
Proof.
  unfold cover. rewrite elem_of_union_list. split.
  - intros (X & (s & -> & Hs)%list_elem_of_fmap & Hc). by exists s.
  - intros (s & Hs & Hc). exists (Sentence.cells s). split; [|done].
    apply list_elem_of_fmap. by exists s.
Qed.

Lemma elem_of_shapes X ks :
  X ∈ shapes ks ↔ ∃ s, s ∈ ks ∧ X = Sentence.cells s.
Proof.
  unfold shapes. rewrite elem_of_list_to_set, list_elem_of_fmap.
  split; intros (s & ? & ?); by exists s.
Qed.

Lemma elem_of_subsets (l : list cell) (X : gset cell) :
  X ⊆ list_to_set l → X ∈ subsets l.
Proof.
  revert X. induction l as [|c l IH]; intros X HX; simpl in *.
  - apply elem_of_singleton. set_solver.
  - apply elem_of_union. destruct (decide (c ∈ X)) as [Hc|Hc].
    + right. apply elem_of_map. exists (X ∖ {[c]}). split.
      * apply set_eq. intros p. destruct (decide (p = c)); set_solver.
      * apply IH. set_solver.
    + left. apply IH. set_solver.
Qed.

Lemma shapes_subsets ks : shapes ks ⊆ subsets (elements (cover ks)).
Proof.
  intros X (s & Hs & ->)%elem_of_shapes. apply elem_of_subsets.
  intros c Hc. apply elem_of_list_to_set, elem_of_elements, elem_of_cover.
  by exists s.
Qed.

Lemma memberships_shrink ks0 ks :
  Forall2 (λ s0 s, Sentence.cells s ⊆ Sentence.cells s0) ks0 ks →
  (memberships ks ≤ memberships ks0)%nat ∧
  ((memberships ks < memberships ks0)%nat →
   ∃ s0 s c, s0 ∈ ks0 ∧ c ∈ Sentence.cells s0 ∧ (c ∉ Sentence.cells s) ∧
             ∃ i, ks0 !! i = Some s0 ∧ ks !! i = Some s).
Proof.
  unfold memberships.
  induction 1 as [|s0 s ks0 ks Hsub _ [IHle IHlt]]; simpl; [split; [done|lia]|].
  pose proof (subseteq_size _ _ Hsub) as Hsize. split; [lia|].
  intros Hlt.
  destruct (decide (size (Sentence.cells s) < size (Sentence.cells s0))%nat)
    as [Hs|Hs].
  - destruct (size_pos_elem_of (Sentence.cells s0 ∖ Sentence.cells s))
      as (c & [Hc Hnc]%elem_of_difference).
    { rewrite size_difference by done. lia. }
    exists s0, s, c. repeat split; [left|done|done|]. by exists 0%nat.
  - destruct IHlt as (s0' & s' & c & Hin & Hc & Hnc & i & Hi0 & Hi); [lia|].
    exists s0', s', c. repeat split; [by right|done|done|]. by exists (S i).
Qed.

Lemma filter_all {A : Type} (P : A → Prop) `{!∀ x, Decision (P x)}
    (l : list A) :
  (∀ x, x ∈ l → P x) → filter P l = l.
Proof.
  induction l as [|a l IH]; intros Hall; [done|].
  rewrite filter_cons, decide_True by (apply Hall; left).
  f_equal. apply IH. intros x Hx. apply Hall. by right.
Qed.

Lemma sound_same_cells M s1 s2 :
  sound M s1 → sound M s2 → Sentence.cells s1 = Sentence.cells s2 → s1 = s2.
Proof.
  unfold sound. intros H1 H2 Heq. apply Sentence_eq; [done|]. congruence.
Qed.

Section Termination.
Context {order : SetOrder} (M : gset cell).

Lemma pending_step X :
  consistent M X →
  pending M (inference (update X)).1 (inference (update X)).2.
Proof.
  intros HX. apply consistent_update in HX.
  pose proof (update_clean X) as Hclean.
  pose proof (update_settled X) as Hset.
  destruct (consistent_inference M _ HX) as [Hcons Hnd].
  pose proof (clean_inference _ Hclean) as Hclean'.
  pose proof (settled_inference _ Hset) as Hset'.
  revert Hcons Hnd Hclean' Hset'. rewrite inference_spec. simpl.
  intros Hcons Hnd Hclean' Hset'.
  split; [done|]. split; [done|]. split; [done|]. split.
  - simpl. intros s [Hne _]%list_elem_of_filter. done.
  - intros D HD. split; [by apply Hnd|].
    apply elem_of_emitted in HD
      as (A & B & (HA & HB & Hne & HAe & HBe & Hsub) & -> & Hnot).
    destruct HX as [Hks _].
    split; [|split].
    + simpl. intros Hempty. apply Hne.
      apply (sound_same_cells M); [by apply Hks..|].
      clear -Hsub Hempty. apply set_eq. intros p. split; [|apply Hsub].
      intros Hp. destruct (decide (p ∈ Sentence.cells B)) as [|Hn]; [done|].
      assert (p ∈ Sentence.cells A ∖ Sentence.cells B) as Hin
        by (by apply elem_of_difference).
      rewrite Hempty in Hin. by apply not_elem_of_empty in Hin.
    + simpl. intros [_ Hin]%list_elem_of_filter. done.
    + simpl. intros c Hc. apply elem_of_cover. exists A. split.
      * by apply list_elem_of_filter.
      * clear -Hc. set_solver.
Qed.

Lemma memberships_update X :
  (memberships (knowledge (update X)) ≤ memberships (knowledge X))%nat.
Proof.
  destruct (update_shrinks X) as (_ & _ & _ & _ & _ & Hks).
  apply memberships_shrink. eapply Forall2_impl; [done|]. by intros ?? [? _].
Qed.

(** When the first pass of [update] removes something, a cell leaves
    the cover for good. *)
Lemma update_uncovers X :
  (update_pass X).2 ≠ 0 →
  ∃ c, c ∈ cover (knowledge X) ∧ c ∉ cover (knowledge (update X)).
Proof.
  intros Hnz.
  assert (memberships (knowledge (update X)) < memberships (knowledge X))%nat
    as Hlt.
  { rewrite update_unfold, decide_False by done.
    pose proof (memberships_update (update_pass X).1).
    pose proof (update_pass_count X). lia. }
  destruct (update_shrinks X) as (_ & _ & _ & _ & _ & Hks).
  destruct (memberships_shrink (knowledge X) (knowledge (update X)))
    as [_ Hex].
  { eapply Forall2_impl; [done|]. by intros ?? [? _]. }
  destruct (Hex Hlt) as (s0 & s & c & Hs0 & Hc & Hnc & i & Hi0 & Hi).
  exists c. split; [apply elem_of_cover; by exists s0|].
  pose proof (Forall2_lookup_lr _ _ _ _ _ _ Hks Hi0 Hi) as [_ Hgone].
  intros (s' & Hs' & Hc')%elem_of_cover.
  apply (update_clean X s' c); [done| |done]. set_solver.
Qed.

Lemma cover_update X : cover (knowledge (update X)) ⊆ cover (knowledge X).
Proof.
  destruct (update_shrinks X) as (_ & _ & _ & _ & _ & Hks).
  intros c (s & [i Hi]%list_elem_of_lookup & Hc)%elem_of_cover.
  destruct (Forall2_lookup_r _ _ _ _ _ Hks Hi) as (s0 & Hi0 & Hsub & _).
  apply elem_of_cover. exists s0. split; [by eapply list_elem_of_lookup_2|].
  set_solver.
Qed.

(** One round of the loop either uncovers a cell or adds a new shape
    without changing the cover. *)
Lemma round_progress nd a :
  pending M nd a → nd ≠ [] →
  let a' := (inference (update (set_knowledge (λ ks, ks ++ nd) a))).2 in
  (size (cover (knowledge a')) < size (cover (knowledge a)))%nat ∨
  (cover (knowledge a') = cover (knowledge a) ∧
   shapes (knowledge a) ⊂ shapes (knowledge a')).
Proof.
  intros (Hcons & Hclean & Hset & Hne & Hnd) Hnil.
  set (X := set_knowledge _ a). simpl.
  assert (cover (knowledge X) = cover (knowledge a)) as HcovX.
  { apply set_eq. intros c. rewrite !elem_of_cover. split.
    - intros (s & [Hs|Hs]%elem_of_app & Hc); [by exists s|].
      apply elem_of_cover. apply (Hnd s Hs). done.
    - intros (s & Hs & Hc). exists s. split; [|done].
      simpl. apply elem_of_app. by left. }
  rewrite inference_spec. simpl.
  assert (cover (filter (λ x, Sentence.cells x ≠ ∅) (knowledge (update X)))
          ⊆ cover (knowledge (update X))) as Hfilter.
  { intros c (s & [_ Hs]%list_elem_of_filter & Hc)%elem_of_cover.
    apply elem_of_cover. by exists s. }
  destruct (decide ((update_pass X).2 = 0)) as [Hz|Hnz].
  - right.
    destruct (update_pass_zero X Hz) as (Heq & _ & _).
    assert (update X = X) as ->.
    { rewrite update_unfold, decide_True by done. done. }
    assert (filter (λ x, Sentence.cells x ≠ ∅) (knowledge X) = knowledge X)
      as ->.
    { apply filter_all. intros s [Hs|Hs]%elem_of_app; [by apply Hne|].
      by apply (Hnd s Hs). }
    split; [done|]. split.
    + intros Y (s & Hs & ->)%elem_of_shapes. apply elem_of_shapes.
      exists s. split; [|done]. simpl. apply elem_of_app. by left.
    + destruct nd as [|D nd]; [done|]. intros Hsub.
      destruct (Hnd D) as (HDs & _ & HDn & _); [left|].
      assert (Sentence.cells D ∈ shapes (knowledge a)) as Hin.
      { apply Hsub, elem_of_shapes. exists D. split; [|done].
        simpl. apply elem_of_app. right. left. }
      apply elem_of_shapes in Hin as (s & Hs & Heq').
      apply HDn. destruct Hcons as [Hks _].
      by rewrite (sound_same_cells M D s HDs (Hks s Hs) Heq').
  - left. destruct (update_uncovers X Hnz) as (c & Hc & Hnc).
    pose proof (cover_update X) as Hsub.
    apply subset_size. rewrite <- HcovX. split.
    + set_solver.
    + intros Hrev. apply Hnc, Hfilter, Hrev, Hc.
Qed.

Lemma add_knowledge_loop_terminates nd a :
  pending M nd a → ∃ fuel ai', add_knowledge_loop fuel nd a = Some ai'.
Proof.
  remember (size (cover (knowledge a))) as n eqn:Hn.
  remember (size (subsets (elements (cover (knowledge a)))
                  ∖ shapes (knowledge a))) as m eqn:Hm.
  revert m nd a Hn Hm.
  induction n as [n IHn] using lt_wf_ind. intros m.
  induction m as [m IHm] using lt_wf_ind. intros nd a Hn Hm Hpend.
  destruct nd as [|D nd]; [by exists 0%nat, a|].
  pose proof (round_progress (D :: nd) a Hpend ltac:(done)) as Hprog.
  pose proof (pending_step (set_knowledge (λ ks, ks ++ D :: nd) a)) as Hnext.
  simpl in Hprog.
  destruct (inference (update (set_knowledge (λ ks, ks ++ D :: nd) a)))
    as [nd' a'] eqn:Hinf. simpl in *.
  assert (pending M nd' a') as Hpend'.
  { apply Hnext. destruct Hpend as (Hcons & _ & _ & _ & Hnd).
    apply consistent_append; [done|]. intros D' HD'. by apply Hnd. }
  assert (∃ fuel ai', add_knowledge_loop fuel nd' a' = Some ai')
    as (fuel & r & Hr).
  { destruct Hprog as [Hlt|[Hcov Hsh]].
    - eapply (IHn (size (cover (knowledge a')))); [lia|done..].
    - eapply (IHm (size (subsets (elements (cover (knowledge a')))
                         ∖ shapes (knowledge a')))); [|by rewrite Hcov|done..].
      subst m. rewrite Hcov. apply subset_size.
      pose proof (shapes_subsets (knowledge a')) as Hin. rewrite Hcov in Hin.
      destruct Hsh as [Hsh1 Hsh2]. split; [set_solver|].
      intros Hrev. apply Hsh2. intros Y HY.
      destruct (decide (Y ∈ shapes (knowledge a))) as [|Hno]; [done|].
      exfalso. assert (Y ∈ subsets (elements (cover (knowledge a)))
                           ∖ shapes (knowledge a')) as Hbad
        by (apply Hrev; set_solver).
      set_solver. }
  exists (S fuel), r. simpl. by rewrite Hinf.
Qed.

(** With a truthful observation on consistent knowledge,
    [add_knowledge] returns. *)
Lemma add_knowledge_terminates ai c n :
  consistent M ai → c ∉ M → n = Z.of_nat (size (friends ai c ∩ M)) →
  ∃ fuel ai', add_knowledge fuel ai c n = Some ai'.
Proof.
  intros Hcons Hc Hn. unfold add_knowledge.
  pose proof (pending_step (ingest ai c n)
                (consistent_ingest M ai c n Hc Hn Hcons)) as Hpend.
  destruct (inference (update (ingest ai c n))) as [nd a].
  by apply add_knowledge_loop_terminates.
Qed.

End Termination.


(** * Results on [add_knowledge] and on the states a caller observes *)

Lemma clean_mark_safe ai c : clean ai → clean (mark_safe ai c).1.
Proof.
  intros Hclean. rewrite mark_safe_spec. simpl.
  intros s' c' (s & -> & Hs)%list_elem_of_fmap Hc'. simpl in *.
  rewrite cells_without_safe. destruct (decide (c' = c)) as [->|Hne].
  - set_solver.
  - assert (c' ∉ Sentence.cells s) by (apply Hclean; set_solver).
    set_solver.
Qed.

Lemma clean_mark_mine ai c : clean ai → clean (mark_mine ai c).1.
Proof.
  intros Hclean. rewrite mark_mine_spec. simpl.
  intros s' c' (s & -> & Hs)%list_elem_of_fmap Hc'. simpl in *.
  rewrite cells_without_mine. destruct (decide (c' = c)) as [->|Hne].
  - set_solver.
  - assert (c' ∉ Sentence.cells s) by (apply Hclean; set_solver).
    set_solver.
Qed.

Lemma example_game_wf : Minesweeper.wf example_game.
Proof.
  split; [reflexivity|]. split; [by repeat constructor|].
  vm_compute. reflexivity.
Qed.

Lemma example_first_move (order : SetOrder) :
  add_knowledge 0 (init 2 3) (0, 0)
    (Minesweeper.nearby_mines example_game (0, 0)) = Some example_state1.
Proof.
  rewrite (add_knowledge_order order elements_order).
  vm_compute. reflexivity.
Qed.

Lemma example_second_move (order : SetOrder) :
  add_knowledge 0 example_state1 (1, 0)
    (Minesweeper.nearby_mines example_game (1, 0)) = Some example_state2.
Proof.
  rewrite (add_knowledge_order order elements_order).
  vm_compute. reflexivity.
Qed.

Lemma example_truthful (order : SetOrder) : truthful example_game example_state2.
Proof.
  eapply truthful_add_knowledge; [| | |apply example_second_move].
  - eapply truthful_add_knowledge; [apply truthful_init| |
      |apply example_first_move].
    + simpl. by intros [=]%elem_of_singleton.
    + apply not_elem_of_empty.
  - simpl. by intros [=]%elem_of_singleton.
  - simpl. by intros [=]%elem_of_singleton.
Qed.

Lemma example_observable (order : SetOrder) : observable example_state2.
Proof.
  eapply observable_add_knowledge; [|apply example_second_move].
  eapply observable_add_knowledge; [|apply example_first_move].
  apply observable_init.
Qed.

Section Observable.
Context {order : SetOrder}.

Lemma truthful_consistent g ai :
  Minesweeper.wf g → truthful g ai →
  consistent (Minesweeper.mines g) ai ∧
  height ai = Minesweeper.height g ∧ width ai = Minesweeper.width g.
Proof.
  intros Hwf. induction 1 as [|ai fuel c ai' _ (Hcons & Hh & Hw) Hc _ Hadd
                              |ai c _ (Hcons & Hh & Hw) Hc
                              |ai c _ (Hcons & Hh & Hw) Hc].
  - split; [|done]. split; [|split]; simpl.
    + intros s Hs. by apply not_elem_of_nil in Hs.
    + apply disjoint_empty_l.
    + apply empty_subseteq.
  - destruct (extends_add_knowledge _ _ _ _ _ Hadd) as (Hh' & Hw' & _).
    rewrite ingest_spec in Hh', Hw'. simpl in *. split; [|split; congruence].
    eapply consistent_add_knowledge; [done| |done|done].
    by apply nearby_mines_friends.
  - split; [by apply consistent_mark_safe|]. by rewrite mark_safe_spec.
  - split; [by apply consistent_mark_mine|]. by rewrite mark_mine_spec.
Qed.

End Observable.

(** C3: in every state that a caller can observe (a fresh object, or the
    state left by a returned call of [add_knowledge], [mark_safe] or
    [mark_mine], whatever the arguments), no cell of [safes] or [mines]
    occurs in the cell set of a sentence of the knowledge list. *)
Theorem known_cells_are_absent_from_sentences `{SetOrder}
    (ai : MinesweeperAI.t) :
  observable ai →
  ∀ s c, s ∈ knowledge ai → c ∈ safes ai ∪ mines ai → c ∉ Sentence.cells s.
Proof.
  intros Hobs. change (clean ai).
  induction Hobs as [h w|ai fuel c n ai' _ _ Hadd|ai c _ IH|ai c _ IH].
  - intros s c Hs. by apply not_elem_of_nil in Hs.
  - apply (add_knowledge_exit clean _ _ _ _ _ ltac:(
      intros X; apply clean_inference, update_clean) Hadd).
  - by apply clean_mark_safe.
  - by apply clean_mark_mine.
Qed.

Lemma known_cells_are_absent_from_sentences_witness :
  @observable elements_order example_state2 ∧
  ∀ s c, s ∈ knowledge example_state2 →
         c ∈ safes example_state2 ∪ mines example_state2 →
         c ∉ Sentence.cells s.
Proof.
  split; [apply example_observable|].
  apply (@known_cells_are_absent_from_sentences elements_order example_state2).
  apply example_observable.
Defined.

(** C4: when the caller is truthful about a board (every call of
    [add_knowledge] gives a cell not played before, free of a mine, with
    the count reported by [nearby_mines]; cells are marked safe or mine
    in accordance with the board), every sentence of the knowledge list
    at rest satisfies [0 <= count <= |cells|]; and from such a state a
    truthful call of [add_knowledge] does return. *)
Theorem truthful_counts_in_range `{SetOrder}
    (g : Minesweeper.t) (ai : MinesweeperAI.t) :
  Minesweeper.wf g → truthful g ai →
  (∀ s, s ∈ knowledge ai →
        0 ≤ Sentence.count s ≤ Z.of_nat (size (Sentence.cells s))) ∧
  (∀ c, c ∉ Minesweeper.mines g →
        ∃ fuel ai', add_knowledge fuel ai c (Minesweeper.nearby_mines g c)
                    = Some ai').
Proof.
  intros Hwf Htr.
  destruct (truthful_consistent g ai Hwf Htr) as (Hcons & Hh & Hw). split.
  - intros s Hs. apply (sound_bounds (Minesweeper.mines g)).
    by apply Hcons.
  - intros c Hc. apply (add_knowledge_terminates (Minesweeper.mines g));
      [done..|]. by apply nearby_mines_friends.
Qed.

Lemma truthful_counts_in_range_witness :
  Minesweeper.wf example_game ∧
  @truthful elements_order example_game example_state2 ∧
  (∀ s, s ∈ knowledge example_state2 →
        0 ≤ Sentence.count s ≤ Z.of_nat (size (Sentence.cells s))) ∧
  (∀ c, c ∉ Minesweeper.mines example_game →
        ∃ fuel ai', @add_knowledge elements_order fuel example_state2 c
                      (Minesweeper.nearby_mines example_game c) = Some ai').
Proof.
  split; [apply example_game_wf|]. split; [apply example_truthful|].
  apply (@truthful_counts_in_range elements_order example_game example_state2).
  - apply example_game_wf.
  - apply example_truthful.
Defined.

(** C5: when the caller is truthful about a board, [safes] and [mines]
    are disjoint in every state left by a returned call of
    [add_knowledge], [mark_safe] or [mark_mine]; [make_safe_move] and
    [make_random_move] only read the state. *)
Theorem truthful_safes_mines_disjoint `{SetOrder}
    (g : Minesweeper.t) (ai : MinesweeperAI.t) :
  Minesweeper.wf g → truthful g ai → safes ai ## mines ai.
Proof.
  intros Hwf Htr.
  destruct (truthful_consistent g ai Hwf Htr) as ((_ & Hs & Hm) & _).
  set_solver.
Qed.

Lemma truthful_safes_mines_disjoint_witness :
  Minesweeper.wf example_game ∧
  @truthful elements_order example_game example_state2 ∧
  safes example_state2 ## mines example_state2.
Proof.
  split; [apply example_game_wf|]. split; [apply example_truthful|].
  apply (@truthful_safes_mines_disjoint elements_order example_game).
  - apply example_game_wf.
  - apply example_truthful.
Defined.

(** C6, as the code has it: [inference] never returns a sentence that is
    equal to a sentence of the knowledge list it was called on, so a
    derivation that is already in the list is not appended again. *)
Theorem inference_emits_only_new_sentences (ai : MinesweeperAI.t) :
  Forall (λ D, (D ∉ knowledge ai) ∧ (D ∉ knowledge (inference ai).2))
         (inference ai).1.
Proof.
  apply Forall_forall. intros D HD. rewrite inference_spec in *.
  simpl in *. apply elem_of_emitted in HD as (A & B & _ & _ & Hnot).
  split; [done|]. intros [_ Hin]%list_elem_of_filter. done.
Qed.

(** C6 fails as stated: on the two-by-three board with one mine at
    [(0, 1)], after the truthful calls [add_knowledge((0, 0), 1)] and
    [add_knowledge((1, 0), 1)] the knowledge list holds the sentence
    [{(0, 1), (1, 1)} = 1] twice, whatever the iteration order of sets. *)
Lemma equal_sentences_at_rest :
  (∀ order : SetOrder,
     @add_knowledge order 0 (init 2 3) (0, 0)
       (Minesweeper.nearby_mines example_game (0, 0)) = Some example_state1) ∧
  (∀ order : SetOrder,
     @add_knowledge order 0 example_state1 (1, 0)
       (Minesweeper.nearby_mines example_game (1, 0)) = Some example_state2) ∧
  knowledge example_state2 !! 0%nat = knowledge example_state2 !! 1%nat ∧
  ¬ NoDup (knowledge example_state2).
Proof.
  split; [apply example_first_move|]. split; [apply example_second_move|].
  split; [reflexivity|]. intros Hnd. apply NoDup_cons in Hnd as [Hnot _].
  apply Hnot. left.
Qed.

(** * A derivation returned twice *)

Lemma example_wide_game_wf : Minesweeper.wf example_wide_game.
Proof.
  split; [reflexivity|]. split; [by repeat constructor|].
  vm_compute. reflexivity.
Qed.

Lemma example_wide_first_move (order : SetOrder) :
  add_knowledge 0 (init 2 4) (0, 0)
    (Minesweeper.nearby_mines example_wide_game (0, 0))
  = Some example_wide_state1.
Proof.
  rewrite (add_knowledge_order order elements_order).
  vm_compute. reflexivity.
Qed.

Lemma example_wide_second_move (order : SetOrder) :
  add_knowledge 0 example_wide_state1 (1, 0)
    (Minesweeper.nearby_mines example_wide_game (1, 0))
  = Some example_wide_state2.
Proof.
  rewrite (add_knowledge_order order elements_order).
  vm_compute. reflexivity.
Qed.

Lemma example_wide_third_move (order : SetOrder) :
  add_knowledge 1 example_wide_state2 (0, 2)
    (Minesweeper.nearby_mines example_wide_game (0, 2))
  = Some example_wide_state4.
Proof.
  rewrite (add_knowledge_order order elements_order).
  vm_compute. reflexivity.
Qed.

Lemma example_wide_truthful (order : SetOrder) :
  truthful example_wide_game example_wide_state2.
Proof.
  eapply truthful_add_knowledge; [| | |apply example_wide_second_move].
  - eapply truthful_add_knowledge; [apply truthful_init| |
      |apply example_wide_first_move].
    + simpl. set_solver.
    + apply not_elem_of_empty.
  - simpl. set_solver.
  - simpl. by intros [=]%elem_of_singleton.
Qed.

(** C1 fails as stated: a derivation that was already produced earlier in
    the same pass is returned again.  On the two-by-four board with mines
    at [(0, 1)] and [(1, 3)] the truthful calls [add_knowledge((0, 0), 1)]
    and [add_knowledge((1, 0), 1)] return; the third truthful call,
    [add_knowledge((0, 2), 2)], calls [inference] on a list of three
    sentences, and [inference] returns the sentence
    [{(0, 3), (1, 2), (1, 3)} = 1] twice.  Both copies are appended to
    the knowledge list, and the call returns with them. *)
Lemma inference_returns_a_derivation_twice :
  Minesweeper.wf example_wide_game ∧
  (∀ order : SetOrder, @truthful order example_wide_game example_wide_state2) ∧
  ((0, 2) ∉ Minesweeper.mines example_wide_game) ∧
  ((0, 2) ∉ moves_made example_wide_state2) ∧
  (∀ order : SetOrder,
     @update order
       (ingest example_wide_state2 (0, 2)
          (Minesweeper.nearby_mines example_wide_game (0, 2)))
     = example_wide_state3) ∧
  (inference example_wide_state3).1
  = [Sentence.mk {[ (0, 3); (1, 2); (1, 3) ]} 1;
     Sentence.mk {[ (0, 3); (1, 2); (1, 3) ]} 1] ∧
  ¬ NoDup (inference example_wide_state3).1 ∧
  (∀ order : SetOrder,
     @add_knowledge order 1 example_wide_state2 (0, 2)
       (Minesweeper.nearby_mines example_wide_game (0, 2))
     = Some example_wide_state4).
Proof.
  split; [apply example_wide_game_wf|].
  split; [apply example_wide_truthful|].
  split; [simpl; set_solver|]. split; [simpl; set_solver|].
  split.
  { intros order. rewrite (update_order order elements_order).
    vm_compute. reflexivity. }
  assert ((inference example_wide_state3).1
          = [Sentence.mk {[ (0, 3); (1, 2); (1, 3) ]} 1;
             Sentence.mk {[ (0, 3); (1, 2); (1, 3) ]} 1]) as Hinf
    by (vm_compute; reflexivity).
  split; [exact Hinf|]. split; [|apply example_wide_third_move].
  rewrite Hinf. intros Hnd. apply NoDup_cons in Hnd as [Hnot _].
  apply Hnot. left.
Qed.

(** * The loop of [add_knowledge], round by round *)

Lemma size_grows (X Y : gset cell) (c : cell) :
  X ⊆ Y ∪ {[c]} → (size X ≤ size Y + 1)%nat.
Proof.
  intros Hsub%subseteq_size. rewrite size_union_alt in Hsub.
  assert (size (({[c]} : gset cell) ∖ Y) ≤ 1)%nat.
  { rewrite <- (size_singleton (C:=gset cell) c). apply subseteq_size.
    set_solver. }
  lia.
Qed.

Lemma size_adds (X Y : gset cell) (c : cell) :
  X ∪ {[c]} ⊆ Y → c ∉ X → (size X + 1 ≤ size Y)%nat.
Proof.
  intros Hsub%subseteq_size Hc. rewrite size_union in Hsub by set_solver.
  rewrite size_singleton in Hsub. lia.
Qed.

Lemma lowered_refl Sf Mn s : lowered Sf Mn s s.
Proof.
  unfold lowered.
  assert (Sentence.cells s ∖ Sentence.cells s = ∅) as -> by set_solver.
  split; [done|]. split; [set_solver|].
  assert ((∅ : gset cell) ∩ (Mn ∖ Sf) = ∅) as -> by set_solver.
  assert ((∅ : gset cell) ∩ Mn = ∅) as -> by set_solver.
  rewrite size_empty. lia.
Qed.

Lemma lowered_without_safe Sf Mn c s0 s :
  lowered Sf Mn s0 s → lowered (Sf ∪ {[c]}) Mn s0 (without_safe c s).
Proof.
  intros (Hsub & Hgone & Hlo & Hhi). unfold lowered.
  rewrite cells_without_safe, count_without_safe.
  split; [set_solver|]. split; [|split].
  - intros x [Hx0 Hx]%elem_of_difference.
    destruct (decide (x = c)) as [->|Hne]; [set_solver|].
    assert (x ∈ Sf ∪ Mn) by (apply Hgone; set_solver). set_solver.
  - etrans; [|exact Hlo]. apply Nat2Z.inj_le, subseteq_size.
    intros x [[Hx0 Hx]%elem_of_difference [HxM HxS]%elem_of_difference]
      %elem_of_intersection.
    assert (x ≠ c) by set_solver.
    assert (x ∉ Sentence.cells s) by set_solver. set_solver.
  - etrans; [exact Hhi|]. apply Nat2Z.inj_le, subseteq_size. set_solver.
Qed.

Lemma lowered_without_mine Sf Mn c s0 s :
  lowered Sf Mn s0 s → lowered Sf (Mn ∪ {[c]}) s0 (without_mine c s).
Proof.
  intros (Hsub & Hgone & Hlo & Hhi). unfold lowered.
  rewrite cells_without_mine, count_without_mine.
  split; [set_solver|]. split; [|split].
  - intros x [Hx0 Hx]%elem_of_difference.
    destruct (decide (x = c)) as [->|Hne]; [set_solver|].
    assert (x ∈ Sf ∪ Mn) by (apply Hgone; set_solver). set_solver.
  - destruct (decide (c ∈ Sentence.cells s)) as [Hc|Hc].
    + assert (size ((Sentence.cells s0 ∖ (Sentence.cells s ∖ {[c]}))
                      ∩ ((Mn ∪ {[c]}) ∖ Sf))
              ≤ size ((Sentence.cells s0 ∖ Sentence.cells s) ∩ (Mn ∖ Sf)) + 1)%nat;
        [|lia].
      apply (size_grows _ _ c).
      intros x [[Hx0 Hx]%elem_of_difference [HxM HxS]%elem_of_difference]
        %elem_of_intersection.
      destruct (decide (x = c)) as [->|Hne]; [set_solver|].
      assert (x ∉ Sentence.cells s) by set_solver. set_solver.
    + etrans; [|exact Hlo]. apply Nat2Z.inj_le, subseteq_size.
      intros x [[Hx0 Hx]%elem_of_difference [HxM HxS]%elem_of_difference]
        %elem_of_intersection.
      assert (x ∉ Sentence.cells s).
      { destruct (decide (x = c)) as [->|Hne]; [done|]. set_solver. }
      assert (x ∈ Sf ∪ Mn) by (apply Hgone; set_solver). set_solver.
  - destruct (decide (c ∈ Sentence.cells s)) as [Hc|Hc].
    + assert (size ((Sentence.cells s0 ∖ Sentence.cells s) ∩ Mn) + 1
              ≤ size ((Sentence.cells s0 ∖ (Sentence.cells s ∖ {[c]}))
                        ∩ (Mn ∪ {[c]})))%nat; [|lia].
      apply (size_adds _ _ c); [|set_solver].
      intros x [[[Hx0 Hx]%elem_of_difference HxM]%elem_of_intersection
               | ->%elem_of_singleton]%elem_of_union; set_solver.
    + etrans; [exact Hhi|]. apply Nat2Z.inj_le, subseteq_size. set_solver.
Qed.

Lemma lowered_trans Sf Mn Sf' Mn' s0 s1 s2 :
  Sf ⊆ Sf' → Mn ⊆ Mn' →
  lowered Sf Mn s0 s1 → lowered Sf' Mn' s1 s2 → lowered Sf' Mn' s0 s2.
Proof.
  intros HS HM (Hsub1 & Hgone1 & Hlo1 & Hhi1) (Hsub2 & Hgone2 & Hlo2 & Hhi2).
  unfold lowered. split; [set_solver|].
  assert (∀ x, x ∈ Sentence.cells s0 ∖ Sentence.cells s2 →
               x ∈ Sentence.cells s0 ∖ Sentence.cells s1 ∨
               x ∈ Sentence.cells s1 ∖ Sentence.cells s2) as Hsplit.
  { intros x [Hx0 Hx2]%elem_of_difference.
    destruct (decide (x ∈ Sentence.cells s1)); [right|left]; set_solver. }
  split; [|split].
  - intros x [Hx|Hx]%Hsplit; [apply Hgone1 in Hx|apply Hgone2 in Hx];
      set_solver.
  - assert (size ((Sentence.cells s0 ∖ Sentence.cells s2) ∩ (Mn' ∖ Sf'))
            ≤ size ((Sentence.cells s0 ∖ Sentence.cells s1) ∩ (Mn ∖ Sf))
              + size ((Sentence.cells s1 ∖ Sentence.cells s2) ∩ (Mn' ∖ Sf')))%nat;
      [|lia].
    rewrite <- size_union by set_solver. apply subseteq_size.
    intros x [Hx [HxM HxS]%elem_of_difference]%elem_of_intersection.
    apply Hsplit in Hx as [Hx|Hx]; [|set_solver].
    pose proof (Hgone1 x Hx). set_solver.
  - assert (size ((Sentence.cells s0 ∖ Sentence.cells s1) ∩ Mn)
              + size ((Sentence.cells s1 ∖ Sentence.cells s2) ∩ Mn')
            ≤ size ((Sentence.cells s0 ∖ Sentence.cells s2) ∩ Mn'))%nat;
      [|lia].
    rewrite <- size_union by set_solver. apply subseteq_size. set_solver.
Qed.

Section Rounds.
Context {order : SetOrder}.

Lemma update_pass_lowered ks0 ai :
  Forall2 (lowered (safes ai) (mines ai)) ks0 (knowledge ai) →
  Forall2 (lowered (safes (update_pass ai).1) (mines (update_pass ai).1))
    ks0 (knowledge (update_pass ai).1).
Proof.
  intros Hai.
  apply (update_pass_ind
           (λ st, Forall2 (lowered (safes st.1) (mines st.1))
                    ks0 (knowledge st.1))
           (λ _, True) (λ _, True)); try done.
  - intros st c Hst _. rewrite count_mark_safe_spec. simpl.
    apply Forall2_fmap_r. eapply Forall2_impl; [done|].
    intros s0 s Hs. by apply lowered_without_safe.
  - intros st c Hst _. rewrite count_mark_mine_spec. simpl.
    apply Forall2_fmap_r. eapply Forall2_impl; [done|].
    intros s0 s Hs. by apply lowered_without_mine.
Qed.

Lemma update_lowered ai :
  Forall2 (lowered (safes (update ai)) (mines (update ai)))
    (knowledge ai) (knowledge (update ai)).
Proof.
  apply (update_ind (λ a, Forall2 (lowered (safes a) (mines a))
                            (knowledge ai) (knowledge a))).
  - intros a. apply update_pass_lowered.
  - apply Forall2_same_length_lookup_2; [done|].
    intros i s0 s H0 H1. assert (s0 = s) as -> by congruence.
    apply lowered_refl.
Qed.

(** [update] leaves of every sentence its residue, at the same
    position. *)
Lemma update_residue ai :
  Forall2 (residue (update ai)) (knowledge ai) (knowledge (update ai)).
Proof.
  pose proof (update_lowered ai) as Hlow.
  pose proof (update_clean ai) as Hclean.
  apply Forall2_same_length_lookup_2; [by eapply Forall2_length|].
  intros i s0 s H0 H1.
  pose proof (Forall2_lookup_lr _ _ _ _ _ _ Hlow H0 H1) as Hl.
  split; [|done]. destruct Hl as (Hsub & Hgone & _).
  apply list_elem_of_lookup_2 in H1.
  apply set_eq. intros x. rewrite elem_of_difference. split.
  - intros Hx. split; [by apply Hsub|]. intros Hk.
    by apply (Hclean s x H1 Hk).
  - intros [Hx0 Hk]. destruct (decide (x ∈ Sentence.cells s)); [done|].
    exfalso. apply Hk, Hgone. set_solver.
Qed.

Lemma residue_trans a a' s0 s1 s2 :
  safes a ⊆ safes a' → mines a ⊆ mines a' →
  residue a s0 s1 → residue a' s1 s2 → residue a' s0 s2.
Proof.
  intros HS HM [Hc1 Hl1] [Hc2 Hl2]. split.
  - rewrite Hc2, Hc1. set_solver.
  - by eapply lowered_trans.
Qed.

Lemma retains_update ai : retains (knowledge ai) (update ai).
Proof.
  intros s0 [i Hi]%list_elem_of_lookup. right.
  destruct (Forall2_lookup_l _ _ _ _ _ (update_residue ai) Hi)
    as (s & Hs & Hres).
  exists s. split; [by eapply list_elem_of_lookup_2|done].
Qed.

Lemma retains_inference ks0 ai :
  retains ks0 ai → retains ks0 (inference ai).2.
Proof.
  intros Hret s0 Hs0. rewrite inference_spec. simpl.
  destruct (decide (Sentence.cells s0 ⊆ safes ai ∪ mines ai)) as [|Hnot];
    [by left|].
  destruct (Hret s0 Hs0) as [|(s & Hs & Hres)]; [done|]. right.
  exists s. split; [|done]. apply list_elem_of_filter. split; [|done].
  destruct Hres as [Hcells _]. rewrite Hcells. intros Hempty.
  apply Hnot. intros x Hx. destruct (decide (x ∈ safes ai ∪ mines ai)); [done|].
  exfalso. assert (x ∈ (∅ : gset cell)) as Hin
    by (rewrite <- Hempty; set_solver).
  by apply not_elem_of_empty in Hin.
Qed.

Lemma retains_round ks0 nd a :
  retains ks0 a → retains ks0 (loop_round (nd, a)).2.
Proof.
  intros Hret. unfold loop_round. simpl. apply retains_inference.
  set (X := set_knowledge (λ ks, ks ++ nd) a).
  destruct (extends_update X) as (_ & _ & _ & HS & HM).
  intros s0 Hs0. destruct (Hret s0 Hs0) as [Hk|(s1 & Hs1 & Hres1)].
  - left. etrans; [exact Hk|]. simpl in *. set_solver.
  - assert (s1 ∈ knowledge X) as Hin by (simpl; apply elem_of_app; by left).
    destruct (retains_update X s1 Hin) as [Hk|(s2 & Hs2 & Hres2)].
    + left. destruct Hres1 as [Hc1 _]. intros x Hx.
      destruct (decide (x ∈ safes a ∪ mines a)) as [Hxa|Hxa].
      * simpl in *. set_solver.
      * apply Hk. rewrite Hc1. set_solver.
    + right. exists s2. split; [done|].
      by apply (residue_trans a (update X) s0 s1 s2).
Qed.

(** The loop returns the state of the first round in which [inference]
    returned nothing. *)
Lemma add_knowledge_loop_rounds fuel p ai' :
  add_knowledge_loop fuel p.1 p.2 = Some ai' ↔
  ∃ k, (k ≤ fuel)%nat ∧ loop_rounds k p = ([], ai') ∧
       ∀ j, (j < k)%nat → (loop_rounds j p).1 ≠ [].
Proof.
  revert p. induction fuel as [|fuel IH]; intros [nd a]; simpl.
  - destruct nd as [|D nd]; split.
    + intros [= <-]. exists 0%nat. split; [done|]. split; [done|]. lia.
    + intros (k & Hk & Hr & _). assert (k = 0%nat) as -> by lia.
      simpl in Hr. congruence.
    + done.
    + intros (k & Hk & Hr & _). assert (k = 0%nat) as -> by lia.
      simpl in Hr. congruence.
  - destruct nd as [|D nd]; split.
    + intros [= <-]. exists 0%nat. split; [lia|]. split; [done|]. lia.
    + intros (k & Hk & Hr & Hne). destruct k as [|k].
      * simpl in Hr. congruence.
      * exfalso. by apply (Hne 0%nat); [lia|].
    + intros Hloop.
      change (inference (update (set_knowledge (λ ks, ks ++ D :: nd) a)))
        with (loop_round (D :: nd, a)) in Hloop.
      destruct (loop_round (D :: nd, a)) as [nd' a3] eqn:Hround.
      apply (IH (nd', a3)) in Hloop as (k & Hk & Hr & Hne).
      exists (S k). split; [lia|]. simpl. rewrite Hround. split; [done|].
      intros [|j] Hj; simpl; [done|]. rewrite Hround. apply Hne. lia.
    + intros (k & Hk & Hr & Hne). destruct k as [|k]; [simpl in Hr; congruence|].
      change (inference (update (set_knowledge (λ ks, ks ++ D :: nd) a)))
        with (loop_round (D :: nd, a)).
      simpl in Hr. destruct (loop_round (D :: nd, a)) as [nd' a3] eqn:Hround.
      apply (IH (nd', a3)). exists k. split; [lia|]. split; [done|].
      intros j Hj. specialize (Hne (S j) ltac:(lia)). simpl in Hne.
      by rewrite Hround in Hne.
Qed.

Lemma add_knowledge_rounds fuel ai c count ai' :
  add_knowledge fuel ai c count = Some ai' ↔
  ∃ k, (k ≤ fuel)%nat ∧ loop_rounds k (loop_entry ai c count) = ([], ai') ∧
       ∀ j, (j < k)%nat → (loop_rounds j (loop_entry ai c count)).1 ≠ [].
Proof.
  rewrite <- add_knowledge_loop_rounds. unfold add_knowledge, loop_entry.
  by destruct (inference (update (ingest ai c count))).
Qed.

Lemma retains_rounds ks0 k p :
  retains ks0 p.2 → retains ks0 (loop_rounds k p).2.
Proof.
  revert p. induction k as [|k IH]; intros [nd a] Hret; simpl; [done|].
  apply IH. by apply retains_round.
Qed.

(** A call that returns has lost none of the sentences that the list held
    after the append. *)
Lemma retains_add_knowledge fuel ai c count ai' :
  add_knowledge fuel ai c count = Some ai' →
  retains (knowledge (ingest ai c count)) ai'.
Proof.
  intros (k & _ & Hr & _)%add_knowledge_rounds.
  pose proof (retains_rounds (knowledge (ingest ai c count)) k
                (loop_entry ai c count)) as Hret.
  rewrite Hr in Hret. apply Hret. unfold loop_entry.
  apply retains_inference, retains_update.
Qed.

(** On consistent knowledge the state in which a truthful call returns is
    a fixpoint of [inference] as well. *)
Lemma add_knowledge_inference_fixpoint M fuel ai c n ai' :
  consistent M ai → c ∉ M → n = Z.of_nat (size (friends ai c ∩ M)) →
  add_knowledge fuel ai c n = Some ai' →
  inference ai' = ([], ai').
Proof.
  intros Hcons Hc Hn Hadd.
  pose proof (consistent_add_knowledge M fuel ai c n ai' Hc Hn Hcons Hadd)
    as (Hsound & _ & _).
  destruct (add_knowledge_last_round _ _ _ _ _ Hadd) as [X HX].
  rewrite inference_spec in HX. injection HX as Hemit Hai'.
  assert (∀ s, s ∈ knowledge ai' → Sentence.cells s ≠ ∅) as Hne.
  { rewrite <- Hai'. simpl. by intros s [? _]%list_elem_of_filter. }
  assert (∀ s, s ∈ knowledge ai' → s ∈ knowledge (update X)) as Hin.
  { rewrite <- Hai'. simpl. by intros s [_ ?]%list_elem_of_filter. }
  rewrite inference_spec. f_equal.
  - destruct (emitted (knowledge ai')) as [|D l] eqn:HD; [done|]. exfalso.
    assert (D ∈ emitted (knowledge ai')) as HDin by (rewrite HD; left).
    apply elem_of_emitted in HDin
      as (A & B & (HA & HB & HAB & HAe & HBe & Hsub) & -> & Hnot).
    assert (derived A B ∈ knowledge (update X)) as Hold.
    { destruct (decide (derived A B ∈ knowledge (update X))) as [|Hnew];
        [done|]. exfalso.
      assert (derived A B ∈ emitted (knowledge (update X))) as Hem.
      { apply elem_of_emitted. exists A, B. repeat split; auto. }
      rewrite Hemit in Hem. by apply not_elem_of_nil in Hem. }
    assert (Sentence.cells (derived A B) = ∅) as Hempty.
    { destruct (decide (Sentence.cells (derived A B) = ∅)) as [|Hcells];
        [done|]. exfalso. apply Hnot. rewrite <- Hai'. simpl.
      by apply list_elem_of_filter. }
    apply HAB, (sound_same_cells M); [by apply Hsound..|].
    simpl in Hempty. apply set_eq. intros x. split; [|by apply Hsub].
    intros Hx. destruct (decide (x ∈ Sentence.cells B)); [done|].
    exfalso. assert (x ∈ (∅ : gset cell)) as Hbad
      by (rewrite <- Hempty; set_solver).
    by apply not_elem_of_empty in Hbad.
  - destruct ai' as [h w mv mi sf ks]. unfold set_knowledge. simpl in *.
    f_equal. by apply filter_all.
Qed.

End Rounds.

(** * A call of [add_knowledge] that does not return *)

Lemma pair_cells_size : size ({[ (0, 0); (0, 2) ]} : gset cell) = 2%nat.
Proof. reflexivity. Qed.

Lemma restless_clean a : restless a → clean a.
Proof.
  intros (Hs & Hm & _ & _ & _ & Hshape) s c Hin Hc.
  rewrite Hs, Hm in Hc.
  assert (c = (0, 3) ∨ c = (0, 1)) as Hc' by set_solver. clear Hc.
  destruct (Hshape s Hin) as [->|[->|[[[Hcells|Hcells] _]|Hcells]]];
    simpl; rewrite ?Hcells; destruct Hc' as [->| ->]; set_solver.
Qed.

Lemma restless_settled a : restless a → settled a.
Proof.
  intros (_ & _ & _ & _ & _ & Hshape) s Hin Hsat.
  destruct (Hshape s Hin) as [->|[->|[[Hcells [k Hk]]|Hcells]]];
    [| | |done]; exfalso; unfold saturated in Hsat.
  - change (1 = 0 ∨ Z.of_nat (size ({[ (0, 0); (0, 2) ]} : gset cell)) = 1)
      in Hsat.
    rewrite pair_cells_size in Hsat. lia.
  - change (4 = 0 ∨ Z.of_nat (size ({[ (0, 0); (0, 2) ]} : gset cell)) = 4)
      in Hsat.
    rewrite pair_cells_size in Hsat. lia.
  - assert (size (Sentence.cells s) = 1%nat) as Hsize.
    { destruct Hcells as [-> | ->]; apply size_singleton. }
    rewrite Hsize in Hsat. lia.
Qed.

Lemma restless_emitted_shape ks D :
  (∀ s, s ∈ ks → restless_shape s) → D ∈ emitted ks → restless_shape D.
Proof.
  intros Hshape
    (P & Q & (HP & HQ & Hne & HPe & HQe & Hsub) & -> & _)%elem_of_emitted.
  assert (∀ x : cell, Sentence.cells P = {[x]} →
                      Sentence.cells P ∖ Sentence.cells Q = ∅) as Hsingle.
  { intros x Hx. apply set_choose_L in HQe as [q Hq].
    assert (q = x) as -> by set_solver. set_solver. }
  unfold restless_shape, derived. simpl.
  destruct (Hshape P HP) as [HPA|[HPA|[[[HPc|HPc] _]|HPc]]]; [| |eauto..|done].
  - subst P. simpl in *.
    destruct (Hshape Q HQ) as [->|[->|[[HQc [k Hk]]|HQc]]]; [done| | |done].
    + do 3 right. simpl. set_solver.
    + right; right; left. rewrite Hk. split; [|exists (- k - 1); lia].
      destruct HQc as [-> | ->]; [right|left]; reflexivity.
  - subst P. simpl in *.
    destruct (Hshape Q HQ) as [->|[->|[[HQc [k Hk]]|HQc]]]; [|done| |done].
    + do 3 right. simpl. set_solver.
    + right; right; left. rewrite Hk. split; [|exists (- k); lia].
      destruct HQc as [-> | ->]; [right|left]; reflexivity.
Qed.

(** As long as the two observations about [(0, 1)] and a sentence about
    [(0, 2)] are present, [inference] finds something new. *)
Lemma restless_emits ks :
  Sentence.mk {[ (0, 0); (0, 2) ]} 1 ∈ ks →
  Sentence.mk {[ (0, 0); (0, 2) ]} 4 ∈ ks →
  (∃ b, Sentence.mk {[ (0, 2) ]} b ∈ ks) →
  emitted ks ≠ [].
Proof.
  intros HA HA' [b Hb] Hnil.
  assert (∀ P Q, eligible ks P Q → derived P Q ∈ ks) as Hclosed.
  { intros P Q Hel. destruct (decide (derived P Q ∈ ks)) as [|Hnot]; [done|].
    exfalso. assert (derived P Q ∈ emitted ks) as Hin
      by (apply elem_of_emitted; by exists P, Q).
    rewrite Hnil in Hin. by apply not_elem_of_nil in Hin. }
  assert (({[ (0, 0) ]} : gset cell) ≠ ∅) as Hne0.
  { intros Heq. assert ((0, 0) ∈ (∅ : gset cell)) as Hin
      by (rewrite <- Heq; by apply elem_of_singleton).
    by apply not_elem_of_empty in Hin. }
  assert (({[ (0, 2) ]} : gset cell) ≠ ∅) as Hne2.
  { intros Heq. assert ((0, 2) ∈ (∅ : gset cell)) as Hin
      by (rewrite <- Heq; by apply elem_of_singleton).
    by apply not_elem_of_empty in Hin. }
  assert (({[ (0, 0); (0, 2) ]} : gset cell) ≠ ∅) as Hne02.
  { intros Heq. assert ((0, 0) ∈ (∅ : gset cell)) as Hin
      by (rewrite <- Heq; set_solver).
    by apply not_elem_of_empty in Hin. }
  assert (∀ y, Sentence.mk {[ (0, 2) ]} y ∈ ks →
               Sentence.mk {[ (0, 2) ]} (y + 3) ∈ ks) as Hstep.
  { intros y Hy.
    assert (Sentence.mk {[ (0, 0) ]} (1 - y) ∈ ks) as H0.
    { pose proof (Hclosed (Sentence.mk {[ (0, 0); (0, 2) ]} 1)
                    (Sentence.mk {[ (0, 2) ]} y)) as Hd.
      unfold derived in Hd. simpl in Hd.
      replace ({[ (0, 0); (0, 2) ]} ∖ {[ (0, 2) ]})
        with ({[ (0, 0) ]} : gset cell) in Hd by reflexivity.
      apply Hd. split; [done|]. split; [done|]. split; [|split; [done|]].
      - intros Hc. apply (f_equal Sentence.cells) in Hc. simpl in Hc.
        assert ((0, 0) ∈ ({[ (0, 2) ]} : gset cell)) as Hin
          by (rewrite <- Hc; set_solver).
        by apply elem_of_singleton in Hin.
      - split; [done|]. simpl. set_solver. }
    pose proof (Hclosed (Sentence.mk {[ (0, 0); (0, 2) ]} 4)
                  (Sentence.mk {[ (0, 0) ]} (1 - y))) as Hd.
    unfold derived in Hd. simpl in Hd.
    replace ({[ (0, 0); (0, 2) ]} ∖ {[ (0, 0) ]})
      with ({[ (0, 2) ]} : gset cell) in Hd by reflexivity.
    replace (4 - (1 - y)) with (y + 3) in Hd by lia.
    apply Hd. split; [done|]. split; [done|]. split; [|split; [done|]].
    - intros Hc. apply (f_equal Sentence.cells) in Hc. simpl in Hc.
      assert ((0, 2) ∈ ({[ (0, 0) ]} : gset cell)) as Hin
        by (rewrite <- Hc; set_solver).
      by apply elem_of_singleton in Hin.
    - split; [done|]. simpl. set_solver. }
  assert (∀ k : nat, Sentence.mk {[ (0, 2) ]} (b + 3 * Z.of_nat k) ∈ ks)
    as Hall.
  { induction k as [|k IH].
    - by replace (b + 3 * Z.of_nat 0) with b by lia.
    - replace (b + 3 * Z.of_nat (S k)) with (b + 3 * Z.of_nat k + 3) by lia.
      by apply Hstep. }
  set (l := (λ k : nat, Sentence.mk {[ (0, 2) ]} (b + 3 * Z.of_nat k))
              <$> seq 0 (S (length ks))).
  assert (NoDup l) as Hnodup.
  { apply NoDup_fmap_2_strong; [|apply NoDup_seq].
    intros x y _ _ [= Heq]. lia. }
  assert (l ⊆+ ks) as Hsub.
  { apply NoDup_submseteq; [done|].
    intros s (k & -> & _)%list_elem_of_fmap. apply Hall. }
  apply submseteq_length in Hsub. unfold l in Hsub.
  rewrite length_fmap, length_seq in Hsub. lia.
Qed.

Section Restless.
Context {order : SetOrder}.

Lemma restless_round X :
  restless X →
  restless (inference (update X)).2 ∧
  (inference (update X)).1 ≠ [] ∧
  ∀ D, D ∈ (inference (update X)).1 → restless_shape D.
Proof.
  intros HX.
  rewrite (update_quiescent X (restless_clean X HX) (restless_settled X HX)).
  destruct HX as (Hs & Hm & HA & HA' & [b Hb] & Hshape).
  rewrite inference_spec. simpl. split; [|split].
  - split; [done|]. split; [done|]. simpl.
    split; [by apply list_elem_of_filter|].
    split; [by apply list_elem_of_filter|]. split.
    + exists b. apply list_elem_of_filter. split; [|done]. simpl.
      intros Heq. assert ((0, 2) ∈ (∅ : gset cell)) as Hin
        by (rewrite <- Heq; by apply elem_of_singleton).
      by apply not_elem_of_empty in Hin.
    + intros s [_ Hin]%list_elem_of_filter. by apply Hshape.
  - apply restless_emits; [done..|]. by exists b.
  - intros D HD. by apply (restless_emitted_shape (knowledge X)).
Qed.

Lemma restless_loop fuel nd a :
  restless a → nd ≠ [] → (∀ D, D ∈ nd → restless_shape D) →
  add_knowledge_loop fuel nd a = None.
Proof.
  revert nd a. induction fuel as [|fuel IH]; intros nd a Ha Hnd Hshape;
    destruct nd as [|D nd]; simpl; try done.
  assert (restless (set_knowledge (λ ks, ks ++ D :: nd) a)) as HX.
  { destruct Ha as (Hs & Hm & HA & HA' & [b Hb] & Hsh).
    split; [done|]. split; [done|]. simpl.
    split; [apply elem_of_app; by left|].
    split; [apply elem_of_app; by left|]. split.
    - exists b. apply elem_of_app. by left.
    - intros s [?|?]%elem_of_app; auto. }
  destruct (restless_round _ HX) as (Ha' & Hnd' & Hshape').
  destruct (inference (update (set_knowledge (λ ks, ks ++ D :: nd) a)))
    as [nd' a'].
  by apply IH.
Qed.

End Restless.

Section RestlessRounds.
Context {order : SetOrder}.

Lemma contradicted_first_call :
  add_knowledge 0 (init 1 4) (0, 3) 5 = Some contradicted_state1.
Proof.
  rewrite (add_knowledge_order _ elements_order). vm_compute. reflexivity.
Qed.

Lemma contradicted_second_call :
  add_knowledge 1 contradicted_state1 (0, 1) 1 = Some contradicted_state2.
Proof.
  rewrite (add_knowledge_order _ elements_order). vm_compute. reflexivity.
Qed.

Lemma contradicted_observable : observable contradicted_state2.
Proof.
  eapply observable_add_knowledge; [|apply contradicted_second_call].
  eapply observable_add_knowledge; [|apply contradicted_first_call].
  apply observable_init.
Qed.

Lemma restless_ingest : restless (ingest contradicted_state2 (0, 1) 4).
Proof.
  assert (ingest contradicted_state2 (0, 1) 4
          = mk 1 4 {[ (0, 3); (0, 1) ]} ∅ {[ (0, 3); (0, 1) ]}
              [Sentence.mk {[ (0, 2) ]} 5;
               Sentence.mk {[ (0, 0); (0, 2) ]} 1;
               Sentence.mk {[ (0, 0) ]} (-4);
               Sentence.mk {[ (0, 0); (0, 2) ]} 4]) as ->
    by (vm_compute; reflexivity).
  split; [done|]. split; [done|]. simpl.
  split; [set_solver|]. split; [set_solver|]. split.
  - exists 5. set_solver.
  - intros s Hs. unfold restless_shape.
    repeat (apply elem_of_cons in Hs as [->|Hs]); simpl.
    + right; right; left. split; [by right|]. exists 1. lia.
    + by left.
    + right; right; left. split; [by left|]. exists (-2). lia.
    + right. by left.
    + by apply not_elem_of_nil in Hs.
Qed.

Lemma restless_append a nd :
  restless a → (∀ D, D ∈ nd → restless_shape D) →
  restless (set_knowledge (λ ks, ks ++ nd) a).
Proof.
  intros (Hs & Hm & HA & HA' & [b Hb] & Hsh) Hnd.
  split; [done|]. split; [done|]. simpl.
  split; [apply elem_of_app; by left|].
  split; [apply elem_of_app; by left|]. split.
  - exists b. apply elem_of_app. by left.
  - intros s [?|?]%elem_of_app; auto.
Qed.

(** From a restless state no round ends with an empty [new_data]. *)
Lemma restless_rounds k p :
  restless p.2 → p.1 ≠ [] → (∀ D, D ∈ p.1 → restless_shape D) →
  (loop_rounds k p).1 ≠ [].
Proof.
  revert p. induction k as [|k IH]; intros [nd a] Ha Hnd Hshape; simpl in *;
    [done|].
  destruct (restless_round _ (restless_append a nd Ha Hshape))
    as (Ha' & Hnd' & Hshape').
  apply IH; done.
Qed.

Lemma contradicted_rounds k :
  (loop_rounds k (loop_entry contradicted_state2 (0, 1) 4)).1 ≠ [].
Proof.
  destruct (restless_round _ restless_ingest) as (Ha & Hnd & Hshape).
  by apply restless_rounds.
Qed.

End RestlessRounds.

(** C7, as the code has it: [add_knowledge((x, y), count)] records the
    cell in [moves_made], marks it safe (which removes it from the
    sentences already present), and appends the sentence made of all the
    neighbours of the cell that lie on the board, the cell itself
    excluded, with the count as given: membership in that cell set does
    not depend on [safes] or [mines].  It then runs [update] and
    [inference], appending what [inference] returns, until [inference]
    returns nothing: the call returns [ai'] exactly when [ai'] is the
    state of the first round in which [inference] returns an empty list.
    A call that returns has kept the board size, has [moves_made] as
    recorded, knows the cell to be safe, has lost no knowledge of safe
    cells or mines, is left unchanged by a further [update], has lost
    none of the sentences that the list held after the append (each one,
    the new sentence included, is resolved or is in the list with
    exactly its cells that are not known), and holds no sentence that is
    empty or that an extraction rule applies to.  When the knowledge and
    the count agree with a set of mines that does not contain the cell,
    the call returns, and the state it returns is a fixpoint of
    [inference] too. *)
Theorem add_knowledge_ingests_unfiltered `{SetOrder}
    (ai : MinesweeperAI.t) (c : cell) (count : Z) :
  ingest ai c count =
    mk (height ai) (width ai) (moves_made ai ∪ {[c]}) (mines ai)
       (safes ai ∪ {[c]})
       (map (without_safe c) (knowledge ai)
          ++ [Sentence.mk (friends ai c) count]) ∧
  (∀ p, p ∈ friends ai c ↔ neighbour (height ai) (width ai) c p) ∧
  (∀ fuel ai', add_knowledge fuel ai c count = Some ai' ↔
     ∃ k, (k ≤ fuel)%nat ∧
          loop_rounds k (loop_entry ai c count) = ([], ai') ∧
          ∀ j, (j < k)%nat → (loop_rounds j (loop_entry ai c count)).1 ≠ []) ∧
  (∀ fuel ai', add_knowledge fuel ai c count = Some ai' →
     height ai' = height ai ∧ width ai' = width ai ∧
     moves_made ai' = moves_made ai ∪ {[c]} ∧
     c ∈ safes ai' ∧ safes ai ⊆ safes ai' ∧ mines ai ⊆ mines ai' ∧
     update ai' = ai' ∧
     (∃ X, inference (update X) = ([], ai')) ∧
     retains (map (without_safe c) (knowledge ai)
                ++ [Sentence.mk (friends ai c) count]) ai' ∧
     (∀ s, s ∈ knowledge ai' → Sentence.cells s ≠ ∅ ∧ ¬ saturated s) ∧
     ∀ fuel', (fuel ≤ fuel')%nat →
              add_knowledge fuel' ai c count = Some ai') ∧
  (∀ M, consistent M ai → c ∉ M →
        count = Z.of_nat (size (friends ai c ∩ M)) →
        ∃ fuel ai', add_knowledge fuel ai c count = Some ai' ∧
                    consistent M ai' ∧ inference ai' = ([], ai')).
Proof.
  split; [apply ingest_spec|]. split; [apply elem_of_friends|].
  split; [|split].
  - intros fuel ai'. apply add_knowledge_rounds.
  - intros fuel ai' Hadd.
    destruct (extends_add_knowledge _ _ _ _ _ Hadd)
      as (Hh & Hw & Hmoves & Hsafes & Hmines).
    pose proof (retains_add_knowledge _ _ _ _ _ Hadd) as Hret.
    rewrite ingest_spec in Hh, Hw, Hmoves, Hsafes, Hmines, Hret.
    simpl in *.
    assert (clean ai') as Hclean.
    { apply (add_knowledge_exit clean _ _ _ _ _ ltac:(
        intros X; apply clean_inference, update_clean) Hadd). }
    assert (settled ai') as Hset.
    { apply (add_knowledge_exit settled _ _ _ _ _ ltac:(
        intros X; apply settled_inference, update_settled) Hadd). }
    split; [done|]. split; [done|]. split; [done|].
    split; [set_solver|]. split; [set_solver|]. split; [done|].
    split; [by apply update_quiescent|].
    split; [by eapply add_knowledge_last_round|]. split; [done|]. split.
    + destruct (add_knowledge_last_round _ _ _ _ _ Hadd) as [X HX].
      rewrite inference_spec in HX. injection HX as _ Hai'.
      intros s Hs. assert (Sentence.cells s ≠ ∅) as Hne.
      { revert Hs. rewrite <- Hai'. simpl.
        by intros [? _]%list_elem_of_filter. }
      split; [done|]. intros Hsat. by apply Hne, Hset.
    + intros fuel' Hle. revert Hadd. unfold add_knowledge.
      destruct (inference _) as [nd a].
      by apply add_knowledge_loop_more_fuel.
  - intros M Hcons Hc Hcount.
    destruct (add_knowledge_terminates M ai c count Hcons Hc Hcount)
      as (fuel & ai' & Hadd).
    exists fuel, ai'. split; [done|]. split.
    + by apply (consistent_add_knowledge M fuel ai c count).
    + by apply (add_knowledge_inference_fixpoint M fuel ai c count).
Qed.

(** C7 fails as stated: [add_knowledge] does not reach a fixpoint for
    every cell and count.  On a board of one row and four columns the
    calls [add_knowledge((0, 3), 5)] and [add_knowledge((0, 1), 1)]
    return and leave [contradicted_state2]; in that state the call
    [add_knowledge((0, 1), 4)] finds a non-empty [new_data] in every
    round of its loop and never returns, whatever the iteration order of
    sets. *)
Lemma add_knowledge_runs_forever :
  (∀ order : SetOrder, @observable order contradicted_state2) ∧
  (∀ (order : SetOrder) (k : nat),
     (@loop_rounds order k
        (@loop_entry order contradicted_state2 (0, 1) 4)).1 ≠ []) ∧
  (∀ (order : SetOrder) (fuel : nat),
     @add_knowledge order fuel contradicted_state2 (0, 1) 4 = None).
Proof.
  split; [intros order; apply contradicted_observable|].
  split; [intros order k; apply contradicted_rounds|].
  intros order fuel.
  destruct (add_knowledge fuel contradicted_state2 (0, 1) 4) as [ai'|] eqn:Hadd;
    [|done].
  apply add_knowledge_rounds in Hadd as (k & _ & Hr & _).
  pose proof (contradicted_rounds k) as Hne. rewrite Hr in Hne. done.
Qed.


(** * Further properties of the program *)

(** ** Move selection without knowledge *)

Lemma range_cons a b : a < b → range a b = a :: range (a + 1) b.
Proof.
  intros Hlt. unfold range.
  replace (Z.to_nat (b - a)) with (S (Z.to_nat (b - (a + 1)))) by lia.
  simpl. f_equal; [lia|]. rewrite <- seq_shift, map_map.
  apply map_ext. intros k. lia.
Qed.

Lemma range_nil a b : b ≤ a → range a b = [].
Proof.
  intros Hle. unfold range.
  by replace (Z.to_nat (b - a)) with 0%nat by lia.
Qed.

Lemma first_return_range {B : Type} (body : Z → option B) (a b : Z) :
  match first_return body (range a b) with
  | Some r => ∃ k, a ≤ k < b ∧ body k = Some r ∧
                   ∀ x, a ≤ x < k → body x = None
  | None => ∀ k, a ≤ k < b → body k = None
  end.
Proof.
  remember (Z.to_nat (b - a)) as n eqn:Hn. revert a Hn.
  induction n as [|n IH]; intros a Hn.
  - rewrite range_nil by lia. simpl. intros k Hk. lia.
  - rewrite range_cons by lia. simpl.
    destruct (body a) as [r|] eqn:Ha.
    + exists a. split; [lia|]. split; [done|]. intros x Hx. lia.
    + specialize (IH (a + 1) ltac:(lia)).
      destruct (first_return body (range (a + 1) b)) as [r|].
      * destruct IH as (k & Hk & Hbody & Hbefore). exists k.
        split; [lia|]. split; [done|]. intros x Hx.
        destruct (decide (x = a)) as [->|Hne]; [done|]. apply Hbefore. lia.
      * intros k Hk. destruct (decide (k = a)) as [->|Hne]; [done|].
        apply IH. lia.
Qed.

(** X1: [make_random_move] returns the first cell of the board, in
    row-by-row order, that is neither in [mines] nor in [moves_made]:
    the cell returned is on the board and in neither set, and every
    board cell scanned before it is in one of them; the result is [None]
    exactly when every cell of the board is in [mines] or
    [moves_made]. *)
Theorem make_random_move_first_free (ai : MinesweeperAI.t) :
  (∀ c, make_random_move ai = Some c →
        in_grid (height ai) (width ai) c ∧
        (c ∉ mines ai) ∧ (c ∉ moves_made ai) ∧
        ∀ p, in_grid (height ai) (width ai) p → scanned_before p c →
             p ∈ mines ai ∨ p ∈ moves_made ai) ∧
  (make_random_move ai = None ↔
   ∀ p, in_grid (height ai) (width ai) p →
        p ∈ mines ai ∨ p ∈ moves_made ai).
Proof.
  unfold make_random_move.
  set (inner := λ x : Z, first_return (λ y : Z,
         if decide (((x, y) ∉ mines ai) ∧ ((x, y) ∉ moves_made ai))
         then Some (x, y) else None) (range 0 (width ai))).
  assert (∀ p : cell, ¬ ((p ∉ mines ai) ∧ (p ∉ moves_made ai)) →
                      p ∈ mines ai ∨ p ∈ moves_made ai) as Hdec.
  { intros p Hn. destruct (decide (p ∈ mines ai)); [by left|].
    destruct (decide (p ∈ moves_made ai)); [by right|]. tauto. }
  assert (∀ x, match inner x with
               | Some r => ∃ y, r = (x, y) ∧ 0 ≤ y < width ai ∧
                    ((x, y) ∉ mines ai) ∧ ((x, y) ∉ moves_made ai) ∧
                    ∀ y', 0 ≤ y' < y →
                          (x, y') ∈ mines ai ∨ (x, y') ∈ moves_made ai
               | None => ∀ y, 0 ≤ y < width ai →
                          (x, y) ∈ mines ai ∨ (x, y) ∈ moves_made ai
               end) as Hinner.
  { intros x. unfold inner.
    pose proof (first_return_range (λ y : Z,
         if decide (((x, y) ∉ mines ai) ∧ ((x, y) ∉ moves_made ai))
         then Some (x, y) else None) 0 (width ai)) as Hr.
    destruct (first_return _ _) as [r|].
    - destruct Hr as (y & Hy & Hbody & Hbefore). exists y.
      case_decide as Hfree; [|done]. injection Hbody as <-.
      split; [done|]. split; [done|]. split; [tauto|]. split; [tauto|].
      intros y' Hy'. specialize (Hbefore y' Hy').
      simpl in Hbefore. case_decide; [done|]. by apply Hdec.
    - intros y Hy. specialize (Hr y Hy). simpl in Hr.
      case_decide; [done|]. by apply Hdec. }
  pose proof (first_return_range inner 0 (height ai)) as Houter.
  fold inner. destruct (first_return inner (range 0 (height ai))) as [r|].
  - destruct Houter as (x & Hx & Hbody & Hbefore).
    pose proof (Hinner x) as Hix. rewrite Hbody in Hix.
    destruct Hix as (y & -> & Hy & Hm & Hmv & Hrow). split.
    + intros c [= <-]. split; [done|]. split; [done|]. split; [done|].
      intros [i j] [Hi Hj] [Hlt|[Heq Hlt]]; simpl in *.
      * pose proof (Hinner i) as Hii. rewrite Hbefore in Hii by lia.
        by apply Hii.
      * subst i. apply Hrow. lia.
    + split; [done|]. intros Hall.
      destruct (Hall (x, y)); [done|done|done].
  - split; [done|]. split; [|done]. intros _ [i j] [Hi Hj]. simpl in *.
    pose proof (Hinner i) as Hii. rewrite Houter in Hii by lia.
    by apply Hii.
Qed.


(** ** The board *)

Lemma window_length c : length (window c) = 9%nat.
Proof.
  unfold window, range.
  replace (Z.to_nat (c.1 + 2 - (c.1 - 1))) with 3%nat by lia.
  replace (Z.to_nat (c.2 + 2 - (c.2 - 1))) with 3%nat by lia.
  reflexivity.
Qed.

Lemma length_filter_le {A : Type} (P : A → Prop) `{!∀ x, Decision (P x)}
    (l : list A) :
  (length (filter P l) ≤ length l)%nat.
Proof.
  induction l as [|a l IH]; simpl; [done|].
  rewrite filter_cons. case_decide; simpl; lia.
Qed.

(** X2: on a well-formed board, where every position that passes the
    bounds test of [nearby_mines] exists, [nearby_mines] returns a number
    between 0 and 8, whatever the cell and the mines are. *)
Theorem nearby_mines_between_0_and_8 (g : Minesweeper.t) (c : cell) :
  Minesweeper.wf g →
  0 ≤ Minesweeper.nearby_mines g c ≤ 8.
Proof.
  intros _. rewrite nearby_mines_count. split; [lia|].
  assert (c ∈ window c) as Hin by (apply elem_of_window; lia).
  apply elem_of_Permutation in Hin as [rest Hperm].
  pose proof (window_length c) as Hlen. rewrite Hperm in Hlen. simpl in Hlen.
  rewrite Hperm, filter_cons, decide_False by tauto.
  pose proof (length_filter_le (λ p : cell,
      p ≠ c ∧ (0 ≤ p.1 < Minesweeper.height g ∧
               0 ≤ p.2 < Minesweeper.width g) ∧
      Minesweeper.board_at g p.1 p.2 = true) rest).
  lia.
Qed.

Lemma nearby_mines_between_0_and_8_witness :
  Minesweeper.wf example_game ∧
  0 ≤ Minesweeper.nearby_mines example_game (1, 1) ≤ 8.
Proof.
  split; [apply example_game_wf|].
  apply (nearby_mines_between_0_and_8 example_game (1, 1) example_game_wf).
Defined.

(** X3: on a well-formed board, [nearby_mines] returns the number of
    mines among the neighbours of the cell: if [N] is the set of the
    cells of [mines] that are neighbours of [c], the result is the size
    of [N]. *)
Theorem nearby_mines_counts_neighbouring_mines
    (g : Minesweeper.t) (c : cell) (N : gset cell) :
  Minesweeper.wf g →
  (∀ p, p ∈ N ↔
        neighbour (Minesweeper.height g) (Minesweeper.width g) c p ∧
        p ∈ Minesweeper.mines g) →
  Minesweeper.nearby_mines g c = Z.of_nat (size N).
Proof.
  intros Hwf HN.
  rewrite (nearby_mines_friends g
             (init (Minesweeper.height g) (Minesweeper.width g)) c Hwf
             eq_refl eq_refl).
  do 2 f_equal. apply set_eq. intros p.
  rewrite HN, elem_of_intersection, elem_of_friends. done.
Qed.

Lemma nearby_mines_counts_neighbouring_mines_witness :
  Minesweeper.wf example_game ∧
  (∀ p, p ∈ ({[ (0, 1) ]} : gset cell) ↔
        neighbour (Minesweeper.height example_game)
                  (Minesweeper.width example_game) (0, 0) p ∧
        p ∈ Minesweeper.mines example_game) ∧
  Minesweeper.nearby_mines example_game (0, 0)
  = Z.of_nat (size ({[ (0, 1) ]} : gset cell)).
Proof.
  assert (∀ p, p ∈ ({[ (0, 1) ]} : gset cell) ↔
        neighbour (Minesweeper.height example_game)
                  (Minesweeper.width example_game) (0, 0) p ∧
        p ∈ Minesweeper.mines example_game) as HN.
  { intros p. simpl. rewrite elem_of_singleton. split.
    - intros ->. unfold neighbour. simpl. repeat split; try lia. done.
    - by intros [_ ?]. }
  split; [apply example_game_wf|]. split; [exact HN|].
  apply (nearby_mines_counts_neighbouring_mines example_game (0, 0)
           {[ (0, 1) ]} example_game_wf HN).
Defined.

Lemma board_at_lookup g i j row b :
  Minesweeper.board g !! Z.to_nat i = Some row → row !! Z.to_nat j = Some b →
  Minesweeper.board_at g i j = b.
Proof.
  intros Hrow Hb. unfold Minesweeper.board_at. rewrite Hrow. simpl.
  by rewrite Hb.
Qed.

Lemma wf_lookup g i j :
  Minesweeper.wf g →
  in_grid (Minesweeper.height g) (Minesweeper.width g) (i, j) →
  ∃ row, Minesweeper.board g !! Z.to_nat i = Some row ∧
         length row = Z.to_nat (Minesweeper.width g) ∧
         row !! Z.to_nat j = Some (Minesweeper.board_at g i j).
Proof.
  intros (Hrows & Hcols & _) [Hi Hj]. simpl in *.
  destruct (lookup_lt_is_Some_2 (Minesweeper.board g) (Z.to_nat i))
    as [row Hrow]; [lia|].
  pose proof (Forall_lookup_1 _ _ _ _ Hcols Hrow) as Hlen. simpl in Hlen.
  destruct (lookup_lt_is_Some_2 row (Z.to_nat j)) as [b Hb]; [lia|].
  exists row. split; [done|]. split; [done|].
  by rewrite (board_at_lookup g i j row b).
Qed.

(** X4: on a well-formed board, [is_mine] answers for a cell of the
    board whether it is in [mines]; a negative row or column index not
    below [-height] (resp. [-width]) is taken from the end, as Python
    lists do, so the call answers for the cell one board height (width)
    further; any other index raises [IndexError] ([None]). *)
Theorem is_mine_follows_python_indexing (g : Minesweeper.t) :
  Minesweeper.wf g →
  (∀ c, in_grid (Minesweeper.height g) (Minesweeper.width g) c →
        Minesweeper.is_mine g c = Some (bool_decide (c ∈ Minesweeper.mines g))) ∧
  (∀ i j, - Minesweeper.height g ≤ i < 0 →
          Minesweeper.is_mine g (i, j)
          = Minesweeper.is_mine g (i + Minesweeper.height g, j)) ∧
  (∀ i j, 0 ≤ i < Minesweeper.height g → - Minesweeper.width g ≤ j < 0 →
          Minesweeper.is_mine g (i, j)
          = Minesweeper.is_mine g (i, j + Minesweeper.width g)) ∧
  (∀ i j, i < - Minesweeper.height g ∨ Minesweeper.height g ≤ i →
          Minesweeper.is_mine g (i, j) = None) ∧
  (∀ i j, 0 ≤ i < Minesweeper.height g →
          j < - Minesweeper.width g ∨ Minesweeper.width g ≤ j →
          Minesweeper.is_mine g (i, j) = None).
Proof.
  intros Hwf. pose proof Hwf as (Hrows & Hcols & Hmines).
  split; [|split; [|split; [|split]]].
  - intros [i j] Hc. pose proof Hc as [Hi Hj]. simpl in *.
    destruct (wf_lookup g i j Hwf Hc) as (row & Hrow & Hlen & Hb).
    unfold Minesweeper.is_mine, Minesweeper.index.
    rewrite decide_True by lia. rewrite Hrow. simpl.
    rewrite decide_True by lia. rewrite Hb. f_equal.
    rewrite Hmines. destruct (Minesweeper.board_at g i j) eqn:Hat.
    + symmetry. apply bool_decide_eq_true, elem_of_board_mines. done.
    + symmetry. apply bool_decide_eq_false.
      intros (_ & _ & Ht)%elem_of_board_mines. simpl in Ht. congruence.
  - intros i j Hi. unfold Minesweeper.is_mine, Minesweeper.index.
    rewrite decide_False by lia. rewrite decide_True by lia.
    rewrite (decide_True (P := 0 ≤ i + Minesweeper.height g)) by lia.
    rewrite Hrows. do 3 f_equal. lia.
  - intros i j Hi Hj.
    destruct (wf_lookup g i (j + Minesweeper.width g) Hwf)
      as (row & Hrow & Hlen & Hb); [split; simpl; lia|].
    unfold Minesweeper.is_mine, Minesweeper.index.
    rewrite !(decide_True (P := 0 ≤ i)) by lia. rewrite Hrow. simpl.
    rewrite decide_False by lia. rewrite decide_True by lia.
    rewrite (decide_True (P := 0 ≤ j + Minesweeper.width g)) by lia.
    rewrite Hlen. do 2 f_equal. lia.
  - intros i j Hi. unfold Minesweeper.is_mine, Minesweeper.index.
    destruct (decide (0 ≤ i)).
    + rewrite (lookup_ge_None_2 (Minesweeper.board g)) by lia. done.
    + rewrite decide_False by lia. done.
  - intros i j Hi Hj.
    destruct (lookup_lt_is_Some_2 (Minesweeper.board g) (Z.to_nat i))
      as [row Hrow]; [lia|].
    pose proof (Forall_lookup_1 _ _ _ _ Hcols Hrow) as Hlen. simpl in Hlen.
    unfold Minesweeper.is_mine, Minesweeper.index.
    rewrite decide_True by lia. rewrite Hrow. simpl.
    destruct (decide (0 ≤ j)).
    + rewrite (lookup_ge_None_2 row) by lia. done.
    + rewrite decide_False by lia. done.
Qed.

Lemma is_mine_follows_python_indexing_witness :
  Minesweeper.wf example_game ∧
  Minesweeper.is_mine example_game (0, 1) = Some true ∧
  Minesweeper.is_mine example_game (-2, 1) = Some true ∧
  Minesweeper.is_mine example_game (2, 1) = None.
Proof.
  pose proof (is_mine_follows_python_indexing example_game example_game_wf)
    as (Hin & Hneg & _ & Hout & _).
  split; [apply example_game_wf|]. split; [|split].
  - rewrite (Hin (0, 1)) by (split; simpl; lia). reflexivity.
  - rewrite (Hneg (-2) 1) by (simpl; lia).
    rewrite (Hin (-2 + Minesweeper.height example_game, 1))
      by (split; simpl; lia).
    reflexivity.
  - apply Hout. simpl. lia.
Defined.


(** ** Construction of the board *)

Lemma length_range a b : length (range a b) = Z.to_nat (b - a).
Proof. unfold range. by rewrite length_map, length_seq. Qed.

Lemma board_at_empty_board h w mf i j :
  Minesweeper.board_at
    (Minesweeper.mk h w ∅ (Minesweeper.empty_board h w) mf) i j = false.
Proof.
  unfold Minesweeper.board_at, Minesweeper.empty_board. simpl.
  rewrite list_lookup_fmap.
  destruct (range 0 h !! Z.to_nat i); simpl; [|done].
  rewrite list_lookup_fmap. by destruct (range 0 w !! Z.to_nat j).
Qed.

Lemma empty_board_wf h w :
  Minesweeper.wf (Minesweeper.mk h w ∅ (Minesweeper.empty_board h w) ∅).
Proof.
  split; [|split]; simpl.
  - unfold Minesweeper.empty_board. rewrite length_map, length_range.
    f_equal. lia.
  - apply Forall_forall. intros row Hrow.
    unfold Minesweeper.empty_board in Hrow.
    apply list_elem_of_fmap in Hrow as (x & -> & _).
    rewrite length_map, length_range. f_equal. lia.
  - apply set_eq. intros p. rewrite elem_of_board_mines.
    rewrite board_at_empty_board. split; [set_solver|]. by intros (_ & _ & ?).
Qed.

Lemma board_at_set_true g i j i' j' row h w m mf :
  0 ≤ i → 0 ≤ j → 0 ≤ i' → 0 ≤ j' →
  Minesweeper.board g !! Z.to_nat i = Some row →
  (Z.to_nat j < length row)%nat →
  Minesweeper.board_at
    (Minesweeper.mk h w m (Minesweeper.set_true (Minesweeper.board g) i j) mf)
    i' j'
  = if decide (i' = i ∧ j' = j) then true else Minesweeper.board_at g i' j'.
Proof.
  intros Hi Hj Hi' Hj' Hrow Hlen.
  unfold Minesweeper.board_at, Minesweeper.set_true. simpl. rewrite Hrow.
  destruct (decide (i' = i)) as [->|Hne].
  - rewrite list_lookup_insert_eq by (by eapply lookup_lt_Some). simpl.
    rewrite Hrow. simpl.
    destruct (decide (j' = j)) as [->|Hnej].
    + rewrite list_lookup_insert_eq by done. by rewrite decide_True.
    + rewrite list_lookup_insert_ne by lia. by rewrite decide_False by tauto.
  - rewrite list_lookup_insert_ne by lia. by rewrite decide_False by tauto.
Qed.

Lemma set_true_wf g i j :
  Minesweeper.wf g →
  in_grid (Minesweeper.height g) (Minesweeper.width g) (i, j) →
  Minesweeper.wf
    (Minesweeper.mk (Minesweeper.height g) (Minesweeper.width g)
       (Minesweeper.mines g ∪ {[(i, j)]})
       (Minesweeper.set_true (Minesweeper.board g) i j)
       (Minesweeper.mines_found g)).
Proof.
  intros Hwf Hin. pose proof Hwf as (Hrows & Hcols & Hmines).
  pose proof Hin as [Hi Hj]. simpl in Hi, Hj.
  destruct (wf_lookup g i j Hwf Hin) as (row & Hrow & Hlen & _).
  split; [|split]; simpl.
  - unfold Minesweeper.set_true. rewrite Hrow. by rewrite length_insert.
  - unfold Minesweeper.set_true. rewrite Hrow.
    apply Forall_insert; [done|]. by rewrite length_insert.
  - apply set_eq. intros [i' j'].
    rewrite elem_of_board_mines, elem_of_union, elem_of_singleton, Hmines,
      elem_of_board_mines. simpl. split.
    + intros [(Hi' & Hj' & Hat)|[= -> ->]].
      * split; [done|]. split; [done|].
        rewrite (board_at_set_true g i j i' j' row) by first [done|lia].
        case_decide; done.
      * split; [done|]. split; [done|].
        rewrite (board_at_set_true g i j i j row) by first [done|lia].
        by rewrite decide_True.
    + intros (Hi' & Hj' & Hat).
      rewrite (board_at_set_true g i j i' j' row) in Hat by first [done|lia].
      case_decide as Heq; [right; f_equal; tauto|by left].
Qed.

Lemma length_pairs (rows cols : list Z) :
  length (i ← rows; j ← cols; [(i, j)]) = (length rows * length cols)%nat.
Proof.
  induction rows as [|i rows IH]; [done|].
  rewrite bind_cons, length_app, IH. simpl. f_equal.
  clear. induction cols as [|j cols IH]; [done|].
  rewrite bind_cons, length_app, IH. done.
Qed.

Lemma board_mines_size g :
  (size (Minesweeper.board_mines g)
   ≤ Z.to_nat (Minesweeper.height g) * Z.to_nat (Minesweeper.width g))%nat.
Proof.
  assert (Minesweeper.board_mines g
          ⊆ list_to_set (Minesweeper.grid g)) as Hsub.
  { intros p. unfold Minesweeper.board_mines.
    rewrite !elem_of_list_to_set. by intros [_ ?]%list_elem_of_filter. }
  apply subseteq_size in Hsub.
  rewrite size_list_to_set in Hsub.
  - unfold Minesweeper.grid in Hsub. rewrite length_pairs, !length_range in Hsub.
    replace (Minesweeper.height g - 0) with (Minesweeper.height g) in Hsub by lia.
    by replace (Minesweeper.width g - 0) with (Minesweeper.width g) in Hsub by lia.
  - apply NoDup_pairs; apply NoDup_range.
Qed.

Lemma place_invariant (h w wanted : Z) (S0 : gset cell) draws g g' :
  Forall (in_grid h w) draws → list_to_set draws ⊆ S0 →
  Minesweeper.wf g ∧ Minesweeper.height g = h ∧ Minesweeper.width g = w ∧
    Minesweeper.mines_found g = ∅ ∧ Minesweeper.mines g ⊆ S0 →
  Minesweeper.place wanted draws g = Some g' →
  Minesweeper.wf g' ∧ Minesweeper.height g' = h ∧ Minesweeper.width g' = w ∧
    Minesweeper.mines_found g' = ∅ ∧ Minesweeper.mines g' ⊆ S0 ∧
    Z.of_nat (size (Minesweeper.mines g')) = wanted.
Proof.
  revert g. induction draws as [|[i j] draws IH]; intros g Hdraws Hsub Hinv;
    simpl.
  - case_decide as Hsize; [|done]. intros [= <-]. tauto.
  - case_decide as Hsize; [intros [= <-]; tauto|].
    apply Forall_cons in Hdraws as [Hij Hdraws].
    assert (list_to_set draws ⊆ S0) as Hsub' by set_solver.
    destruct (Minesweeper.board_at g i j); [by apply IH|].
    apply IH; [done..|].
    destruct Hinv as (Hwf & <- & <- & Hmf & Hm).
    split; [by apply set_true_wf|]. simpl. repeat split; try done.
    set_solver.
Qed.

(** X5: a board returned by [Minesweeper.__init__], whatever pairs
    [random.randrange] produced (all of them inside the board), has
    [height] rows of [width] entries, has [mines] equal to the set of the
    positions that hold [True], holds exactly the requested number of
    mines, all of them among the pairs drawn, and starts with
    [mines_found] empty.  In particular the constructor can only return
    when asked for between 0 and [height * width] mines. *)
Theorem init_builds_a_well_formed_board
    (h w n : Z) (draws : list cell) (g : Minesweeper.t) :
  Forall (in_grid h w) draws →
  Minesweeper.init h w n draws = Some g →
  Minesweeper.wf g ∧
  Minesweeper.height g = h ∧ Minesweeper.width g = w ∧
  Z.of_nat (size (Minesweeper.mines g)) = n ∧
  Minesweeper.mines g ⊆ list_to_set draws ∧
  Minesweeper.mines_found g = ∅ ∧
  0 ≤ n ≤ Z.of_nat (Z.to_nat h * Z.to_nat w).
Proof.
  intros Hdraws Hinit. unfold Minesweeper.init in Hinit.
  destruct (place_invariant h w n (list_to_set draws) draws _ g Hdraws
              ltac:(done)
              ltac:(split; [apply empty_board_wf|]; simpl;
                    repeat split; try done; apply empty_subseteq) Hinit)
    as (Hwf & Hh & Hw & Hmf & Hm & Hsize).
  do 6 (split; [done|]).
  pose proof (board_mines_size g) as Hbound.
  destruct Hwf as (_ & _ & Hmines). rewrite <- Hmines, Hh, Hw in Hbound. lia.
Qed.

Lemma init_builds_a_well_formed_board_witness :
  Forall (in_grid 2 3) [(0, 1)] ∧
  Minesweeper.init 2 3 1 [(0, 1)] = Some example_game ∧
  Minesweeper.wf example_game ∧
  Z.of_nat (size (Minesweeper.mines example_game)) = 1.
Proof.
  assert (Forall (in_grid 2 3) [(0, 1)]) as Hdraws.
  { repeat constructor; simpl; lia. }
  assert (Minesweeper.init 2 3 1 [(0, 1)] = Some example_game) as Hinit.
  { vm_compute. reflexivity. }
  destruct (init_builds_a_well_formed_board 2 3 1 [(0, 1)] example_game
              Hdraws Hinit) as (Hwf & _ & _ & Hsize & _).
  done.
Defined.


(** ** Sentences *)

(** X6: the two extraction rules never disagree: [known_safes] and
    [known_mines] both return subsets of the cells of the sentence, and
    no cell is returned by both. *)
Theorem known_safes_and_known_mines_are_disjoint (s : Sentence.t) :
  Sentence.known_safes s ⊆ Sentence.cells s ∧
  Sentence.known_mines s ⊆ Sentence.cells s ∧
  Sentence.known_safes s ∩ Sentence.known_mines s = ∅.
Proof.
  unfold Sentence.known_safes, Sentence.known_mines.
  destruct (decide (Sentence.count s = 0)) as [Hz|Hz];
    destruct (decide (Z.of_nat (size (Sentence.cells s)) = Sentence.count s))
      as [Hf|Hf]; split; try split; try set_solver.
  assert (size (Sentence.cells s) = 0%nat) as Hsize by lia.
  apply size_empty_iff in Hsize. set_solver.
Qed.

(** X7: the extraction rules are sound: when the count of a sentence is
    the number of its cells that hold a mine, no cell returned by
    [known_safes] holds a mine and every cell returned by [known_mines]
    does. *)
Theorem extraction_rules_are_sound (M : gset cell) (s : Sentence.t) :
  sound M s →
  Sentence.known_safes s ## M ∧ Sentence.known_mines s ⊆ M.
Proof.
  intros Hs. split.
  - intros c Hc HM. by apply (sound_known_safes M s c).
  - intros c Hc. by apply (sound_known_mines M s c).
Qed.

Lemma extraction_rules_are_sound_witness :
  sound {[ (0, 1) ]} (Sentence.mk {[ (0, 1) ]} 1) ∧
  Sentence.known_safes (Sentence.mk {[ (0, 1) ]} 1) ## ({[ (0, 1) ]} : gset cell) ∧
  Sentence.known_mines (Sentence.mk {[ (0, 1) ]} 1) ⊆ ({[ (0, 1) ]} : gset cell).
Proof.
  assert (sound {[ (0, 1) ]} (Sentence.mk {[ (0, 1) ]} 1)) as Hs
    by (vm_compute; reflexivity).
  split; [exact Hs|].
  apply (extraction_rules_are_sound {[ (0, 1) ]} (Sentence.mk {[ (0, 1) ]} 1) Hs).
Defined.

(** X8: [Sentence.mark_safe] and [Sentence.mark_mine] return 1 exactly
    when the cell is in the sentence; afterwards the cell is absent and
    the other cells are kept; [mark_mine] decrements the count only when
    it returns 1 and [mark_safe] never changes it; marking the same cell
    again returns 0 and changes nothing. *)
Theorem sentence_marking_removes_the_cell (s : Sentence.t) (c : cell) :
  ((Sentence.mark_safe s c).2 = 1 ↔ c ∈ Sentence.cells s) ∧
  ((Sentence.mark_safe s c).2 = 0 ↔ c ∉ Sentence.cells s) ∧
  Sentence.cells (Sentence.mark_safe s c).1 = Sentence.cells s ∖ {[c]} ∧
  Sentence.count (Sentence.mark_safe s c).1 = Sentence.count s ∧
  Sentence.mark_safe (Sentence.mark_safe s c).1 c
    = ((Sentence.mark_safe s c).1, 0) ∧
  ((Sentence.mark_mine s c).2 = 1 ↔ c ∈ Sentence.cells s) ∧
  ((Sentence.mark_mine s c).2 = 0 ↔ c ∉ Sentence.cells s) ∧
  Sentence.cells (Sentence.mark_mine s c).1 = Sentence.cells s ∖ {[c]} ∧
  Sentence.count (Sentence.mark_mine s c).1
    = Sentence.count s - (Sentence.mark_mine s c).2 ∧
  Sentence.mark_mine (Sentence.mark_mine s c).1 c
    = ((Sentence.mark_mine s c).1, 0).
Proof.
  unfold Sentence.mark_safe, Sentence.mark_mine.
  destruct (decide (c ∈ Sentence.cells s)) as [Hc|Hc]; simpl.
  - rewrite !(decide_False (P := c ∈ Sentence.cells s ∖ {[c]}))
      by set_solver.
    repeat split; intros; try done; try lia.
  - rewrite !(decide_False (P := c ∈ Sentence.cells s)) by done.
    repeat split; intros; try done; try lia; set_solver.
Qed.

(** X9: marking keeps a sentence truthful: if the count of a sentence is
    the number of its cells that hold a mine, this is still so after
    [mark_safe] of a cell without a mine and after [mark_mine] of a cell
    with one. *)
Theorem sentence_marking_keeps_the_count_right
    (M : gset cell) (s : Sentence.t) (c : cell) :
  sound M s →
  (c ∉ M → sound M (Sentence.mark_safe s c).1) ∧
  (c ∈ M → sound M (Sentence.mark_mine s c).1).
Proof.
  intros Hs. split; intros Hc.
  - by apply (sound_without_safe M c s).
  - by apply (sound_without_mine M c s).
Qed.

Lemma sentence_marking_keeps_the_count_right_witness :
  sound {[ (0, 1) ]} (Sentence.mk {[ (0, 1); (1, 1) ]} 1) ∧
  sound {[ (0, 1) ]}
    (Sentence.mark_safe (Sentence.mk {[ (0, 1); (1, 1) ]} 1) (1, 1)).1 ∧
  sound {[ (0, 1) ]}
    (Sentence.mark_mine (Sentence.mk {[ (0, 1); (1, 1) ]} 1) (0, 1)).1.
Proof.
  assert (sound {[ (0, 1) ]} (Sentence.mk {[ (0, 1); (1, 1) ]} 1)) as Hs
    by (vm_compute; reflexivity).
  destruct (sentence_marking_keeps_the_count_right {[ (0, 1) ]}
              (Sentence.mk {[ (0, 1); (1, 1) ]} 1) (1, 1) Hs) as [Hsafe _].
  destruct (sentence_marking_keeps_the_count_right {[ (0, 1) ]}
              (Sentence.mk {[ (0, 1); (1, 1) ]} 1) (0, 1) Hs) as [_ Hmine].
  split; [exact Hs|]. split.
  - apply Hsafe. by intros [=]%elem_of_singleton.
  - apply Hmine. by apply elem_of_singleton.
Defined.

(** X10: subset-difference inference is sound: if the count of every
    sentence of the knowledge list is the number of its cells that hold
    a mine, the same is true of every sentence that [inference]
    returns. *)
Theorem inference_is_sound (M : gset cell) (ai : MinesweeperAI.t) :
  (∀ s, s ∈ knowledge ai → sound M s) →
  ∀ D, D ∈ (inference ai).1 → sound M D.
Proof.
  intros Hks D. rewrite inference_spec. simpl.
  intros (A & B & (HA & HB & _ & _ & _ & Hsub) & -> & _)%elem_of_emitted.
  apply sound_derived; auto.
Qed.

Lemma inference_is_sound_witness :
  let ai := mk 1 3 ∅ ∅ ∅
              [Sentence.mk {[ (0, 0); (0, 1); (0, 2) ]} 2;
               Sentence.mk {[ (0, 0); (0, 1) ]} 1] in
  let M : gset cell := {[ (0, 0); (0, 2) ]} in
  (∀ s, s ∈ knowledge ai → sound M s) ∧
  Sentence.mk {[ (0, 2) ]} 1 ∈ (inference ai).1 ∧
  sound M (Sentence.mk {[ (0, 2) ]} 1).
Proof.
  intros ai M.
  assert (∀ s, s ∈ knowledge ai → sound M s) as Hks.
  { intros s Hs. simpl in Hs.
    apply elem_of_cons in Hs as [->|Hs]; [vm_compute; reflexivity|].
    apply list_elem_of_singleton in Hs as ->. vm_compute. reflexivity. }
  assert (Sentence.mk {[ (0, 2) ]} 1 ∈ (inference ai).1) as Hin.
  { vm_compute. left. }
  split; [exact Hks|]. split; [exact Hin|].
  exact (inference_is_sound M ai Hks _ Hin).
Defined.


(** ** Marking and propagation *)

Lemma cover_without_safe c ks : cover (map (without_safe c) ks) ⊆ cover ks.
Proof.
  intros p (s' & (s & -> & Hs)%list_elem_of_fmap & Hp)%elem_of_cover.
  rewrite cells_without_safe in Hp. apply elem_of_cover. exists s.
  split; [done|]. set_solver.
Qed.

Lemma cover_without_mine c ks : cover (map (without_mine c) ks) ⊆ cover ks.
Proof.
  intros p (s' & (s & -> & Hs)%list_elem_of_fmap & Hp)%elem_of_cover.
  rewrite cells_without_mine in Hp. apply elem_of_cover. exists s.
  split; [done|]. set_solver.
Qed.

Lemma cleared_by_mark_safe ai c s :
  s ∈ knowledge (mark_safe ai c).1 → c ∉ Sentence.cells s.
Proof.
  rewrite mark_safe_spec. simpl.
  intros (s0 & -> & _)%list_elem_of_fmap. rewrite cells_without_safe.
  set_solver.
Qed.

Lemma cleared_by_mark_mine ai c s :
  s ∈ knowledge (mark_mine ai c).1 → c ∉ Sentence.cells s.
Proof.
  rewrite mark_mine_spec. simpl.
  intros (s0 & -> & _)%list_elem_of_fmap. rewrite cells_without_mine.
  set_solver.
Qed.

Section Propagation.
Context {order : SetOrder}.

Lemma update_pass_learns (U : gset cell) ai :
  safes ai ∪ mines ai ∪ cover (knowledge ai) ⊆ U →
  safes (update_pass ai).1 ∪ mines (update_pass ai).1
    ∪ cover (knowledge (update_pass ai).1) ⊆ U.
Proof.
  intros Hai.
  apply (update_pass_ind
           (λ st, safes st.1 ∪ mines st.1 ∪ cover (knowledge st.1) ⊆ U)
           (λ c, c ∈ U) (λ c, c ∈ U)); try done.
  - intros st c Hst Hc. rewrite count_mark_safe_spec. simpl.
    pose proof (cover_without_safe c (knowledge st.1)). set_solver.
  - intros st c Hst Hc. rewrite count_mark_mine_spec. simpl.
    pose proof (cover_without_mine c (knowledge st.1)). set_solver.
  - intros st x c Hst Hx Hc. apply Hst.
    apply elem_of_union_r, elem_of_cover. exists x. split; [done|].
    unfold Sentence.known_safes in Hc. case_decide; set_solver.
  - intros st x c Hst Hx Hc. apply Hst.
    apply elem_of_union_r, elem_of_cover. exists x. split; [done|].
    unfold Sentence.known_mines in Hc. case_decide; set_solver.
  - intros st c Hst Hc. set_solver.
  - intros st c Hst Hc. set_solver.
Qed.

End Propagation.

(** X11: [update] is idempotent: running it again on its own result
    changes nothing. *)
Theorem update_is_idempotent `{SetOrder} (ai : MinesweeperAI.t) :
  update (update ai) = update ai.
Proof.
  rewrite (update_unfold (update ai)), update_fixpoint. done.
Qed.

(** X12: the order in which Python enumerates a set has no influence on
    the knowledge base: [update] and [add_knowledge] compute the same
    state for any two enumeration orders. *)
Theorem iteration_order_is_irrelevant
    (o1 o2 : SetOrder) (ai : MinesweeperAI.t) :
  @update o1 ai = @update o2 ai ∧
  ∀ fuel c n, @add_knowledge o1 fuel ai c n = @add_knowledge o2 fuel ai c n.
Proof.
  split; [apply update_order|]. intros fuel c n. apply add_knowledge_order.
Qed.

(** X13: [update] adds and removes no sentence and does not touch the
    board size or [moves_made]; it never forgets a safe cell or a mine;
    and every cell it newly records as safe or as a mine occurred in a
    sentence of the knowledge list. *)
Theorem update_learns_only_from_sentences `{SetOrder}
    (ai : MinesweeperAI.t) :
  height (update ai) = height ai ∧ width (update ai) = width ai ∧
  moves_made (update ai) = moves_made ai ∧
  length (knowledge (update ai)) = length (knowledge ai) ∧
  safes ai ⊆ safes (update ai) ∧ mines ai ⊆ mines (update ai) ∧
  safes (update ai) ∪ mines (update ai)
    ⊆ safes ai ∪ mines ai ∪ cover (knowledge ai).
Proof.
  destruct (update_shrinks ai) as (Hh & Hw & Hm & Hs & Hmi & Hks).
  apply Forall2_length in Hks.
  do 6 (split; [done|]).
  assert (safes (update ai) ∪ mines (update ai)
            ∪ cover (knowledge (update ai))
          ⊆ safes ai ∪ mines ai ∪ cover (knowledge ai)) as Hall.
  { apply (update_ind (λ a, safes a ∪ mines a ∪ cover (knowledge a)
                            ⊆ safes ai ∪ mines ai ∪ cover (knowledge ai)));
      [|done].
    intros a Ha. by apply update_pass_learns. }
  set_solver.
Qed.

(** X14: [MinesweeperAI.mark_safe] and [MinesweeperAI.mark_mine] return
    the number of sentences that contained the cell, which is also the
    drop in the total number of cell memberships; afterwards no sentence
    contains the cell, and marking the same cell again returns 0 and
    changes nothing. *)
Theorem marking_counts_the_sentences_it_changes
    (ai : MinesweeperAI.t) (c : cell) :
  ((mark_safe ai c).2 = Z.of_nat (hits c (knowledge ai)) ∧
   (memberships (knowledge (mark_safe ai c).1) + hits c (knowledge ai)
    = memberships (knowledge ai))%nat ∧
   (∀ s, s ∈ knowledge (mark_safe ai c).1 → c ∉ Sentence.cells s) ∧
   mark_safe (mark_safe ai c).1 c = ((mark_safe ai c).1, 0)) ∧
  ((mark_mine ai c).2 = Z.of_nat (hits c (knowledge ai)) ∧
   (memberships (knowledge (mark_mine ai c).1) + hits c (knowledge ai)
    = memberships (knowledge ai))%nat ∧
   (∀ s, s ∈ knowledge (mark_mine ai c).1 → c ∉ Sentence.cells s) ∧
   mark_mine (mark_mine ai c).1 c = ((mark_mine ai c).1, 0)).
Proof.
  split.
  - split; [by rewrite mark_safe_spec|]. split; [|split].
    + rewrite mark_safe_spec. simpl. apply memberships_without_safe.
    + apply cleared_by_mark_safe.
    + apply mark_safe_known; [|apply cleared_by_mark_safe].
      rewrite mark_safe_spec. simpl. set_solver.
  - split; [by rewrite mark_mine_spec|]. split; [|split].
    + rewrite mark_mine_spec. simpl. apply memberships_without_mine.
    + apply cleared_by_mark_mine.
    + apply mark_mine_known; [|apply cleared_by_mark_mine].
      rewrite mark_mine_spec. simpl. set_solver.
Qed.

Lemma without_safe_mine_comm a b s :
  a ≠ b →
  without_mine b (without_safe a s) = without_safe a (without_mine b s).
Proof.
  intros Hne. apply Sentence_eq.
  - rewrite cells_without_mine, !cells_without_safe, cells_without_mine.
    set_solver.
  - rewrite count_without_mine, !count_without_safe, count_without_mine,
      cells_without_safe.
    repeat case_decide; try done; set_solver.
Qed.

(** X15: marks of different facts commute: marking two cells safe, or
    two cells as mines, in either order leaves the same state, and so
    does marking one cell safe and a different cell as a mine. *)
Theorem markings_commute (ai : MinesweeperAI.t) (a b : cell) :
  (mark_safe (mark_safe ai a).1 b).1 = (mark_safe (mark_safe ai b).1 a).1 ∧
  (mark_mine (mark_mine ai a).1 b).1 = (mark_mine (mark_mine ai b).1 a).1 ∧
  (a ≠ b →
   (mark_mine (mark_safe ai a).1 b).1 = (mark_safe (mark_mine ai b).1 a).1).
Proof.
  split; [|split].
  - pose proof (count_mark_safe_comm (ai, 0) a b) as Hcomm.
    rewrite !count_mark_safe_spec in Hcomm. simpl in Hcomm.
    rewrite !mark_safe_spec. simpl. by injection Hcomm as -> ->.
  - pose proof (count_mark_mine_comm (ai, 0) a b) as Hcomm.
    rewrite !count_mark_mine_spec in Hcomm. simpl in Hcomm.
    rewrite !mark_mine_spec. simpl. by injection Hcomm as -> ->.
  - intros Hne. rewrite !mark_safe_spec, !mark_mine_spec. simpl. f_equal.
    rewrite !map_map. apply map_ext. intros s.
    by apply without_safe_mine_comm.
Qed.

(** X16: contradictory facts are accepted silently: after [mark_safe]
    of a cell, [mark_mine] of the same cell returns 0, leaves the
    sentences alone and puts the cell in [mines] while it stays in
    [safes]; and the same with the two calls exchanged. *)
Theorem contradictory_marks_are_accepted (ai : MinesweeperAI.t) (c : cell) :
  ((mark_mine (mark_safe ai c).1 c).2 = 0 ∧
   knowledge (mark_mine (mark_safe ai c).1 c).1
     = knowledge (mark_safe ai c).1 ∧
   c ∈ safes (mark_mine (mark_safe ai c).1 c).1 ∧
   c ∈ mines (mark_mine (mark_safe ai c).1 c).1) ∧
  ((mark_safe (mark_mine ai c).1 c).2 = 0 ∧
   knowledge (mark_safe (mark_mine ai c).1 c).1
     = knowledge (mark_mine ai c).1 ∧
   c ∈ safes (mark_safe (mark_mine ai c).1 c).1 ∧
   c ∈ mines (mark_safe (mark_mine ai c).1 c).1).
Proof.
  split.
  - pose proof (cleared_by_mark_safe ai c) as Hclear.
    rewrite (mark_mine_spec (mark_safe ai c).1). simpl.
    rewrite without_mine_absent by done.
    apply hits_zero in Hclear. rewrite Hclear.
    rewrite mark_safe_spec. simpl. repeat split; try done; set_solver.
  - pose proof (cleared_by_mark_mine ai c) as Hclear.
    rewrite (mark_safe_spec (mark_mine ai c).1). simpl.
    rewrite without_safe_absent by done.
    apply hits_zero in Hclear. rewrite Hclear.
    rewrite mark_mine_spec. simpl. repeat split; try done; set_solver.
Qed.


(** ** Observation ingestion, continued *)

Lemma example_row_game_wf : Minesweeper.wf example_row_game.
Proof.
  split; [reflexivity|]. split; [by repeat constructor|].
  vm_compute. reflexivity.
Qed.

Lemma example_row_move (order : SetOrder) :
  add_knowledge 0 (init 1 3) (0, 0)
    (Minesweeper.nearby_mines example_row_game (0, 0))
  = Some example_row_state.
Proof.
  rewrite (add_knowledge_order order elements_order).
  vm_compute. reflexivity.
Qed.

Lemma example_row_truthful (order : SetOrder) :
  truthful example_row_game example_row_state.
Proof.
  eapply truthful_add_knowledge; [apply truthful_init| |
    |apply example_row_move].
  - simpl. by intros [=]%elem_of_singleton.
  - apply not_elem_of_empty.
Qed.

(** X17: when [add_knowledge] returns, every sentence of the knowledge
    list has at least one cell and is unresolved: its count is neither 0
    nor the number of its cells. *)
Theorem add_knowledge_leaves_no_resolved_sentence `{SetOrder}
    (fuel : nat) (ai : MinesweeperAI.t) (c : cell) (n : Z)
    (ai' : MinesweeperAI.t) :
  add_knowledge fuel ai c n = Some ai' →
  ∀ s, s ∈ knowledge ai' →
       Sentence.cells s ≠ ∅ ∧ Sentence.count s ≠ 0 ∧
       Z.of_nat (size (Sentence.cells s)) ≠ Sentence.count s.
Proof.
  intros Hadd.
  assert (settled ai' ∧ ∀ s, s ∈ knowledge ai' → Sentence.cells s ≠ ∅)
    as [Hset Hne].
  { apply (add_knowledge_exit
             (λ r, settled r ∧ ∀ s, s ∈ knowledge r → Sentence.cells s ≠ ∅)
             _ _ _ _ _ ltac:(
               intros X; split;
               [apply settled_inference, update_settled
               |rewrite inference_spec; simpl;
                intros s [Hs _]%list_elem_of_filter; exact Hs]) Hadd). }
  intros s Hs. split; [by apply Hne|].
  split; intros Heq; apply (Hne s Hs), Hset; try done;
    unfold saturated; tauto.
Qed.

Lemma add_knowledge_leaves_no_resolved_sentence_witness :
  @add_knowledge elements_order 0 example_state1 (1, 0)
    (Minesweeper.nearby_mines example_game (1, 0)) = Some example_state2 ∧
  ∀ s, s ∈ knowledge example_state2 →
       Sentence.cells s ≠ ∅ ∧ Sentence.count s ≠ 0 ∧
       Z.of_nat (size (Sentence.cells s)) ≠ Sentence.count s.
Proof.
  split; [apply example_second_move|].
  apply (@add_knowledge_leaves_no_resolved_sentence elements_order 0
           example_state1 (1, 0)
           (Minesweeper.nearby_mines example_game (1, 0)) example_state2).
  apply example_second_move.
Defined.

(** X18: under truthful play the knowledge base is sound with respect
    to the board: every cell in [mines] holds a mine, no cell in [safes]
    does, and the count of every sentence is the number of mines among
    its cells. *)
Theorem truthful_knowledge_is_sound `{SetOrder}
    (g : Minesweeper.t) (ai : MinesweeperAI.t) :
  Minesweeper.wf g → truthful g ai →
  mines ai ⊆ Minesweeper.mines g ∧
  safes ai ## Minesweeper.mines g ∧
  ∀ s, s ∈ knowledge ai →
       Sentence.count s
       = Z.of_nat (size (Sentence.cells s ∩ Minesweeper.mines g)).
Proof.
  intros Hwf Htr.
  destruct (truthful_consistent g ai Hwf Htr) as ((Hks & Hs & Hm) & _).
  done.
Qed.

Lemma truthful_knowledge_is_sound_witness :
  Minesweeper.wf example_game ∧
  @truthful elements_order example_game example_state2 ∧
  mines example_state2 ⊆ Minesweeper.mines example_game ∧
  safes example_state2 ## Minesweeper.mines example_game ∧
  ∀ s, s ∈ knowledge example_state2 →
       Sentence.count s
       = Z.of_nat (size (Sentence.cells s ∩ Minesweeper.mines example_game)).
Proof.
  split; [apply example_game_wf|]. split; [apply example_truthful|].
  apply (@truthful_knowledge_is_sound elements_order example_game
           example_state2 example_game_wf (example_truthful elements_order)).
Defined.

(** X19: under truthful play [make_safe_move] never proposes a mine:
    the cell it returns holds no mine and has not been played. *)
Theorem make_safe_move_is_safe `{SetOrder}
    (g : Minesweeper.t) (ai : MinesweeperAI.t) (c : cell) :
  Minesweeper.wf g → truthful g ai →
  make_safe_move ai = Some c →
  (c ∉ Minesweeper.mines g) ∧ (c ∉ moves_made ai).
Proof.
  intros Hwf Htr Hmove.
  destruct (truthful_consistent g ai Hwf Htr) as ((_ & Hs & _) & _).
  unfold make_safe_move in Hmove.
  apply find_some in Hmove as [Hin Hfree].
  apply list_elem_of_In, elem_of_iter in Hin.
  apply bool_decide_eq_true in Hfree. split; [set_solver|done].
Qed.

Lemma make_safe_move_is_safe_witness :
  Minesweeper.wf example_row_game ∧
  @truthful elements_order example_row_game example_row_state ∧
  @make_safe_move elements_order example_row_state = Some (0, 1) ∧
  ((0, 1) ∉ Minesweeper.mines example_row_game) ∧
  ((0, 1) ∉ moves_made example_row_state).
Proof.
  assert (@make_safe_move elements_order example_row_state = Some (0, 1))
    as Hmove by (vm_compute; reflexivity).
  split; [apply example_row_game_wf|].
  split; [apply example_row_truthful|]. split; [exact Hmove|].
  apply (@make_safe_move_is_safe elements_order example_row_game
           example_row_state (0, 1) example_row_game_wf
           (example_row_truthful elements_order) Hmove).
Defined.

(** X20: after a truthful call of [add_knowledge] has returned, every
    sentence of the knowledge list is genuinely undecided: its count is
    at least 1 and at most the number of its cells minus 1 (so it has at
    least two cells). *)
Theorem truthful_sentences_at_rest_are_undecided `{SetOrder}
    (g : Minesweeper.t) (ai : MinesweeperAI.t) (fuel : nat) (c : cell)
    (ai' : MinesweeperAI.t) :
  Minesweeper.wf g → truthful g ai →
  c ∉ Minesweeper.mines g → c ∉ moves_made ai →
  add_knowledge fuel ai c (Minesweeper.nearby_mines g c) = Some ai' →
  ∀ s, s ∈ knowledge ai' →
       1 ≤ Sentence.count s ≤ Z.of_nat (size (Sentence.cells s)) - 1.
Proof.
  intros Hwf Htr Hc Hnew Hadd s Hs.
  assert (truthful g ai') as Htr' by (by eapply truthful_add_knowledge).
  destruct (truthful_consistent g ai' Hwf Htr') as ((Hks & _) & _).
  pose proof (sound_bounds _ _ (Hks s Hs)) as Hbounds.
  assert (settled ai' ∧ ∀ s, s ∈ knowledge ai' → Sentence.cells s ≠ ∅)
    as [Hset Hne].
  { apply (add_knowledge_exit
             (λ r, settled r ∧ ∀ s, s ∈ knowledge r → Sentence.cells s ≠ ∅)
             _ _ _ _ _ ltac:(
               intros X; split;
               [apply settled_inference, update_settled
               |rewrite inference_spec; simpl;
                intros s' [Hs' _]%list_elem_of_filter; exact Hs']) Hadd). }
  assert (Sentence.count s ≠ 0) as Hz.
  { intros Heq. apply (Hne s Hs), Hset; [done|]. by left. }
  assert (Z.of_nat (size (Sentence.cells s)) ≠ Sentence.count s) as Hf.
  { intros Heq. apply (Hne s Hs), Hset; [done|]. by right. }
  lia.
Qed.

Lemma truthful_sentences_at_rest_are_undecided_witness :
  Minesweeper.wf example_game ∧
  @truthful elements_order example_game example_state1 ∧
  ((1, 0) ∉ Minesweeper.mines example_game) ∧
  ((1, 0) ∉ moves_made example_state1) ∧
  @add_knowledge elements_order 0 example_state1 (1, 0)
    (Minesweeper.nearby_mines example_game (1, 0)) = Some example_state2 ∧
  ∀ s, s ∈ knowledge example_state2 →
       1 ≤ Sentence.count s ≤ Z.of_nat (size (Sentence.cells s)) - 1.
Proof.
  assert (@truthful elements_order example_game example_state1) as Htr.
  { eapply truthful_add_knowledge; [apply truthful_init| |
      |apply example_first_move].
    - simpl. by intros [=]%elem_of_singleton.
    - apply not_elem_of_empty. }
  assert ((1, 0) ∉ Minesweeper.mines example_game) as Hc
    by (simpl; by intros [=]%elem_of_singleton).
  assert ((1, 0) ∉ moves_made example_state1) as Hnew
    by (simpl; by intros [=]%elem_of_singleton).
  split; [apply example_game_wf|]. split; [exact Htr|].
  split; [exact Hc|]. split; [exact Hnew|].
  split; [apply example_second_move|].
  apply (@truthful_sentences_at_rest_are_undecided elements_order
           example_game example_state1 0 (1, 0) example_state2
           example_game_wf Htr Hc Hnew (example_second_move elements_order)).
Defined.


(** ** The first observation *)

Section FirstObservation.
Context {order : SetOrder}.

Lemma update_learns ai :
  safes (update ai) ∪ mines (update ai) ∪ cover (knowledge (update ai))
  ⊆ safes ai ∪ mines ai ∪ cover (knowledge ai).
Proof.
  apply (update_ind (λ a, safes a ∪ mines a ∪ cover (knowledge a)
                          ⊆ safes ai ∪ mines ai ∪ cover (knowledge ai)));
    [|done].
  intros a Ha. by apply update_pass_learns.
Qed.

(** On a fresh object, an observation whose count says that none, or
    all, of the neighbours hold a mine is resolved completely. *)
Lemma first_observation_resolved (M : gset cell) h w c :
  M = ∅ ∨ M = friends (init h w) c →
  add_knowledge 0 (init h w) c
    (Z.of_nat (size (friends (init h w) c ∩ M)))
  = Some (mk h w {[c]} (friends (init h w) c ∩ M)
             ({[c]} ∪ friends (init h w) c ∖ M) []).
Proof.
  intros HM.
  assert (c ∉ friends (init h w) c) as HcF.
  { rewrite elem_of_friends. unfold neighbour. tauto. }
  remember (friends (init h w) c) as F eqn:HF.
  assert (c ∉ M) as HcM.
  { destruct HM as [->| ->]; [apply not_elem_of_empty|done]. }
  assert (consistent M (init h w)) as Hinit.
  { split; [|split]; simpl.
    - intros s Hs. by apply not_elem_of_nil in Hs.
    - apply disjoint_empty_l.
    - apply empty_subseteq. }
  remember (Z.of_nat (size (F ∩ M))) as n eqn:Hn.
  assert (n = Z.of_nat (size (friends (init h w) c ∩ M))) as Hn'
    by (by rewrite <- HF).
  pose proof (consistent_ingest M (init h w) c n HcM Hn' Hinit) as HX.
  pose proof (ingest_spec (init h w) c n) as HXeq.
  rewrite <- HF in HXeq. simpl in HXeq.
  remember (ingest (init h w) c n) as X eqn:HX0.
  pose proof (consistent_update M X HX) as (Hks & Hsafe & Hmine).
  pose proof (update_shrinks X) as (Hh & Hw & Hmv & Hs & Hmi & HF2).
  pose proof (update_settled X) as Hset.
  pose proof (update_learns X) as Hlearn.
  assert (height X = h ∧ width X = w ∧ moves_made X = ∅ ∪ {[c]} ∧
          mines X = ∅ ∧ safes X = ∅ ∪ {[c]} ∧
          knowledge X = [Sentence.mk F n])
    as (HXh & HXw & HXmv & HXmi & HXs & HXks) by (by rewrite HXeq).
  rewrite HXh in Hh. rewrite HXw in Hw. rewrite HXmv in Hmv.
  rewrite HXs in Hs. rewrite HXmi in Hmi. rewrite HXks in HF2.
  rewrite HXs, HXmi, HXks in Hlearn.
  apply Forall2_cons_inv_l in HF2 as (s' & ks' & [Hsub Hgone] & Hnil & Hkseq).
  apply Forall2_nil_inv_l in Hnil as ->. simpl in *.
  assert (s' ∈ knowledge (update X)) as Hs' by (rewrite Hkseq; left).
  pose proof (Hks s' Hs') as Hsound. unfold sound in Hsound.
  assert (Sentence.cells s' = ∅) as Hempty.
  { apply Hset; [done|]. destruct HM as [->| ->].
    - left. rewrite Hsound. replace (Sentence.cells s' ∩ ∅) with (∅ : gset cell)
        by set_solver. done.
    - right. rewrite Hsound. do 2 f_equal. set_solver. }
  assert (Sentence.count s' = 0) as Hcount.
  { rewrite Hsound, Hempty.
    replace (∅ ∩ M) with (∅ : gset cell) by set_solver. done. }
  assert (cover [Sentence.mk F n] = F) as Hcover.
  { unfold cover. simpl. set_solver. }
  rewrite Hcover in Hlearn. rewrite Hempty in Hgone.
  assert (mines (update X) = F ∩ M) as Hmines.
  { apply set_eq. intros p. split.
    - intros Hp. apply elem_of_intersection. split; [|by apply Hmine].
      assert (p ∈ ∅ ∪ {[c]} ∪ ∅ ∪ F) as Hin by set_solver.
      assert (p ≠ c) by (intros ->; by apply HcM, Hmine).
      set_solver.
    - intros [HpF HpM]%elem_of_intersection.
      assert (p ∈ safes (update X) ∪ mines (update X)) as Hin
        by (apply Hgone; set_solver).
      apply elem_of_union in Hin as [Hin|Hin]; [|done].
      exfalso. by apply (Hsafe p). }
  assert (safes (update X) = {[c]} ∪ F ∖ M) as Hsafes.
  { apply set_eq. intros p. split.
    - intros Hp.
      assert (p ∈ ∅ ∪ {[c]} ∪ ∅ ∪ F) as Hin by set_solver.
      assert (p ∉ M) by (intros HpM; by apply (Hsafe p)).
      set_solver.
    - intros [Hp|[HpF HpM]%elem_of_difference]%elem_of_union.
      + apply Hs. set_solver.
      + assert (p ∈ safes (update X) ∪ mines (update X)) as Hin
          by (apply Hgone; set_solver).
        apply elem_of_union in Hin as [Hin|Hin]; [done|].
        exfalso. by apply HpM, Hmine. }
  assert (update X = mk h w {[c]} (F ∩ M) ({[c]} ∪ F ∖ M)
                        [Sentence.mk ∅ 0]) as HU.
  { destruct (update X) as [h' w' mv mi sf ks]. simpl in *. subst.
    f_equal; [set_solver|]. f_equal. by apply Sentence_eq. }
  unfold add_knowledge. rewrite <- HX0, HU, inference_spec. simpl.
  unfold emitted. simpl. rewrite decide_True by done. simpl.
  unfold set_knowledge. simpl. rewrite filter_cons, decide_False by tauto.
  done.
Qed.

End FirstObservation.

(** X21: on a fresh object the first observation is resolved at once
    when its count is extreme.  [add_knowledge(c, 0)] returns with the
    cell and all its neighbours on the board in [safes], no mine, and an
    empty knowledge list; [add_knowledge(c, k)] with [k] the number of
    those neighbours returns with all of them in [mines], only the cell
    itself in [safes], and an empty knowledge list. *)
Theorem first_observation_with_extreme_count `{SetOrder} (h w : Z) (c : cell) :
  add_knowledge 0 (init h w) c 0
  = Some (mk h w {[c]} ∅ ({[c]} ∪ friends (init h w) c) []) ∧
  add_knowledge 0 (init h w) c (Z.of_nat (size (friends (init h w) c)))
  = Some (mk h w {[c]} (friends (init h w) c) {[c]} []).
Proof.
  split.
  - pose proof (first_observation_resolved ∅ h w c ltac:(by left)) as Hres.
    replace (friends (init h w) c ∩ ∅) with (∅ : gset cell) in Hres
      by set_solver.
    replace (friends (init h w) c ∖ ∅) with (friends (init h w) c) in Hres
      by set_solver.
    exact Hres.
  - pose proof (first_observation_resolved (friends (init h w) c) h w c
                  ltac:(by right)) as Hres.
    replace (friends (init h w) c ∩ friends (init h w) c)
      with (friends (init h w) c) in Hres by set_solver.
    replace (friends (init h w) c ∖ friends (init h w) c)
      with (∅ : gset cell) in Hres by set_solver.
    replace ({[c]} ∪ ∅) with ({[c]} : gset cell) in Hres by set_solver.
    exact Hres.
Qed.


(** ** Contradictory counts *)

(** X22: [add_knowledge] does not always return.  On a board of one row
    and four columns, after the calls [add_knowledge((0, 3), 5)] and
    [add_knowledge((0, 1), 1)], which both return, the call
    [add_knowledge((0, 1), 4)] never leaves its loop: it contradicts the
    count already reported for [(0, 1)], and every round of [inference]
    derives sentences that are not yet in the knowledge list. *)
Theorem contradictory_counts_make_add_knowledge_diverge `{SetOrder} :
  add_knowledge 0 (init 1 4) (0, 3) 5 = Some contradicted_state1 ∧
  add_knowledge 1 contradicted_state1 (0, 1) 1 = Some contradicted_state2 ∧
  ∀ fuel, add_knowledge fuel contradicted_state2 (0, 1) 4 = None.
Proof.
  split; [|split].
  - rewrite (add_knowledge_order _ elements_order). vm_compute. reflexivity.
  - rewrite (add_knowledge_order _ elements_order). vm_compute. reflexivity.
  - intros fuel. unfold add_knowledge.
    assert (restless (ingest contradicted_state2 (0, 1) 4)) as HX.
    { assert (ingest contradicted_state2 (0, 1) 4
              = mk 1 4 {[ (0, 3); (0, 1) ]} ∅ {[ (0, 3); (0, 1) ]}
                  [Sentence.mk {[ (0, 2) ]} 5;
                   Sentence.mk {[ (0, 0); (0, 2) ]} 1;
                   Sentence.mk {[ (0, 0) ]} (-4);
                   Sentence.mk {[ (0, 0); (0, 2) ]} 4]) as ->
        by (vm_compute; reflexivity).
      split; [done|]. split; [done|]. simpl.
      split; [set_solver|]. split; [set_solver|]. split.
      - exists 5. set_solver.
      - intros s Hs. unfold restless_shape.
        repeat (apply elem_of_cons in Hs as [->|Hs]); simpl.
        + right; right; left. split; [by right|]. exists 1. lia.
        + by left.
        + right; right; left. split; [by left|]. exists (-2). lia.
        + right. by left.
        + by apply not_elem_of_nil in Hs. }
    destruct (restless_round _ HX) as (Ha & Hnd & Hshape).
    destruct (inference (update (ingest contradicted_state2 (0, 1) 4)))
      as [nd a].
    by apply restless_loop.
Qed.
